(** * CIF-ER: the DDL extractor, the relationship inference and the
      selection highlight, embedded from [services/sqlParser.ts], [App.tsx]
      and [components/ERDiagram.tsx]. *)

From Stdlib Require Import String Ascii NArith ZArith QArith.
From stdpp Require Import base option list gmap sets.

Local Open Scope N_scope.

(** ** JavaScript strings

    A JavaScript string is a sequence of UTF-16 code units; [block[k]],
    [length], [substring], [indexOf] and the regular expressions of the
    parser (none carries the [u] flag) all work on code units. *)

Abbreviation char := N.
Abbreviation jsstring := (list N).

Definition ch (a : ascii) : char := N_of_ascii a.

(** A string literal of the source, all of whose characters are ASCII. *)
Definition lit (s : string) : jsstring := ch <$> list_ascii_of_string s.

Arguments ch : simpl never.
Arguments lit : simpl never.

(** the line feed, ['\n'] *)
Definition LF : char := ch "010".

Definition between (lo hi c : char) : bool := (lo <=? c) && (c <=? hi).

(** [\w] without the [u] and [i] flags: [[A-Za-z0-9_]]. *)
Definition isWordChar (c : char) : bool :=
  between 97 122 c || between 65 90 c || between 48 57 c || (c =? 95).

(** [\s], and the characters [String.prototype.trim] strips: WhiteSpace and
    LineTerminator of ECMA-262 (TAB, LF, VT, FF, CR, SP, NBSP, U+1680,
    U+2000..U+200A, U+2028, U+2029, U+202F, U+205F, U+3000, U+FEFF). *)
Definition isWhiteSpace (c : char) : bool :=
  between 9 13 c || (c =? 32) || (c =? 160) || (c =? 5760)
  || between 8192 8202 c || (c =? 8232) || (c =? 8233) || (c =? 8239)
  || (c =? 8287) || (c =? 12288) || (c =? 65279).

(** [Canonicalize] of a pattern without the [u] flag, used by the [i] flag:
    the character is upper-cased, except that a code unit of 128 or more is
    never mapped below 128.  Every pattern character of this program is ASCII,
    and its canonical form is met by its two ASCII cases only, so the code
    units of 128 or more, which can only canonicalize to 128 or more, are
    left where they are. *)
Definition canonicalize (c : char) : char :=
  if between 97 122 c then c - 32 else c.

(** [String.prototype.toUpperCase] on the Basic Latin block.  The parser
    applies it to a [\w+] capture only, where this is the whole of it. *)
Definition toUpperCase (s : jsstring) : jsstring := canonicalize <$> s.

(** [s.substring(a, b)]: both indices are clamped to the length and swapped
    when they come in the wrong order. *)
Definition substring (s : jsstring) (a b : nat) : jsstring :=
  let a' := Nat.min a (length s) in
  let b' := Nat.min b (length s) in
  take (Nat.max a' b' - Nat.min a' b') (drop (Nat.min a' b') s).

(** [s.substring(a)] *)
Definition substringFrom (s : jsstring) (a : nat) : jsstring :=
  substring s a (length s).

Fixpoint startsWith (s p : jsstring) : bool :=
  match p with
  | [] => true
  | c :: p' =>
      match s with
      | [] => false
      | d :: s' => (d =? c) && startsWith s' p'
      end
  end.

(** [s.indexOf(c)] for a one-character needle; [None] is the -1 of the source. *)
Fixpoint indexOf (s : jsstring) (c : char) : option nat :=
  match s with
  | [] => None
  | d :: s' => if d =? c then Some O else S <$> indexOf s' c
  end.

Fixpoint dropWhile (p : char → bool) (s : jsstring) : jsstring :=
  match s with
  | [] => []
  | c :: s' => if p c then dropWhile p s' else s
  end.

Fixpoint takeWhile (p : char → bool) (s : jsstring) : jsstring :=
  match s with
  | [] => []
  | c :: s' => if p c then c :: takeWhile p s' else []
  end.

Definition trimStart (s : jsstring) : jsstring := dropWhile isWhiteSpace s.
Definition trimEnd (s : jsstring) : jsstring := reverse (trimStart (reverse s)).
Definition trim (s : jsstring) : jsstring := trimEnd (trimStart s).

(** [s.split(sep)] for a one-character separator string ([','] and ['\n']):
    n occurrences of the separator give n+1 pieces, the empty string gives
    one empty piece. *)
Fixpoint splitChar (sep : char) (s : jsstring) : list jsstring :=
  match s with
  | [] => [[]]
  | c :: s' =>
      if c =? sep then [] :: splitChar sep s'
      else match splitChar sep s' with
           | [] => [[c]]
           | p :: ps => (c :: p) :: ps
           end
  end.

(** [s.replace(/c/g, '')] for a one-character pattern. *)
Definition removeAll (c : char) (s : jsstring) : jsstring :=
  List.filter (λ d, negb (d =? c)) s.

(** ** Regular expressions

    The patterns of the parser use literal characters, the classes [\s], [\w]
    and negated one-character classes, [?] on an atom or a non-capturing
    group, [*] and [+] on a class, and one capture group.  The matcher is the
    backtracking matcher of ECMA-262 in continuation style: a quantifier is
    greedy and gives characters back when the continuation fails. *)

Inductive regex : Type :=
| REmpty
| RChar (p : char → bool)
| RSeq (r1 r2 : regex)
| ROpt (r : regex)
| RStar (p : char → bool)
| RGroup (r : regex).

Definition RPlus (p : char → bool) : regex := RSeq (RChar p) (RStar p).

Definition isChar (a : ascii) : char → bool := λ c, c =? ch a.
Definition notChar (a : ascii) : char → bool := λ c, negb (c =? ch a).
(** a pattern character under the [i] flag *)
Definition isCI (p : char) : char → bool := λ c, canonicalize c =? canonicalize p.
(** a negated one-character class under the [i] flag *)
Definition notCI (a : ascii) : char → bool := λ c, negb (isCI (ch a) c).

Fixpoint RSeqs (rs : list regex) : regex :=
  match rs with
  | [] => REmpty
  | r :: rs' => RSeq r (RSeqs rs')
  end.

(** a run of one-character atoms *)
Definition RChars (ps : list (char → bool)) : regex := RSeqs (RChar <$> ps).

(** a literal run of the pattern under the [i] flag *)
Definition RLitCI (s : string) : regex := RChars (isCI <$> lit s).

Section Matcher.
Context {R : Type}.

Fixpoint star (p : char → bool) (s : jsstring) (k : jsstring → option R) : option R :=
  match s with
  | [] => k []
  | c :: s' =>
      if p c then
        match star p s' k with
        | Some r => Some r
        | None => k s
        end
      else k s
  end.

(** [exec r s cap k]: match [r] at the head of [s], with [cap] the capture
    so far ([None] is undefined), then continue with [k] on what is left. *)
Fixpoint exec (r : regex) (s : jsstring) (cap : option jsstring)
    (k : jsstring → option jsstring → option R) : option R :=
  match r with
  | REmpty => k s cap
  | RChar p =>
      match s with
      | c :: s' => if p c then k s' cap else None
      | [] => None
      end
  | RSeq r1 r2 => exec r1 s cap (λ s' cap', exec r2 s' cap' k)
  | ROpt r1 =>
      match exec r1 s cap k with
      | Some x => Some x
      | None => k s cap
      end
  | RStar p => star p s (λ s', k s' cap)
  | RGroup r1 =>
      exec r1 s cap (λ s' _, k s' (Some (take (length s - length s') s)))
  end.
End Matcher.

(** The match object: [m[0]], [m[1]] (undefined when the group took no part)
    and the input after the match. *)
Record MatchResult : Type := mkMatch {
  m0 : jsstring;
  m1 : option jsstring;
  after : jsstring;
}.

(** a match that starts at the head of [s] *)
Definition matchAt (r : regex) (s : jsstring) : option MatchResult :=
  exec r s None (λ s' cap, Some (mkMatch (take (length s - length s') s) cap s')).

(** [s.match(r)] and [r.test(s)] for a pattern without [^]: the first index,
    from 0 to the length, at which the pattern matches. *)
Fixpoint search (r : regex) (s : jsstring) : option MatchResult :=
  match matchAt r s with
  | Some m => Some m
  | None =>
      match s with
      | [] => None
      | _ :: s' => search r s'
      end
  end.

(** [s.split(r)] for a pattern without capture groups (ECMA-262,
    RegExp.prototype[@@split]): [p] is the end of the previous match and [q]
    runs over the string.  Where the pattern matches at [q] and the match
    ends at [e], then if [e = p] (an empty match right behind the previous
    one) [q] moves on by one, otherwise the piece from [p] to [q] is emitted
    and both [p] and [q] become [e]; where it does not match, [q] moves on by
    one.  At the end the piece from [p] on is emitted.  Here [piece] is the
    piece from [p] to [q], and [skip] counts the characters of a match that
    [q] still has to jump over. *)
Fixpoint splitRegexFrom (r : regex) (skip : nat) (piece : jsstring) (s : jsstring)
    : list jsstring :=
  match s with
  | [] => [piece]
  | c :: s' =>
      match skip with
      | S n => splitRegexFrom r n piece s'
      | O =>
          match length ∘ m0 <$> matchAt r s with
          | Some (S n) => piece :: splitRegexFrom r n [] s'
          | Some O =>
              match piece with
              | [] => splitRegexFrom r O [c] s'
              | _ => piece :: splitRegexFrom r O [c] s'
              end
          | None => splitRegexFrom r O (piece ++ [c]) s'
          end
      end
  end.

(** The empty string gives no piece when the pattern matches it and the one
    empty piece otherwise. *)
Definition splitRegex (r : regex) (s : jsstring) : list jsstring :=
  match s with
  | [] => if matchAt r [] is Some _ then [] else [[]]
  | _ => splitRegexFrom r O [] s
  end.

(** ** The schema model ([types.ts]) *)

Module Col.
Record ColumnDefinition : Type := mk {
  name : jsstring;
  type : jsstring;
  comment : jsstring;
  isPrimaryKey : bool;
  isNullable : bool;
}.
End Col.

Module Tbl.
Record TableDefinition : Type := mk {
  id : jsstring;
  name : jsstring;
  comment : jsstring;
  columns : list Col.ColumnDefinition;
}.
End Tbl.

Abbreviation ColumnDefinition := Col.ColumnDefinition.
Abbreviation TableDefinition := Tbl.TableDefinition.

(** ** Completions

    A JavaScript computation ends normally with a value or abruptly with a
    thrown exception.  The only exception the parser could raise is the
    TypeError of a method call on [undefined]. *)

Inductive completion (A : Type) : Type :=
| Normal (a : A)
| Throw.
Arguments Normal {A} a.
Arguments Throw {A}.

#[export] Instance completion_ret : MRet completion := λ A a, Normal a.
#[export] Instance completion_bind : MBind completion := λ A B f m,
  match m with
  | Normal a => f a
  | Throw => Throw
  end.

(** [m[1]].  A group that took no part in the match reads as [undefined];
    the source then calls a string method on it ([pkLineMatch[1].split],
    [colName.toUpperCase]) or stores it where a string is declared.  The
    model raises at the read in every case. *)
Definition group1 (m : MatchResult) : completion jsstring :=
  match m1 m with
  | Some c => Normal c
  | None => Throw
  end.

(** ** The parser ([services/sqlParser.ts]) *)


(** [/CREATE\s+TABLE/i] *)
Definition reCreateTable : regex :=
  RSeqs [RLitCI "CREATE"; RPlus isWhiteSpace; RLitCI "TABLE"].

(** [/^\s*`?(\w+)`?/]; the [^] is the use of [matchAt]. *)
Definition reTableName : regex :=
  RSeqs [RStar isWhiteSpace; ROpt (RChar (isChar "`"));
         RGroup (RPlus isWordChar); ROpt (RChar (isChar "`"))].

(** [/COMMENT\s*=\s*'([^']+)'/i] *)
Definition reTableComment : regex :=
  RSeqs [RLitCI "COMMENT"; RStar isWhiteSpace; RLitCI "="; RStar isWhiteSpace;
         RLitCI "'"; RGroup (RPlus (notCI "'")); RLitCI "'"].

(** [/PRIMARY KEY\s*\(([^)]+)\)/i] *)
Definition rePrimaryKey : regex :=
  RSeqs [RLitCI "PRIMARY KEY"; RStar isWhiteSpace; RLitCI "(";
         RGroup (RPlus (notCI ")")); RLitCI ")"].

(** [/^`?(\w+)`?/] *)
Definition reColumnName : regex :=
  RSeqs [ROpt (RChar (isChar "`")); RGroup (RPlus isWordChar);
         ROpt (RChar (isChar "`"))].

(** [/^(\w+(?:\([^)]+\))?)/] *)
Definition reColumnType : regex :=
  RGroup (RSeq (RPlus isWordChar)
               (ROpt (RSeqs [RChar (isChar "("); RPlus (notChar ")");
                             RChar (isChar ")")]))).

(** [/COMMENT\s+'([^']+)'/i] *)
Definition reColumnComment : regex :=
  RSeqs [RLitCI "COMMENT"; RPlus isWhiteSpace; RLitCI "'";
         RGroup (RPlus (notCI "'")); RLitCI "'"].

(** [/NOT NULL/i] *)
Definition reNotNull : regex := RLitCI "NOT NULL".

(** The prefixes on which a line is skipped, in the order of the source. *)
Definition skippedPrefixes : list jsstring :=
  lit <$> ["PRIMARY KEY"; "KEY"; "INDEX"; "UNIQUE"; "CONSTRAINT";
           "FOREIGN KEY"; "--"; "/*"; "PARTITION"]%string.

Definition keywordNames : list jsstring :=
  lit <$> ["KEY"; "PRIMARY"; "INDEX"; "UNIQUE"; "CONSTRAINT"; "FOREIGN"; "CHECK"]%string.

(** The scan for the parenthesis that closes the table body: [s] is the
    block from index [k] on, [parenCount] the nesting counter. *)
Fixpoint findClosingParen (s : jsstring) (k : nat) (parenCount : Z) : option nat :=
  match s with
  | [] => None
  | c :: s' =>
      let parenCount' :=
        if c =? ch "(" then (parenCount + 1)%Z
        else if c =? ch ")" then (parenCount - 1)%Z
        else parenCount in
      if (parenCount' =? 0)%Z then Some k
      else findClosingParen s' (S k) parenCount'
  end.

(** The primary-key pre-scan of a table body. *)
Definition primaryKeysOf (body : jsstring) : completion (gset jsstring) :=
  match search rePrimaryKey body with
  | Some pkLineMatch =>
      g ← group1 pkLineMatch;
      let pkCols :=
        (λ s, removeAll (ch "'") (removeAll (ch "`") (trim s))) <$> splitChar (ch ",") g in
      mret (list_to_set pkCols)
  | None => mret ∅
  end.

(** The callback of [rawLines.forEach]: [None] is a [return] that pushed
    nothing. *)
Definition parseLine (primaryKeys : gset jsstring) (line : jsstring)
    : completion (option ColumnDefinition) :=
  let line := trim line in
  if bool_decide (line = []) || existsb (startsWith line) skippedPrefixes
  then mret None
  else
    match matchAt reColumnName line with
    | None => mret None
    | Some colNameMatch =>
        colName ← group1 colNameMatch;
        if bool_decide (toUpperCase colName ∈ keywordNames) then mret None
        else
          let remaining := trim (substringFrom line (length (m0 colNameMatch))) in
          colType ← match matchAt reColumnType remaining with
                     | Some typeMatch => group1 typeMatch
                     | None => mret (lit "unknown")
                     end;
          colComment ← match search reColumnComment line with
                        | Some colCommentMatch => group1 colCommentMatch
                        | None => mret []
                        end;
          let isNotNull := bool_decide (is_Some (search reNotNull line)) in
          mret (Some (Col.mk colName colType colComment
                        (bool_decide (colName ∈ primaryKeys)) (negb isNotNull)))
    end.

(** [rawLines.forEach(line => ...)], pushing onto [columns]. *)
Fixpoint parseLines (primaryKeys : gset jsstring) (rawLines : list jsstring)
    (columns : list ColumnDefinition) : completion (list ColumnDefinition) :=
  match rawLines with
  | [] => mret columns
  | line :: rest =>
      c ← parseLine primaryKeys line;
      parseLines primaryKeys rest
        (match c with Some col => columns ++ [col] | None => columns end)
  end.

(** The body and the text after it: between the first [(] and the [)] at
    which the counter is back at zero. [None] is a [continue]. *)
Definition extractBody (block : jsstring) : option (jsstring * jsstring) :=
  match indexOf block (ch "(") with
  | None => None
  | Some firstParenIndex =>
      match findClosingParen (drop (firstParenIndex + 1) block) (firstParenIndex + 1) 1 with
      | None => None
      | Some lastParenIndex =>
          Some (substring block (firstParenIndex + 1) lastParenIndex,
                substringFrom block (lastParenIndex + 1))
      end
  end.

(** One turn of the loop over the blocks: [None] is a [continue]. *)
Definition parseBlock (block : jsstring) : completion (option TableDefinition) :=
  match matchAt reTableName block with
  | None => mret None
  | Some nameMatch =>
      tableName ← group1 nameMatch;
      match extractBody block with
      | None => mret None
      | Some (body, afterBody) =>
          tableComment ← match search reTableComment afterBody with
                          | Some tableCommentMatch => group1 tableCommentMatch
                          | None => mret []
                          end;
          primaryKeys ← primaryKeysOf body;
          columns ← parseLines primaryKeys (splitChar LF body) [];
          mret (Some (Tbl.mk tableName tableName tableComment columns))
      end
  end.

Fixpoint parseBlocks (blocks : list jsstring) (tables : list TableDefinition)
    : completion (list TableDefinition) :=
  match blocks with
  | [] => mret tables
  | block :: rest =>
      t ← parseBlock block;
      parseBlocks rest (match t with Some tbl => tables ++ [tbl] | None => tables end)
  end.

(** The blocks the loop visits: the pieces of the split from index 1 on. *)
Definition tableBlocks (sql : jsstring) : list jsstring :=
  drop 1 (splitRegex reCreateTable sql).

Definition parseSQL (sql : jsstring) : completion (list TableDefinition) :=
  parseBlocks (tableBlocks sql) [].

(** ** The diagram ([components/ERDiagram.tsx]) *)

(** The values a flag of a node or an edge takes: the source stores
    [selectedNodeId && (...)] into [animated], which is [null], the empty
    string or a boolean, and reads [data.selected] and [data.dimmed] that are
    [undefined] on a fresh node. *)
Inductive value : Type :=
| VUndefined
| VNull
| VBool (b : bool)
| VString (s : jsstring).

#[export] Instance value_eq_dec : EqDecision value.
Proof. solve_decision. Defined.

(** ToBoolean *)
Definition truthy (v : value) : bool :=
  match v with
  | VUndefined | VNull => false
  | VBool b => b
  | VString s => negb (bool_decide (s = []))
  end.

(** ToBoolean of a string: the empty string is falsy. *)
Definition truthyString (s : jsstring) : bool := negb (bool_decide (s = [])).

(** A node of the diagram.  [position] and [type], which only place and
    draw the node, are left out. *)
Module Node.
Record Node : Type := mk {
  id : jsstring;
  label : jsstring;
  comment : jsstring;
  columns : list ColumnDefinition;
  selected : value;
  dimmed : value;
}.
End Node.

(** An edge of the diagram.  [type] and [markerEnd.type], the same on
    every edge, are left out; [opacity] and [zIndex] are absent on a fresh
    edge. *)
Module Edge.
Record Edge : Type := mk {
  id : jsstring;
  source : jsstring;
  target : jsstring;
  sourceHandle : jsstring;
  targetHandle : jsstring;
  animated : value;
  stroke : jsstring;
  strokeWidth : Z;
  opacity : option Q;
  markerColor : jsstring;
  zIndex : option Z;
}.
End Edge.

Abbreviation Node := Node.Node.
Abbreviation Edge := Edge.Edge.

(** Columns to ignore when automatically inferring relationships *)
Definition IGNORED_FK_COLUMNS : gset jsstring :=
  list_to_set (lit <$>
    ["COMPANY"; "TRAN_TIMESTAMP"; "USER_ID"; "CREATE_USER_ID";
     "LAST_CHANGE_USER_ID"; "APPR_USER_ID"; "AUTH_USER_ID"; "CREATE_DATE";
     "UPDATE_DATE"; "LAST_CHANGE_DATE"; "TRAN_DATE"; "RUN_DATE"; "JOB_RUN_ID";
     "BATCH_NO"; "REMARK"; "REMARK1"; "REMARK2"; "REMARK3"; "ERROR_CODE";
     "ERROR_DESC"]%string).

Definition getLayoutedNodes (tables : list TableDefinition) : list Node :=
  (λ table, Node.mk (Tbl.id table) (Tbl.name table) (Tbl.comment table)
              (Tbl.columns table) VUndefined VUndefined) <$> tables.

Section Inference.
(** [String.prototype.toUpperCase] over all of Unicode; its case tables are
    not part of the repository.  On the names the parser produces, which
    are [\w+] captures, it is [toUpperCase] above. *)
Variable upperCase : jsstring → jsstring.

(** The body of the inner [forEach] that fills [pkMap]. *)
Definition registerKey (t : TableDefinition) (pkMap : gmap jsstring jsstring)
    (c : ColumnDefinition) : gmap jsstring jsstring :=
  if Col.isPrimaryKey c && negb (bool_decide (Col.name c ∈ IGNORED_FK_COLUMNS)) then
    if negb (bool_decide (upperCase (Col.name c) = lit "ID")) then
      if bool_decide (Col.name c = lit "CLIENT_NO")
         && bool_decide (Tbl.name t = lit "cif_client")
      then <[Col.name c := Tbl.id t]> pkMap
      else if negb (bool_decide (is_Some (pkMap !! Col.name c)))
           then <[Col.name c := Tbl.id t]> pkMap
           else pkMap
    else pkMap
  else pkMap.

Definition buildPkMap (tables : list TableDefinition) : gmap jsstring jsstring :=
  foldl (λ pkMap t, foldl (registerKey t) pkMap (Tbl.columns t)) ∅ tables.

(** The edge pushed for column [c] of table [t]. *)
Definition mkEdge (t : TableDefinition) (c : ColumnDefinition)
    (targetTableId : jsstring) : Edge :=
  Edge.mk (lit "e-" ++ Tbl.id t ++ lit "-" ++ Col.name c ++ lit "-" ++ targetTableId)
    (Tbl.id t) targetTableId
    (Col.name c ++ lit "-source") (Col.name c ++ lit "-target")
    (VBool false) (lit "#cbd5e1") 1 None (lit "#94a3b8") None.

(** The body of the inner [forEach] that fills [newEdges]. *)
Definition inferEdge (pkMap : gmap jsstring jsstring) (t : TableDefinition)
    (newEdges : list Edge) (c : ColumnDefinition) : list Edge :=
  if bool_decide (Col.name c ∈ IGNORED_FK_COLUMNS) then newEdges
  else
    match pkMap !! Col.name c with
    | Some targetTableId =>
        if truthyString targetTableId
           && negb (bool_decide (targetTableId = Tbl.id t))
        then newEdges ++ [mkEdge t c targetTableId]
        else newEdges
    | None => newEdges
    end.

Definition inferEdges (tables : list TableDefinition) : list Edge :=
  let pkMap := buildPkMap tables in
  foldl (λ newEdges t, foldl (inferEdge pkMap t) newEdges (Tbl.columns t)) [] tables.
End Inference.

(** The default order of [Array.prototype.sort] on strings: by code units. *)
Fixpoint stringLe (a b : jsstring) : bool :=
  match a, b with
  | [], _ => true
  | _ :: _, [] => false
  | x :: a', y :: b' => (x <? y) || ((x =? y) && stringLe a' b')
  end.

Fixpoint insertSorted (x : jsstring) (l : list jsstring) : list jsstring :=
  match l with
  | [] => [x]
  | y :: l' => if stringLe x y then x :: l else y :: insertSorted x l'
  end.

Definition sortStrings (l : list jsstring) : list jsstring :=
  foldr insertSorted [] l.

Fixpoint join (sep : jsstring) (l : list jsstring) : jsstring :=
  match l with
  | [] => []
  | [x] => x
  | x :: l' => x ++ sep ++ join sep l'
  end.

Definition topologyFingerprintOf (edges : list Edge) : jsstring :=
  join (lit "||")
    (sortStrings ((λ e, Edge.source e ++ lit "|" ++ Edge.target e) <$> edges)).

(** The body of the [forEach] that fills the adjacency map. *)
Definition addAdjacent (map : gmap jsstring (gset jsstring)) (e : Edge)
    : gmap jsstring (gset jsstring) :=
  let map := if bool_decide (is_Some (map !! Edge.source e)) then map
             else <[Edge.source e := ∅]> map in
  let map := if bool_decide (is_Some (map !! Edge.target e)) then map
             else <[Edge.target e := ∅]> map in
  let map := alter (λ s, s ∪ {[Edge.target e]}) (Edge.source e) map in
  alter (λ s, s ∪ {[Edge.source e]}) (Edge.target e) map.

Definition adjacencyOf (edges : list Edge) : gmap jsstring (gset jsstring) :=
  foldl addAdjacent ∅ edges.

(** [node.id === selectedNodeId] *)
Definition isSelectedId (selectedNodeId : option jsstring) (i : jsstring) : bool :=
  bool_decide (selectedNodeId = Some i).

(** [selectedNodeId ? adjacency.get(selectedNodeId)?.has(node.id) : false] *)
Definition isNeighborOf (selectedNodeId : option jsstring)
    (adjacency : gmap jsstring (gset jsstring)) (i : jsstring) : value :=
  match selectedNodeId with
  | Some s =>
      if truthyString s then
        match adjacency !! s with
        | Some neighbours => VBool (bool_decide (i ∈ neighbours))
        | None => VUndefined
        end
      else VBool false
  | None => VBool false
  end.

(** The callback of [nds.map] in the highlight effect. *)
Definition highlightNode (selectedNodeId : option jsstring)
    (adjacency : gmap jsstring (gset jsstring)) (node : Node) : Node :=
  let isSelected := isSelectedId selectedNodeId (Node.id node) in
  let isNeighbor := isNeighborOf selectedNodeId adjacency (Node.id node) in
  let shouldDim :=
    bool_decide (selectedNodeId ≠ None) && negb isSelected && negb (truthy isNeighbor) in
  if bool_decide (Node.selected node = VBool isSelected)
     && bool_decide (Node.dimmed node = VBool shouldDim)
  then node
  else Node.mk (Node.id node) (Node.label node) (Node.comment node)
         (Node.columns node) (VBool isSelected) (VBool shouldDim).

(** [edge.style?.opacity === targetOpacity]: an absent opacity is
    [undefined] and equals no number. *)
Definition opacityIs (o : option Q) (q : Q) : bool :=
  match o with
  | Some p => Qeq_bool p q
  | None => false
  end.

(** [selectedNodeId && (edge.source === selectedNodeId || edge.target === selectedNodeId)] *)
Definition isConnectedTo (selectedNodeId : option jsstring) (edge : Edge) : value :=
  match selectedNodeId with
  | None => VNull
  | Some s =>
      if truthyString s
      then VBool (bool_decide (Edge.source edge = s) || bool_decide (Edge.target edge = s))
      else VString s
  end.

(** The callback of [eds.map] in the highlight effect. *)
Definition highlightEdge (selectedNodeId : option jsstring) (edge : Edge) : Edge :=
  let isConnected := isConnectedTo selectedNodeId edge in
  let shouldDim := bool_decide (selectedNodeId ≠ None) && negb (truthy isConnected) in
  let targetStroke := if truthy isConnected then lit "#3b82f6" else lit "#cbd5e1" in
  let targetWidth := if truthy isConnected then 3%Z else 1%Z in
  let targetOpacity := if shouldDim then 0.2%Q else 1%Q in
  let targetColor :=
    if truthy isConnected then lit "#3b82f6"
    else if shouldDim then lit "#e2e8f0" else lit "#94a3b8" in
  let targetZIndex := if truthy isConnected then 10%Z else 0%Z in
  if bool_decide (Edge.animated edge = isConnected)
     && bool_decide (Edge.stroke edge = targetStroke)
     && bool_decide (Edge.strokeWidth edge = targetWidth)
     && opacityIs (Edge.opacity edge) targetOpacity
     && bool_decide (Edge.markerColor edge = targetColor)
     && bool_decide (Edge.zIndex edge = Some targetZIndex)
  then edge
  else Edge.mk (Edge.id edge) (Edge.source edge) (Edge.target edge)
         (Edge.sourceHandle edge) (Edge.targetHandle edge)
         isConnected targetStroke targetWidth (Some targetOpacity)
         targetColor (Some targetZIndex).

(** The state of [ERDiagramContent]: the three [useState] cells and the two
    memoized values with the key the second one was computed for. *)
Record Diagram : Type := mkDiagram {
  nodes : list Node;
  edges : list Edge;
  selectedNodeId : option jsstring;
  topologyFingerprint : jsstring;
  adjacency : gmap jsstring (gset jsstring);
}.

(** A render: [topologyFingerprint] is computed from the edges, and
    [adjacency] is computed again only when the fingerprint differs from the
    one it was last computed for. *)
Definition render (d : Diagram) : Diagram :=
  let fingerprint := topologyFingerprintOf (edges d) in
  if bool_decide (fingerprint = topologyFingerprint d) then d
  else mkDiagram (nodes d) (edges d) (selectedNodeId d) fingerprint
         (adjacencyOf (edges d)).

(** The effect on [[selectedNodeId, adjacency]]: update node and edge styles
    based on selection. *)
Definition highlightEffect (d : Diagram) : Diagram :=
  mkDiagram (highlightNode (selectedNodeId d) (adjacency d) <$> nodes d)
    (highlightEdge (selectedNodeId d) <$> edges d)
    (selectedNodeId d) (topologyFingerprint d) (adjacency d).

(** What follows a change of state: the component renders again, the
    highlight effect runs when [selectedNodeId] or [adjacency] is not what it
    was at the render [before], and the render after the effect finds both
    unchanged. *)
Definition settle (before d : Diagram) : Diagram :=
  let d := render d in
  if bool_decide (selectedNodeId d = selectedNodeId before)
     && bool_decide (topologyFingerprint d = topologyFingerprint before)
  then d
  else render (highlightEffect d).

Definition setSelectedNodeId (sel : option jsstring) (d : Diagram) : Diagram :=
  mkDiagram (nodes d) (edges d) sel (topologyFingerprint d) (adjacency d).

(** [onNodeClick] and [onPaneClick] *)
Definition onNodeClick (node : Node) (d : Diagram) : Diagram :=
  settle d (setSelectedNodeId (Some (Node.id node)) d).

Definition onPaneClick (d : Diagram) : Diagram :=
  settle d (setSelectedNodeId None d).

Section Component.
Variable upperCase : jsstring → jsstring.

(** The effect on [[tables]]: initialize nodes and edges. *)
Definition initEffect (tables : list TableDefinition) (d : Diagram) : Diagram :=
  mkDiagram (getLayoutedNodes tables) (inferEdges upperCase tables) None
    (topologyFingerprint d) (adjacency d).

(** The first render has no node, no edge and no selection; both effects
    run after it, the highlight effect with the selection and the adjacency
    of that render on the nodes and edges the first effect has set. *)
Definition mount (tables : list TableDefinition) : Diagram :=
  let first := mkDiagram [] [] None (topologyFingerprintOf []) (adjacencyOf []) in
  settle first (highlightEffect (initEffect tables first)).

(** The parent passes another [tables] array. *)
Definition tablesChanged (tables : list TableDefinition) (d : Diagram) : Diagram :=
  settle d (initEffect tables d).

Inductive reachable : Diagram → Prop :=
| reach_mount tables : reachable (mount tables)
| reach_tables tables d : reachable d → reachable (tablesChanged tables d)
| reach_node node d : reachable d → node ∈ nodes d → reachable (onNodeClick node d)
| reach_pane d : reachable d → reachable (onPaneClick d).
End Component.

(** What [TableNode] and the edge renderer show. *)
Definition nodeDimmed (n : Node) : bool := truthy (Node.dimmed n).

Definition edgeEmphasized (e : Edge) : bool :=
  truthy (Edge.animated e) && bool_decide (Edge.stroke e = lit "#3b82f6")
  && bool_decide (Edge.strokeWidth e = 3%Z).

Definition edgeDimmed (e : Edge) : bool := opacityIs (Edge.opacity e) 0.2%Q.

(** ** The application ([App.tsx]) *)

Inductive ViewMode : Type := EDITOR | SQL_INPUT.

Record App : Type := mkApp {
  sqlInput : jsstring;
  parsedTables : list TableDefinition;
  viewMode : ViewMode;
  error : option jsstring;
}.

Section HandleParse.
(** [parseSQL], as [handleParse] calls it inside its [try]. *)
Variable parse : jsstring → completion (list TableDefinition).

Definition handleParseWith (st : App) : App :=
  match parse (sqlInput st) with
  | Normal tables =>
      if bool_decide (length tables = 0%nat) then
        mkApp (sqlInput st) (parsedTables st) (viewMode st)
          (Some (lit "No tables found in the provided SQL."))
      else mkApp (sqlInput st) tables EDITOR None
  | Throw =>
      mkApp (sqlInput st) (parsedTables st) (viewMode st)
        (Some (lit "Failed to parse SQL. Please check the syntax."))
  end.
End HandleParse.

Definition handleParse (st : App) : App := handleParseWith parseSQL st.

(** [handleFileUpload], once the file is read and the timer has fired: the
    text becomes the input and the result of [parseSQL] is stored as it is.
    An exception of [parseSQL] would leave the timer callback before
    [setParsedTables]. *)
Definition handleFileUpload (content : jsstring) (st : App) : App :=
  match parseSQL content with
  | Normal tables => mkApp content tables (viewMode st) (error st)
  | Throw => mkApp content (parsedTables st) (viewMode st) (error st)
  end.

(** ** Auxiliary functions of the proofs *)

(** What a run of one-character atoms leaves of [s], when it matches. *)
Fixpoint stripChars (ps : list (char → bool)) (s : jsstring) : option jsstring :=
  match ps with
  | [] => Some s
  | p :: ps' =>
      match s with
      | c :: s' => if p c then stripChars ps' s' else None
      | [] => None
      end
  end.

(** Every character of [s] is in the class [p]. *)
Definition allOf (p : char → bool) (s : jsstring) : Prop := Forall (λ c, p c = true) s.

(** [r] has a capture group on every path through it. *)
Fixpoint hasGroup (r : regex) : bool :=
  match r with
  | RSeq r1 r2 => hasGroup r1 || hasGroup r2
  | RGroup _ => true
  | _ => false
  end.

Definition skipBacktick (s : jsstring) : jsstring :=
  match s with
  | c :: t => if isChar "`" c then t else s
  | [] => []
  end.

(** The reading of [`?(\w+)`?] at the head of [s]: the group and what is
    left of [s]. *)
Definition quotedWord (s : jsstring) : option (jsstring * jsstring) :=
  let s := skipBacktick s in
  match takeWhile isWordChar s with
  | [] => None
  | g => Some (g, skipBacktick (dropWhile isWordChar s))
  end.

(** The reading of [/PRIMARY KEY\s*\(([^)]+)\)/i] at the head of [s]: the
    group and what is left of [s]. *)
Definition pkClause (s : jsstring) : option (jsstring * jsstring) :=
  match stripChars (isCI <$> lit "PRIMARY KEY") s with
  | Some s1 =>
      match dropWhile isWhiteSpace s1 with
      | c :: s3 =>
          if isCI (ch "(") c then
            match takeWhile (notCI ")") s3 with
            | [] => None
            | g =>
                match dropWhile (notCI ")") s3 with
                | d :: s4 => if isCI (ch ")") d then Some (g, s4) else None
                | [] => None
                end
            end
          else None
      | [] => None
      end
  | None => None
  end.


(** The reading of [/^(\w+(?:\([^)]+\))?)/] at the head of [s]: the group and
    what is left of [s]. *)
Definition columnType (s : jsstring) : option (jsstring * jsstring) :=
  match takeWhile isWordChar s with
  | [] => None
  | w =>
      let s1 := dropWhile isWordChar s in
      match s1 with
      | c :: s2 =>
          if isChar "(" c then
            match takeWhile (notChar ")") s2 with
            | [] => Some (w, s1)
            | a =>
                match dropWhile (notChar ")") s2 with
                | d :: s3 =>
                    if isChar ")" d then Some (w ++ c :: a ++ [d], s3) else Some (w, s1)
                | [] => Some (w, s1)
                end
            end
          else Some (w, s1)
      | [] => Some (w, s1)
      end
  end.

(** ** The words of the specification *)

(** A block starts with an identifier, optionally quoted, after optional
    white space. *)
Definition hasLeadingIdentifier (block : jsstring) : Prop :=
  ∃ ws q w rest, block = ws ++ q ++ w ++ rest
    ∧ allOf isWhiteSpace ws ∧ (q = [] ∨ q = [ch "`"])
    ∧ w ≠ [] ∧ allOf isWordChar w.

(** The nesting counter after reading [s], from the value [n]. *)
Definition countParen (n : Z) (c : char) : Z :=
  if c =? ch "(" then (n + 1)%Z else if c =? ch ")" then (n - 1)%Z else n.

Definition countParens (n : Z) (s : jsstring) : Z := foldl countParen n s.

(** [body] lies strictly between the first [(] of the block and the [)] at
    which the counter, 1 behind that [(], is at zero for the first time. *)
Definition bodyOf (block body afterBody : jsstring) : Prop :=
  ∃ pre, block = pre ++ ch "(" :: body ++ ch ")" :: afterBody
    ∧ (ch "(" ∉ pre)
    ∧ (∀ k, (k ≤ length body)%nat → countParens 1 (take k body) ≠ 0%Z)
    ∧ countParens 1 (body ++ [ch ")"]) = 0%Z.

Definition parensBalance (block : jsstring) : Prop :=
  ∃ body afterBody, bodyOf block body afterBody.

Definition malformed (block : jsstring) : Prop :=
  ¬ hasLeadingIdentifier block ∨ (ch "(" ∉ block) ∨ ¬ parensBalance block.

Definition wellFormed (block : jsstring) : Prop :=
  hasLeadingIdentifier block ∧ parensBalance block.

(** The table a block yields, if it yields one. *)
Definition tableOf (block : jsstring) : option TableDefinition :=
  match parseBlock block with
  | Normal (Some t) => Some t
  | _ => None
  end.

(** Two strings are equal up to the case of their ASCII letters. *)
Definition equalIgnoringCase (a b : jsstring) : Prop :=
  canonicalize <$> a = canonicalize <$> b.

(** A [PRIMARY KEY (...)] clause stands at the head of [s], read without
    regard to case, with [cols] between its parentheses. *)
Definition pkClauseAt (s cols : jsstring) : Prop :=
  ∃ kw ws rest, s = kw ++ ws ++ ch "(" :: cols ++ ch ")" :: rest
    ∧ equalIgnoringCase kw (lit "PRIMARY KEY")
    ∧ allOf isWhiteSpace ws ∧ cols ≠ [] ∧ (ch ")" ∉ cols).

(** [cols] is the column list of the first such clause of the body. *)
Definition firstPkClause (body cols : jsstring) : Prop :=
  ∃ i, pkClauseAt (drop i body) cols
    ∧ ∀ j cols', (j < i)%nat → ¬ pkClauseAt (drop j body) cols'.

Definition noPkClause (body : jsstring) : Prop :=
  ∀ i cols, ¬ pkClauseAt (drop i body) cols.

(** The tokens of a column list: split on commas, trimmed, the backticks and
    quotes removed. *)
Definition pkTokens (cols : jsstring) : list jsstring :=
  (λ s, removeAll (ch "'") (removeAll (ch "`") (trim s))) <$> splitChar (ch ",") cols.

(** The column a line yields, if it yields one. *)
Definition columnOf (primaryKeys : gset jsstring) (line : jsstring)
    : option ColumnDefinition :=
  match parseLine primaryKeys line with
  | Normal (Some c) => Some c
  | _ => None
  end.

Section InferenceWords.
Variable upperCase : jsstring → jsstring.

(** A column that may provide a key: it is a primary key, it is not in the
    exclusion set and it is not named ID, whatever the case. *)
Definition isKeyProvider (c : ColumnDefinition) : bool :=
  Col.isPrimaryKey c
  && negb (bool_decide (Col.name c ∈ IGNORED_FK_COLUMNS))
  && negb (bool_decide (upperCase (Col.name c) = lit "ID")).

(** Table [t] has a key provider named [n]. *)
Definition declaresKey (n : jsstring) (t : TableDefinition) : bool :=
  existsb (λ c, isKeyProvider c && bool_decide (Col.name c = n)) (Tbl.columns t).

(** [n] is CLIENT_NO and [t] is a table named cif_client that declares it. *)
Definition isClientMaster (n : jsstring) (t : TableDefinition) : bool :=
  bool_decide (n = lit "CLIENT_NO") && bool_decide (Tbl.name t = lit "cif_client")
  && declaresKey n t.

(** The owner of a column name: the table named cif_client for CLIENT_NO
    (the last one, should several carry that name), otherwise the first
    table of the schema that declares the name. *)
Definition keyOwner (tables : list TableDefinition) (n : jsstring) : option jsstring :=
  match last (List.filter (isClientMaster n) tables) with
  | Some t => Some (Tbl.id t)
  | None => Tbl.id <$> head (List.filter (declaresKey n) tables)
  end.

(** The edge of the pair [(t, c)] as the specification words it: [c] is
    not excluded, its name is a key of the mapping, the owning table is
    not [t]. *)
Definition statedEdge (pkMap : gmap jsstring jsstring) (t : TableDefinition)
    (c : ColumnDefinition) : option Edge :=
  if bool_decide (Col.name c ∈ IGNORED_FK_COLUMNS) then None
  else
    match pkMap !! Col.name c with
    | Some owner =>
        if bool_decide (owner ≠ Tbl.id t) then Some (mkEdge t c owner) else None
    | None => None
    end.

Definition statedEdges (tables : list TableDefinition) : list Edge :=
  tables ≫= λ t, omap (statedEdge (buildPkMap upperCase tables) t) (Tbl.columns t).

(** The same with the guard of the source on the owning table: its id is
    not the empty string. *)
Definition guardedEdge (pkMap : gmap jsstring jsstring) (t : TableDefinition)
    (c : ColumnDefinition) : option Edge :=
  if bool_decide (Col.name c ∈ IGNORED_FK_COLUMNS) then None
  else
    match pkMap !! Col.name c with
    | Some owner =>
        if bool_decide (owner ≠ [] ∧ owner ≠ Tbl.id t)
        then Some (mkEdge t c owner) else None
    | None => None
    end.

Definition guardedEdges (tables : list TableDefinition) : list Edge :=
  tables ≫= λ t, omap (guardedEdge (buildPkMap upperCase tables) t) (Tbl.columns t).
End InferenceWords.

(** [i] is in the entry of the Adjacency Index for [s]. *)
Definition adjacentTo (adjacency : gmap jsstring (gset jsstring)) (s i : jsstring) : Prop :=
  ∃ neighbours, adjacency !! s = Some neighbours ∧ i ∈ neighbours.

(** The highlight as the specification words it. *)
Definition statedHighlight (d : Diagram) : Prop :=
  (∀ n, n ∈ nodes d →
     (nodeDimmed n = true ↔
      ∃ s, selectedNodeId d = Some s ∧ Node.id n ≠ s
           ∧ ¬ adjacentTo (adjacency d) s (Node.id n)))
  ∧ (∀ e, e ∈ edges d →
       (edgeEmphasized e = true ↔
        ∃ s, selectedNodeId d = Some s ∧ (Edge.source e = s ∨ Edge.target e = s)))
  ∧ (∀ e, e ∈ edges d →
       (edgeDimmed e = true ↔ selectedNodeId d ≠ None ∧ edgeEmphasized e = false))
  ∧ (selectedNodeId d = None →
       (∀ n, n ∈ nodes d → nodeDimmed n = false)
       ∧ (∀ e, e ∈ edges d → edgeDimmed e = false)).

(** The same with the guards of the source on the selected id: the
    Adjacency Index is consulted, and an edge is compared with the selected
    id, only when that id is not the empty string. *)
Definition guardedHighlight (d : Diagram) : Prop :=
  (∀ n, n ∈ nodes d →
     (nodeDimmed n = true ↔
      ∃ s, selectedNodeId d = Some s ∧ Node.id n ≠ s
           ∧ ¬ (s ≠ [] ∧ adjacentTo (adjacency d) s (Node.id n))))
  ∧ (∀ e, e ∈ edges d →
       (edgeEmphasized e = true ↔
        ∃ s, selectedNodeId d = Some s ∧ s ≠ []
             ∧ (Edge.source e = s ∨ Edge.target e = s)))
  ∧ (∀ e, e ∈ edges d →
       (edgeDimmed e = true ↔ selectedNodeId d ≠ None ∧ edgeEmphasized e = false))
  ∧ (selectedNodeId d = None →
       (∀ n, n ∈ nodes d → nodeDimmed n = false)
       ∧ (∀ e, e ∈ edges d → edgeDimmed e = false)).

(** ** Sample inputs *)

(** A table with a column typed [decimal(17, 2)], one declaration a line. *)
Definition sqlDecimal : jsstring :=
  lit "CREATE TABLE `acct` (" ++ LF ::
  lit "  `AMT` decimal(17, 2) NOT NULL COMMENT 'amount'," ++ LF ::
  lit "  PRIMARY KEY (`AMT`) USING BTREE" ++ LF ::
  lit ") ENGINE = InnoDB COMMENT = 'accounts';".

Definition tableDecimal : TableDefinition :=
  Tbl.mk (lit "acct") (lit "acct") (lit "accounts")
    [Col.mk (lit "AMT") (lit "decimal(17, 2)") (lit "amount") true false].

(** The same two declarations on one line and on two lines. *)
Definition sqlOneLine : jsstring := lit "CREATE TABLE t (a int, b int)".

Definition sqlTwoLines : jsstring :=
  lit "CREATE TABLE t (" ++ LF :: lit "a int," ++ LF :: lit "b int" ++ LF :: lit ")".

Definition columnA : ColumnDefinition := Col.mk (lit "a") (lit "int") [] false true.
Definition columnB : ColumnDefinition := Col.mk (lit "b") (lit "int") [] false true.

(** A dump with a block whose parentheses never balance, a block without
    parenthesis and a well-formed block. *)
Definition sqlBroken : jsstring :=
  lit "CREATE TABLE bad (x int; CREATE TABLE `u` LIKE t; CREATE TABLE good (y int)".

(** Two tables that share a key name in either order, the second of them
    named cif_client. *)
Definition tableClientDetail : TableDefinition :=
  Tbl.mk (lit "cif_account") (lit "cif_account") []
    [Col.mk (lit "CLIENT_NO") (lit "varchar(20)") [] true false].

Definition tableClientMaster : TableDefinition :=
  Tbl.mk (lit "cif_client") (lit "cif_client") []
    [Col.mk (lit "CLIENT_NO") (lit "varchar(20)") [] true false].

(** Scenario B: [t1(A primary key)] and [t2(A int)]. *)
Definition tableT1 : TableDefinition :=
  Tbl.mk (lit "t1") (lit "t1") [] [Col.mk (lit "A") (lit "int") [] true false].

Definition tableT2 : TableDefinition :=
  Tbl.mk (lit "t2") (lit "t2") [] [Col.mk (lit "A") (lit "int") [] false true].

(** A table whose id is the empty string and that owns the key [A]. *)
Definition tableNoId : TableDefinition :=
  Tbl.mk [] (lit "anonymous") [] [Col.mk (lit "A") (lit "int") [] true false].

(** A table that owns two keys and a table that refers to both. *)
Definition tableTwoKeys : TableDefinition :=
  Tbl.mk (lit "t1") (lit "t1") []
    [Col.mk (lit "A") (lit "int") [] true false; Col.mk (lit "B") (lit "int") [] true false].

Definition tableTwoRefs : TableDefinition :=
  Tbl.mk (lit "t2") (lit "t2") []
    [Col.mk (lit "A") (lit "int") [] false true; Col.mk (lit "B") (lit "int") [] false true].

(** An excluded column that is a primary key of one table and a column of
    another. *)
Definition tableCompanyKey : TableDefinition :=
  Tbl.mk (lit "t1") (lit "t1") [] [Col.mk (lit "COMPANY") (lit "int") [] true false].

Definition tableCompanyRef : TableDefinition :=
  Tbl.mk (lit "t2") (lit "t2") [] [Col.mk (lit "COMPANY") (lit "int") [] false true].

(** Scenario E: the edges [t2 → t1] and [t3 → t4]. *)
Definition tableT4 : TableDefinition :=
  Tbl.mk (lit "t4") (lit "t4") [] [Col.mk (lit "B") (lit "int") [] true false].

Definition tableT3 : TableDefinition :=
  Tbl.mk (lit "t3") (lit "t3") [] [Col.mk (lit "B") (lit "int") [] false true].

Definition nodeT1 : Node :=
  Node.mk (lit "t1") (lit "t1") [] (Tbl.columns tableT1) (VBool false) (VBool false).

Definition diagramE : Diagram :=
  onNodeClick nodeT1 (mount toUpperCase [tableT1; tableT2; tableT4; tableT3]).

(** A table with the empty string as id that refers to [t1], and the
    diagram in which its node is selected. *)
Definition tableNoIdRef : TableDefinition :=
  Tbl.mk [] (lit "anonymous") [] [Col.mk (lit "A") (lit "int") [] false true].

Definition nodeNoId : Node :=
  Node.mk [] (lit "anonymous") [] (Tbl.columns tableNoIdRef) (VBool false) (VBool false).

Definition diagramNoId : Diagram :=
  onNodeClick nodeNoId (mount toUpperCase [tableT1; tableNoIdRef]).

(** The application with the schema of [sqlOneLine] on display, and a text
    without any [CREATE TABLE]. *)
Definition appLoaded : App := handleParse (mkApp sqlOneLine [] SQL_INPUT None).

Definition sqlNoTable : jsstring := lit "SELECT 1;".

(** The blocks of the sample dumps. *)
Definition blockDecimal : jsstring :=
  lit " `acct` (" ++ LF ::
  lit "  `AMT` decimal(17, 2) NOT NULL COMMENT 'amount'," ++ LF ::
  lit "  PRIMARY KEY (`AMT`) USING BTREE" ++ LF ::
  lit ") ENGINE = InnoDB COMMENT = 'accounts';".

Definition blockBad : jsstring := lit " bad (x int; ".
Definition blockGood : jsstring := lit " good (y int)".

Definition edgeT2T1 : Edge :=
  mkEdge tableT2 (Col.mk (lit "A") (lit "int") [] false true) (lit "t1").

(** ** Further functions of the source *)

(** The click on [Reload Default Data]: [setSqlInput(INITIAL_SQL)], then
    [handleParse()], the function of the render on display, which reads the
    [sqlInput] of that render.  The text of [INITIAL_SQL] is a parameter. *)
Definition reloadDefaultData (INITIAL_SQL : jsstring) (st : App) : App :=
  let next := handleParse st in
  mkApp INITIAL_SQL (parsedTables next) (viewMode next) (error next).

(** [getLayoutedNodes]: the number of columns of the grid for [n] tables,
    [Math.ceil(Math.sqrt(n)) + 2], and the position of the node at [index].
    The square root of the source is that of the floating-point numbers;
    rounded up it is the integer square root rounded up for every length an
    array can have. *)
Definition layoutColumns (n : nat) : Z := (Z.sqrt_up (Z.of_nat n) + 2)%Z.

Definition layoutPosition (n index : nat) : Z * Z :=
  let columns := layoutColumns n in
  ((Z.of_nat index mod columns) * 400, (Z.of_nat index / columns) * 400)%Z.

(** [TableNode]: the ids of the handles of a node, a target and a source
    handle for every column. *)
Definition handleIds (n : Node) : list jsstring :=
  Node.columns n ≫= λ col, [Col.name col ++ lit "-target"; Col.name col ++ lit "-source"].

(** The positions of the nodes of [getLayoutedNodes], in the order of the
    tables. *)
Definition nodePositions (tables : list TableDefinition) : list (Z * Z) :=
  imap (λ index _, layoutPosition (length tables) index) tables.

(** ** Further auxiliary functions of the proofs *)

(** The reading of ['([^']+)'] at the head of [s]: the group and what is
    left of [s]. *)
Definition quoted (s : jsstring) : option (jsstring * jsstring) :=
  match s with
  | c :: s3 =>
      if isCI (ch "'") c then
        match takeWhile (notCI "'") s3 with
        | [] => None
        | g =>
            match dropWhile (notCI "'") s3 with
            | d :: s4 => if isCI (ch "'") d then Some (g, s4) else None
            | [] => None
            end
        end
      else None
  | [] => None
  end.

(** The reading of [/COMMENT\s+'([^']+)'/i] at the head of [s]. *)
Definition columnComment (s : jsstring) : option (jsstring * jsstring) :=
  match stripChars (isCI <$> lit "COMMENT") s with
  | Some (c :: s2) => if isWhiteSpace c then quoted (dropWhile isWhiteSpace s2) else None
  | _ => None
  end.

(** The reading of [/COMMENT\s*=\s*'([^']+)'/i] at the head of [s]. *)
Definition tableComment (s : jsstring) : option (jsstring * jsstring) :=
  match stripChars (isCI <$> lit "COMMENT") s with
  | Some s1 =>
      match dropWhile isWhiteSpace s1 with
      | c :: s2 => if isCI (ch "=") c then quoted (dropWhile isWhiteSpace s2) else None
      | [] => None
      end
  | None => None
  end.

(** [if (!map.has(k)) map.set(k, new Set())] *)
Definition ensureKey (k : jsstring) (map : gmap jsstring (gset jsstring))
    : gmap jsstring (gset jsstring) :=
  if bool_decide (is_Some (map !! k)) then map else <[k := ∅]> map.

(** A backtick or a single quote. *)
Definition isQuoteChar (c : char) : bool := (c =? ch "`") || (c =? ch "'").

(** ** The words of the further properties *)

(** [CREATE TABLE], in any letter case and with white space between the two
    words, stands at the head of [s]. *)
Definition createTableAt (s : jsstring) : Prop :=
  ∃ kw1 ws kw2 rest, s = kw1 ++ ws ++ kw2 ++ rest
    ∧ equalIgnoringCase kw1 (lit "CREATE")
    ∧ ws ≠ [] ∧ allOf isWhiteSpace ws
    ∧ equalIgnoringCase kw2 (lit "TABLE").

Definition mentionsCreateTable (sql : jsstring) : Prop :=
  ∃ i, createTableAt (drop i sql).

(** The shape of a type token: the default, or a word, or a word with a
    parenthesized argument. *)
Definition typeShape (ty : jsstring) : Prop :=
  ty = lit "unknown"
  ∨ ∃ w, w ≠ [] ∧ allOf isWordChar w
      ∧ (ty = w ∨ ∃ a, a ≠ [] ∧ (ch ")" ∉ a) ∧ ty = w ++ ch "(" :: a ++ [ch ")"]).

(** [s] contains [p] up to the case of the ASCII letters. *)
Definition containsIgnoringCase (s p : jsstring) : Prop :=
  ∃ pre kw post, s = pre ++ kw ++ post ∧ equalIgnoringCase kw p.

(** [s] does not go on with a word character. *)
Definition wordEnds (s : jsstring) : Prop :=
  ∀ c r, s = c :: r → isWordChar c = false.

(** A line declares the column [name]: trimmed, it starts with none of the
    skipped prefixes, and at its head stands the identifier [name], behind an
    optional backtick and taken to its end, which is no keyword in any letter
    case. *)
Definition declarationLine (line name : jsstring) : Prop :=
  (∀ p, p ∈ skippedPrefixes → ¬ ∃ rest, trim line = p ++ rest)
  ∧ (∃ q rest, trim line = q ++ name ++ rest ∧ (q = [] ∨ q = [ch "`"]) ∧ wordEnds rest)
  ∧ name ≠ [] ∧ allOf isWordChar name
  ∧ (toUpperCase name ∉ keywordNames).

(** A column comment clause stands at the head of [s]: the word COMMENT in
    any letter case, white space, and the non-empty [text] between single
    quotes. *)
Definition columnCommentAt (s text : jsstring) : Prop :=
  ∃ kw ws rest, s = kw ++ ws ++ ch "'" :: text ++ ch "'" :: rest
    ∧ equalIgnoringCase kw (lit "COMMENT") ∧ ws ≠ [] ∧ allOf isWhiteSpace ws
    ∧ text ≠ [] ∧ (ch "'" ∉ text).

(** A table comment clause stands at the head of [s]: as for a column, with
    an equals sign before the quote and optional white space around it. *)
Definition tableCommentAt (s text : jsstring) : Prop :=
  ∃ kw ws1 ws2 rest,
    s = kw ++ ws1 ++ ch "=" :: ws2 ++ ch "'" :: text ++ ch "'" :: rest
    ∧ equalIgnoringCase kw (lit "COMMENT")
    ∧ allOf isWhiteSpace ws1 ∧ allOf isWhiteSpace ws2
    ∧ text ≠ [] ∧ (ch "'" ∉ text).

(** [text] is the text of the first clause of [s], and [s] has no clause. *)
Definition firstClause (clauseAt : jsstring → jsstring → Prop) (s text : jsstring) : Prop :=
  ∃ i, clauseAt (drop i s) text
    ∧ ∀ j text', (j < i)%nat → ¬ clauseAt (drop j s) text'.

Definition noClause (clauseAt : jsstring → jsstring → Prop) (s : jsstring) : Prop :=
  ∀ i text, ¬ clauseAt (drop i s) text.

(** An entry of a column list that names [n]: the word [n] between optional
    quote characters and optional white space. *)
Definition entryOf (d n : jsstring) : Prop :=
  ∃ ws1 q1 q2 ws2, d = ws1 ++ q1 ++ n ++ q2 ++ ws2
    ∧ allOf isWhiteSpace ws1 ∧ allOf isWhiteSpace ws2
    ∧ allOf isQuoteChar q1 ∧ allOf isQuoteChar q2
    ∧ allOf isWordChar n.

(** [s] is an end of an edge of [es], and an edge of [es] joins [s] and [i]. *)
Definition endpointOf (es : list Edge) (s : jsstring) : Prop :=
  ∃ e, e ∈ es ∧ (Edge.source e = s ∨ Edge.target e = s).

Definition linked (es : list Edge) (s i : jsstring) : Prop :=
  ∃ e, e ∈ es ∧ ((Edge.source e = s ∧ Edge.target e = i)
                 ∨ (Edge.target e = s ∧ Edge.source e = i)).

(** No id of the schema, and no end of an edge, contains the bar that the
    fingerprint puts between the ends of an edge. *)
Definition plainIds (tables : list TableDefinition) : Prop :=
  ∀ t, t ∈ tables → (ch "|" ∉ Tbl.id t) ∧ Tbl.id t ≠ [].

Definition plainEnds (es : list Edge) : Prop :=
  ∀ e, e ∈ es → (ch "|" ∉ Edge.source e) ∧ (ch "|" ∉ Edge.target e).

(** The text of an edge in the fingerprint: its ends, without a bar, on
    either side of one. *)
Definition edgeText (x : jsstring) : Prop :=
  ∃ a b, x = a ++ ch "|" :: b ∧ (ch "|" ∉ a) ∧ (ch "|" ∉ b).

(** The schema is a result of the parser. *)
Definition parsed (tables : list TableDefinition) : Prop :=
  ∃ sql, parseSQL sql = Normal tables.

(** The states the diagram reaches by mounting, changes of the schema and
    clicks on a node or on the pane, when every schema it is given satisfies
    [ok]. *)
Inductive reachableWith (upperCase : jsstring → jsstring)
    (ok : list TableDefinition → Prop) : Diagram → Prop :=
| reachWith_mount tables :
    ok tables → reachableWith upperCase ok (mount upperCase tables)
| reachWith_tables tables d :
    ok tables → reachableWith upperCase ok d →
    reachableWith upperCase ok (tablesChanged upperCase tables d)
| reachWith_node node d :
    reachableWith upperCase ok d → node ∈ nodes d →
    reachableWith upperCase ok (onNodeClick node d)
| reachWith_pane d :
    reachableWith upperCase ok d → reachableWith upperCase ok (onPaneClick d).

(** The memoized values are those of the edges on display. *)
Definition memoCurrent (d : Diagram) : Prop :=
  topologyFingerprint d = topologyFingerprintOf (edges d)
  ∧ adjacency d = adjacencyOf (edges d).

(** The memoized values are those of some edge list without a bar in its
    ends: the one of the render that computed them. *)
Definition memoFor (d : Diagram) : Prop :=
  ∃ es, plainEnds es
    ∧ topologyFingerprint d = topologyFingerprintOf es
    ∧ adjacency d = adjacencyOf es.

(** The selection is shown: the nodes marked as selected are those with the
    selected id. *)
Definition selectionShown (d : Diagram) : Prop :=
  ∀ n, n ∈ nodes d → truthy (Node.selected n) = isSelectedId (selectedNodeId d) (Node.id n).

(** What a node and an edge are, apart from how they are drawn. *)
Definition nodeData (n : Node)
    : jsstring * jsstring * jsstring * list ColumnDefinition :=
  (Node.id n, Node.label n, Node.comment n, Node.columns n).

Definition edgeData (e : Edge)
    : jsstring * jsstring * jsstring * jsstring * jsstring :=
  (Edge.id e, Edge.source e, Edge.target e, Edge.sourceHandle e, Edge.targetHandle e).

(** ** A further sample input *)

(** A dump of two tables, the second of which refers to the key of the
    first. *)
Definition sqlLinked : jsstring :=
  lit "CREATE TABLE t1 (A int NOT NULL, PRIMARY KEY (A)); CREATE TABLE t2 (A int)".

(** A dump of the four tables of Scenario E, in the order of that scenario. *)
Definition sqlScenarioE : jsstring :=
  lit "CREATE TABLE t1 (A int NOT NULL, PRIMARY KEY (A)); CREATE TABLE t2 (A int); "
  ++ lit "CREATE TABLE t4 (B int NOT NULL, PRIMARY KEY (B)); CREATE TABLE t3 (B int)".

(** * Properties *)

(** ** Character classes *)

Ltac unfold_classes :=
  unfold isWordChar, isWhiteSpace, isCI, isChar, notChar, canonicalize, between in *;
  repeat match goal with
  | |- context [ch ?a] => let v := eval vm_compute in (ch a) in change (ch a) with v
  | H : context [ch ?a] |- _ =>
      let v := eval vm_compute in (ch a) in change (ch a) with v in H
  end.

Lemma bool_false_not b : b = false ↔ ¬ (b = true).
Proof. destruct b; split; congruence. Qed.

Ltac class_tac :=
  unfold_classes;
  rewrite ?N.eqb_eq, ?bool_false_not in *;
  rewrite ?negb_true_iff, ?bool_false_not in *;
  rewrite ?orb_true_iff, ?andb_true_iff, ?N.leb_le, ?N.eqb_eq in *;
  try lia.

Lemma word_not_space c : isWordChar c = true → isWhiteSpace c = false.
Proof. class_tac. Qed.

Lemma word_not_backtick c : isWordChar c = true → isChar "`" c = false.
Proof. class_tac. Qed.

Lemma space_not_backtick c : isWhiteSpace c = true → isChar "`" c = false.
Proof. class_tac. Qed.

Lemma word_not_lparen c : isWordChar c = true → isChar "(" c = false.
Proof. class_tac. Qed.

Lemma canonicalize_spec c :
  (97 ≤ c ≤ 122 ∧ canonicalize c = c - 32) ∨ (¬ (97 ≤ c ≤ 122) ∧ canonicalize c = c).
Proof.
  unfold canonicalize, between.
  destruct (N.leb_spec 97 c), (N.leb_spec c 122); cbn; lia.
Qed.

(** Under the [i] flag a pattern character that is no letter stands for
    itself only. *)
Lemma isCI_nonletter p c :
  p < 65 ∨ 90 < p < 97 ∨ 122 < p → isCI p c = (c =? p).
Proof.
  intros Hp. unfold isCI.
  destruct (canonicalize_spec c) as [[? ->]|[? ->]],
           (canonicalize_spec p) as [[? ->]|[? ->]];
    destruct (N.eqb_spec c p), (N.eqb_spec (c - 32) p), (N.eqb_spec (c - 32) (p - 32)),
             (N.eqb_spec c (p - 32)); try reflexivity; lia.
Qed.

Lemma isCI_lparen c : isCI (ch "(") c = (c =? ch "(").
Proof. apply isCI_nonletter. vm_compute. intuition congruence. Qed.

Lemma isCI_rparen c : isCI (ch ")") c = (c =? ch ")").
Proof. apply isCI_nonletter. vm_compute. intuition congruence. Qed.

Lemma isCI_quote c : isCI (ch "'") c = (c =? ch "'").
Proof. apply isCI_nonletter. vm_compute. intuition congruence. Qed.

Lemma space_not_lparen c : isWhiteSpace c = true → (c =? ch "(") = false.
Proof. class_tac. Qed.

Lemma isChar_eq a c : isChar a c = true ↔ c = ch a.
Proof. unfold isChar. apply N.eqb_eq. Qed.

(** ** Runs of a class *)

Lemma takeWhile_dropWhile p s : takeWhile p s ++ dropWhile p s = s.
Proof. induction s as [|c s IH]; cbn; [done|]. destruct (p c); cbn; congruence. Qed.

Lemma takeWhile_all p s : allOf p (takeWhile p s).
Proof.
  induction s as [|c s IH]; cbn; [constructor|].
  destruct (p c) eqn:E; constructor; auto.
Qed.

Lemma dropWhile_head p s c s' : dropWhile p s = c :: s' → p c = false.
Proof.
  induction s as [|d s IH]; cbn; [done|].
  destruct (p d) eqn:E; [auto|]. intros [= <- <-]. done.
Qed.

Lemma dropWhile_app p w s : allOf p w → dropWhile p (w ++ s) = dropWhile p s.
Proof. induction 1 as [|c w Hc _ IH]; cbn; [done|]. by rewrite Hc. Qed.

Lemma takeWhile_app p w s : allOf p w → takeWhile p (w ++ s) = w ++ takeWhile p s.
Proof. induction 1 as [|c w Hc _ IH]; cbn; [done|]. by rewrite Hc, IH. Qed.

Lemma dropWhile_stop p c s : p c = false → dropWhile p (c :: s) = c :: s.
Proof. cbn. by intros ->. Qed.

Lemma takeWhile_stop p c s : p c = false → takeWhile p (c :: s) = [].
Proof. cbn. by intros ->. Qed.

Lemma dropWhile_length p s : (length (dropWhile p s) ≤ length s)%nat.
Proof. induction s as [|c s IH]; cbn; [done|]. destruct (p c); cbn; lia. Qed.

Lemma take_takeWhile p s :
  take (length s - length (dropWhile p s)) s = takeWhile p s.
Proof.
  rewrite <- (takeWhile_dropWhile p s) at 1 3.
  rewrite length_app, Nat.add_sub. by rewrite take_app_length.
Qed.

Lemma take_prefix (w s : jsstring) : take (length (w ++ s) - length s) (w ++ s) = w.
Proof. rewrite length_app, Nat.add_sub. by rewrite take_app_length. Qed.

(** ** The matcher *)

Section MatcherFacts.
Context {R : Type}.
Implicit Types (k : jsstring → option R) (K : jsstring → option jsstring → option R).

(** A greedy star stops at the end of the run when the continuation
    succeeds there. *)
Lemma star_greedy p s k :
  is_Some (k (dropWhile p s)) → star p s k = k (dropWhile p s).
Proof.
  induction s as [|c s IH]; cbn; [done|].
  destruct (p c); [|done]. intros H. rewrite (IH H).
  by destruct H as [r ->].
Qed.

(** It stops there as well when the continuation cannot start with a
    character of the class: giving characters back is of no use. *)
Lemma star_disjoint p s k :
  (∀ c s', p c = true → k (c :: s') = None) →
  star p s k = k (dropWhile p s).
Proof.
  intros Hk. induction s as [|c s IH]; cbn; [done|].
  destruct (p c) eqn:E; [|done]. rewrite IH.
  destruct (k (dropWhile p s)); [done|]. by apply Hk.
Qed.

Lemma star_Some p s k r : star p s k = Some r → ∃ s', k s' = Some r.
Proof.
  induction s as [|c s IH]; cbn; [eauto|].
  destruct (p c); [|eauto].
  destruct (star p s k) eqn:E; [intros [= <-]; eauto|eauto].
Qed.

Lemma exec_RChars ps s cap K :
  exec (RChars ps) s cap K =
    match stripChars ps s with Some s' => K s' cap | None => None end.
Proof.
  unfold RChars. revert s. induction ps as [|p ps IH]; intros s; cbn; [done|].
  destruct s as [|c s]; [done|]. destruct (p c); [apply IH|done].
Qed.

Lemma exec_RLitCI str s cap K :
  exec (RLitCI str) s cap K =
    match stripChars (isCI <$> lit str) s with Some s' => K s' cap | None => None end.
Proof. apply exec_RChars. Qed.

Lemma exec_RSeq r1 r2 s cap K :
  exec (RSeq r1 r2) s cap K = exec r1 s cap (λ s' cap', exec r2 s' cap' K).
Proof. done. Qed.

Lemma exec_RStar_greedy p s cap K :
  is_Some (K (dropWhile p s) cap) → exec (RStar p) s cap K = K (dropWhile p s) cap.
Proof. intros H. cbn. by rewrite star_greedy. Qed.

Lemma exec_RStar_disjoint p s cap K :
  (∀ c s', p c = true → K (c :: s') cap = None) →
  exec (RStar p) s cap K = K (dropWhile p s) cap.
Proof. intros H. cbn. by rewrite star_disjoint. Qed.

(** [(p+)] as the capture group: the group is the whole run. *)
Lemma exec_group_plus_disjoint p s cap K :
  (∀ c s' cap', p c = true → K (c :: s') cap' = None) →
  exec (RGroup (RPlus p)) s cap K =
    match takeWhile p s with
    | [] => None
    | g => K (dropWhile p s) (Some g)
    end.
Proof.
  intros H. destruct s as [|c s]; cbn; [done|].
  destruct (p c) eqn:E; [|done].
  rewrite star_disjoint by (intros; by apply H).
  do 2 f_equal. pose proof (take_takeWhile p (c :: s)) as T. cbn in T. by rewrite E in T.
Qed.

Lemma exec_group_plus_greedy p s cap K :
  (∀ g, is_Some (K (dropWhile p s) g)) →
  exec (RGroup (RPlus p)) s cap K =
    match takeWhile p s with
    | [] => None
    | g => K (dropWhile p s) (Some g)
    end.
Proof.
  intros H. destruct s as [|c s]; cbn; [done|].
  destruct (p c) eqn:E; [|done].
  cbn in H. rewrite E in H.
  rewrite star_greedy by apply H.
  do 2 f_equal. pose proof (take_takeWhile p (c :: s)) as T. cbn in T. by rewrite E in T.
Qed.

(** A pattern with a group on every path never leaves the capture
    undefined. *)
Lemma exec_capture r : ∀ s cap K x,
  exec r s cap K = Some x →
  ∃ s' cap', K s' cap' = Some x
    ∧ (hasGroup r = true → is_Some cap') ∧ (is_Some cap → is_Some cap').
Proof.
  induction r as [|p|r1 IH1 r2 IH2|r1 IH1|p|r1 IH1]; intros s cap K x; cbn.
  - intros H. exists s, cap. split; [done|]. split; [done|auto].
  - destruct s as [|c s]; [done|]. destruct (p c); [|done].
    intros H. exists s, cap. split; [done|]. split; [done|auto].
  - intros H. apply IH1 in H as (s1 & cap1 & H & Hg1 & Hc1).
    apply IH2 in H as (s2 & cap2 & H & Hg2 & Hc2).
    exists s2, cap2. split; [done|]. rewrite orb_true_iff. split; [intros [?|?]; auto|auto].
  - destruct (exec r1 s cap K) eqn:E.
    + intros [= <-]. apply IH1 in E as (s1 & cap1 & H & _ & Hc1).
      exists s1, cap1. split; [done|]. split; [done|auto].
    + intros H. exists s, cap. split; [done|]. split; [done|auto].
  - intros H. apply star_Some in H as [s' H]. exists s', cap.
    split; [done|]. split; [done|auto].
  - intros H. apply IH1 in H as (s1 & cap1 & H & _).
    eexists _, _. split; [exact H|]. split; eauto.
Qed.
End MatcherFacts.

Lemma matchAt_capture r s m :
  hasGroup r = true → matchAt r s = Some m → is_Some (m1 m).
Proof.
  intros Hg H. apply exec_capture in H as (s' & cap' & [= <-] & Hc & _). cbn. auto.
Qed.

Lemma search_Some r s m :
  search r s = Some m → ∃ i, matchAt r (drop i s) = Some m
                          ∧ ∀ j, (j < i)%nat → matchAt r (drop j s) = None.
Proof.
  induction s as [|c s IH]; cbn.
  - destruct (matchAt r []) eqn:E; [|done]. intros [= <-]. exists 0%nat. split; [done|lia].
  - destruct (matchAt r (c :: s)) eqn:E.
    + intros [= <-]. exists 0%nat. split; [done|lia].
    + intros H. apply IH in H as (i & H & Hlt). exists (S i). split; [done|].
      intros [|j] ?; [done|]. cbn. apply Hlt. lia.
Qed.

Lemma search_None r s : search r s = None → ∀ i, matchAt r (drop i s) = None.
Proof.
  induction s as [|c s IH]; cbn.
  - destruct (matchAt r []) eqn:E; [done|]. intros _ i. by rewrite drop_nil.
  - destruct (matchAt r (c :: s)) eqn:E; [done|].
    intros H [|i]; [done|]. cbn. by apply IH.
Qed.

Lemma search_first r s i m :
  matchAt r (drop i s) = Some m →
  (∀ j, (j < i)%nat → matchAt r (drop j s) = None) →
  search r s = Some m.
Proof.
  revert s. induction i as [|i IH]; intros s H Hlt.
  - rewrite drop_0 in H. destruct s; cbn; by rewrite H.
  - destruct s as [|c s].
    + cbn in H. cbn. by rewrite H.
    + cbn. specialize (Hlt 0%nat ltac:(lia)) as H0. cbn in H0. rewrite H0.
      apply IH; [done|]. intros j Hj. apply (Hlt (S j)). lia.
Qed.

Lemma search_capture r s m :
  hasGroup r = true → search r s = Some m → is_Some (m1 m).
Proof.
  intros Hg H. apply search_Some in H as (i & H & _). by eapply matchAt_capture.
Qed.

(** ** Normal completion of the parser *)

Lemma group1_matchAt r s m :
  hasGroup r = true → matchAt r s = Some m → ∃ g, m1 m = Some g ∧ group1 m = Normal g.
Proof.
  intros Hg H. destruct (matchAt_capture r s m Hg H) as [g Hm].
  exists g. unfold group1. by rewrite Hm.
Qed.

Lemma group1_search r s m :
  hasGroup r = true → search r s = Some m → ∃ g, m1 m = Some g ∧ group1 m = Normal g.
Proof.
  intros Hg H. destruct (search_capture r s m Hg H) as [g Hm].
  exists g. unfold group1. by rewrite Hm.
Qed.

Lemma bind_Normal {A B} (f : A → completion B) (a : A) : (Normal a ≫= f) = f a.
Proof. done. Qed.

Lemma primaryKeysOf_normal body : ∃ pks, primaryKeysOf body = Normal pks.
Proof.
  unfold primaryKeysOf. destruct (search rePrimaryKey body) as [m|] eqn:E; [|eauto].
  apply group1_search in E as (g & _ & ->); [|done]. eauto.
Qed.

Lemma parseLine_normal pks line : ∃ c, parseLine pks line = Normal c.
Proof.
  unfold parseLine.
  destruct (_ || _); [eauto|].
  destruct (matchAt reColumnName (trim line)) as [m|] eqn:E; [|eauto].
  apply group1_matchAt in E as (g & _ & ->); [|done]. rewrite bind_Normal.
  destruct (bool_decide _); [eauto|].
  destruct (matchAt reColumnType _) as [mt|] eqn:Et.
  - apply group1_matchAt in Et as (gt & _ & ->); [|done]. rewrite bind_Normal.
    destruct (search reColumnComment (trim line)) as [mc|] eqn:Ec.
    + apply group1_search in Ec as (gc & _ & ->); [|done]. eauto.
    + eauto.
  - destruct (search reColumnComment (trim line)) as [mc|] eqn:Ec.
    + apply group1_search in Ec as (gc & _ & ->); [|done]. eauto.
    + eauto.
Qed.

Lemma parseLines_normal pks rawLines : ∀ columns,
  ∃ cs, parseLines pks rawLines columns = Normal cs.
Proof.
  induction rawLines as [|l ls IH]; intros columns; cbn; [eauto|].
  destruct (parseLine_normal pks l) as [c ->]. rewrite bind_Normal. apply IH.
Qed.

Lemma parseBlock_normal block : ∃ t, parseBlock block = Normal t.
Proof.
  unfold parseBlock.
  destruct (matchAt reTableName block) as [m|] eqn:E; [|eauto].
  apply group1_matchAt in E as (g & _ & ->); [|done]. rewrite bind_Normal.
  destruct (extractBody block) as [[body afterBody]|]; [|eauto].
  assert (∃ tc, match search reTableComment afterBody with
                | Some tableCommentMatch => group1 tableCommentMatch
                | None => mret []
                end = Normal tc) as [tc ->].
  { destruct (search reTableComment afterBody) as [mc|] eqn:Ec; [|eauto].
    apply group1_search in Ec as (gc & _ & ->); [|done]. eauto. }
  rewrite bind_Normal.
  destruct (primaryKeysOf_normal body) as [pks ->]. rewrite bind_Normal.
  destruct (parseLines_normal pks (splitChar LF body) []) as [cs ->].
  eauto.
Qed.

Lemma parseBlocks_normal blocks : ∀ tables,
  ∃ ts, parseBlocks blocks tables = Normal ts.
Proof.
  induction blocks as [|b bs IH]; intros tables; cbn; [eauto|].
  destruct (parseBlock_normal b) as [t ->]. rewrite bind_Normal. apply IH.
Qed.

(** C9: for every input string [parseSQL] completes normally with an array
    of tables; it never throws, so [handleParse] never takes its [catch]
    branch: it ends with no error or with the message of the empty result. *)
Theorem parseSQL_never_throws (sql : jsstring) :
  (∃ tables, parseSQL sql = Normal tables)
  ∧ ∀ tables mode err,
      let st := handleParse (mkApp sql tables mode err) in
      error st = None ∨ error st = Some (lit "No tables found in the provided SQL.").
Proof.
  destruct (parseBlocks_normal (tableBlocks sql) []) as [ts H].
  split; [by exists ts|].
  intros tables mode err. unfold handleParse, handleParseWith, parseSQL.
  cbn [sqlInput]. rewrite H. destruct (bool_decide _); cbn; auto.
Qed.

(** ** The name patterns *)

Lemma skipBacktick_word c s : isWordChar c = true → skipBacktick (c :: s) = c :: s.
Proof. intros H. cbn. by rewrite word_not_backtick. Qed.

Section NamePattern.
Context {R : Type}.

(** [`?(\w+)`?] before a continuation that always succeeds. *)
Lemma exec_quotedWord s cap (K : jsstring → option jsstring → option R) :
  (∀ s' g, is_Some (K s' g)) →
  exec (RSeqs [ROpt (RChar (isChar "`")); RGroup (RPlus isWordChar);
               ROpt (RChar (isChar "`"))]) s cap K =
    match quotedWord s with
    | Some (g, rest) => K rest (Some g)
    | None => None
    end.
Proof.
  intros HK.
  set (tail := RSeqs [RGroup (RPlus isWordChar); ROpt (RChar (isChar "`"))]).
  assert (Htail : ∀ s cap,
    exec tail s cap K =
      match takeWhile isWordChar s with
      | [] => None
      | g => K (skipBacktick (dropWhile isWordChar s)) (Some g)
      end).
  { intros s0 cap0. unfold tail. cbn [RSeqs]. rewrite exec_RSeq.
    assert (Hend : ∀ s' g, exec (RSeq (ROpt (RChar (isChar "`"))) REmpty) s' g K
                           = K (skipBacktick s') g).
    { intros s' g. destruct s' as [|c s']; cbn; [done|].
      destruct (isChar "`" c); [|done]. by destruct (HK s' g) as [x ->]. }
    rewrite exec_group_plus_greedy.
    - destruct (takeWhile isWordChar s0); [done|]. apply Hend.
    - intros g. rewrite Hend. apply HK. }
  change (RSeqs _) with (RSeq (ROpt (RChar (isChar "`"))) tail).
  rewrite exec_RSeq. cbn [exec]. unfold quotedWord.
  destruct s as [|c s]; [rewrite Htail; by cbn|].
  cbn [skipBacktick]. destruct (isChar "`" c) eqn:Ec.
  - rewrite !Htail. destruct (takeWhile isWordChar s) eqn:Et.
    + cbn. destruct (isWordChar c) eqn:Ew; [|done].
      apply word_not_backtick in Ew. congruence.
    + by destruct (HK (skipBacktick (dropWhile isWordChar s)) (Some (n :: l))) as [x ->].
  - rewrite !Htail. by destruct (takeWhile isWordChar (c :: s)).
Qed.
End NamePattern.

Lemma matchAt_reColumnName s :
  matchAt reColumnName s =
    match quotedWord s with
    | Some (g, rest) => Some (mkMatch (take (length s - length rest) s) (Some g) rest)
    | None => None
    end.
Proof. unfold matchAt, reColumnName. rewrite exec_quotedWord; [done|eauto]. Qed.

Lemma quotedWord_space c s : isWhiteSpace c = true → quotedWord (c :: s) = None.
Proof.
  intros H. unfold quotedWord. cbn [skipBacktick]. rewrite space_not_backtick by done.
  cbn. destruct (isWordChar c) eqn:E; [|done]. apply word_not_space in E. congruence.
Qed.

Lemma matchAt_reTableName block :
  matchAt reTableName block =
    match quotedWord (dropWhile isWhiteSpace block) with
    | Some (g, rest) =>
        Some (mkMatch (take (length block - length rest) block) (Some g) rest)
    | None => None
    end.
Proof.
  unfold matchAt, reTableName. cbn [RSeqs]. rewrite exec_RSeq.
  rewrite exec_RStar_disjoint.
  - change (RSeq (ROpt _) _) with
      (RSeqs [ROpt (RChar (isChar "`")); RGroup (RPlus isWordChar);
              ROpt (RChar (isChar "`"))]).
    rewrite exec_quotedWord; [done|eauto].
  - intros c s' Hc.
    change (RSeq (ROpt _) _) with
      (RSeqs [ROpt (RChar (isChar "`")); RGroup (RPlus isWordChar);
              ROpt (RChar (isChar "`"))]).
    rewrite exec_quotedWord; [|eauto]. by rewrite quotedWord_space.
Qed.

Lemma quotedWord_Some s g rest :
  quotedWord s = Some (g, rest) →
  g ≠ [] ∧ allOf isWordChar g
  ∧ ∃ q, (q = [] ∨ q = [ch "`"]) ∧ s = q ++ g ++ dropWhile isWordChar (skipBacktick s)
       ∧ rest = skipBacktick (dropWhile isWordChar (skipBacktick s)).
Proof.
  unfold quotedWord. destruct (takeWhile isWordChar (skipBacktick s)) eqn:E; [done|].
  intros [= <- <-]. split; [done|]. split; [rewrite <- E; apply takeWhile_all|].
  rewrite <- E, takeWhile_dropWhile.
  destruct s as [|c s]; [by exists []; auto|]. cbn [skipBacktick].
  destruct (isChar "`" c) eqn:Ec.
  - apply isChar_eq in Ec as ->. exists [ch "`"]. auto.
  - exists []. auto.
Qed.

Lemma quotedWord_complete q w rest :
  (q = [] ∨ q = [ch "`"]) → w ≠ [] → allOf isWordChar w →
  is_Some (quotedWord (q ++ w ++ rest)).
Proof.
  intros Hq Hw Hall. destruct w as [|c w]; [done|]. inversion_clear Hall as [|?? Hc _].
  assert (H : is_Some (quotedWord (c :: w ++ rest))).
  { unfold quotedWord. rewrite skipBacktick_word by done. cbn. rewrite Hc. eauto. }
  destruct Hq as [->| ->]; [done|].
  cbn [app]. unfold quotedWord in *. cbn [skipBacktick].
  replace (isChar "`" (ch "`")) with true by done. cbn [skipBacktick] in H.
  rewrite word_not_backtick in H by done. cbn. rewrite Hc. eauto.
Qed.

(** A name is matched exactly on the blocks that start with an identifier. *)
Lemma reTableName_matches block :
  is_Some (matchAt reTableName block) ↔ hasLeadingIdentifier block.
Proof.
  rewrite matchAt_reTableName. split.
  - destruct (quotedWord _) as [[g rest]|] eqn:E; [intros _|by intros [? ?]].
    apply quotedWord_Some in E as (Hg & Hall & q & Hq & Hs & _).
    exists (takeWhile isWhiteSpace block), q, g,
      (dropWhile isWordChar (skipBacktick (dropWhile isWhiteSpace block))).
    rewrite <- Hs, takeWhile_dropWhile. auto using takeWhile_all.
  - intros (ws & q & w & rest & -> & Hws & Hq & Hw & Hall).
    rewrite dropWhile_app by done.
    pose proof (quotedWord_complete q w rest Hq Hw Hall) as [[g r] H].
    destruct (q ++ w ++ rest) as [|c s] eqn:E; [done|].
    assert (isWhiteSpace c = false) as Hc.
    { destruct (isWhiteSpace c) eqn:Ec; [|done].
      rewrite quotedWord_space in H by done. done. }
    rewrite dropWhile_stop by done. rewrite H. eauto.
Qed.

(** ** The body of a block *)

Lemma indexOf_Some s c : ∀ i,
  indexOf s c = Some i → ∃ pre rest, s = pre ++ c :: rest ∧ length pre = i ∧ c ∉ pre.
Proof.
  induction s as [|d s IH]; intros i; cbn; [done|].
  destruct (N.eqb_spec d c) as [->|Hne].
  - intros [= <-]. exists [], s. split; [done|]. split; [done|]. apply not_elem_of_nil.
  - destruct (indexOf s c) as [j|] eqn:E; [|done]. intros [= <-].
    destruct (IH j eq_refl) as (pre & rest & -> & <- & Hpre).
    exists (d :: pre), rest. split; [done|]. split; [done|].
    rewrite elem_of_cons. intros [?|?]; [congruence|done].
Qed.

Lemma indexOf_None s c : indexOf s c = None ↔ c ∉ s.
Proof.
  induction s as [|d s IH]; cbn.
  - split; [intros _; apply not_elem_of_nil|done].
  - rewrite elem_of_cons. destruct (N.eqb_spec d c) as [->|Hne].
    + split; [done|]. intros H. destruct H. by left.
    + destruct (indexOf s c); cbn.
      * split; [done|]. intros H.
        assert (c ∉ s) as Hs by (intros ?; apply H; by right). by apply IH in Hs.
      * split; [|done]. intros _ [?|?]; [congruence|]. by apply IH.
Qed.

Lemma indexOf_app pre c rest :
  c ∉ pre → indexOf (pre ++ c :: rest) c = Some (length pre).
Proof.
  induction pre as [|d pre IH]; cbn.
  - intros _. by rewrite N.eqb_refl.
  - rewrite elem_of_cons. intros H.
    destruct (N.eqb_spec d c) as [->|Hne]; [destruct H; by left|].
    rewrite IH; [done|]. intros ?. apply H. by right.
Qed.

Lemma countParens_app n s t : countParens n (s ++ t) = countParens (countParens n s) t.
Proof. apply foldl_app. Qed.

Lemma findClosingParen_cons c s k n :
  findClosingParen (c :: s) k n =
    if (countParen n c =? 0)%Z then Some k
    else findClosingParen s (S k) (countParen n c).
Proof. done. Qed.

Lemma findClosingParen_sound s : ∀ k n j,
  findClosingParen s k n = Some j →
  ∃ body c rest, s = body ++ c :: rest ∧ j = (k + length body)%nat
    ∧ (∀ m, (1 ≤ m ≤ length body)%nat → countParens n (take m body) ≠ 0%Z)
    ∧ countParens n (body ++ [c]) = 0%Z.
Proof.
  induction s as [|c s IH]; intros k n j; [done|].
  rewrite findClosingParen_cons. destruct (Z.eqb_spec (countParen n c) 0) as [H0|H0].
  - intros [= <-]. exists [], c, s. cbn. split; [done|]. split; [lia|].
    split; [intros; lia|done].
  - intros H. apply IH in H as (body & c' & rest & -> & -> & Hpre & Hend).
    exists (c :: body), c', rest. cbn. split; [done|]. split; [lia|]. split; [|done].
    intros [|m] Hm; [lia|]. cbn.
    destruct m as [|m]; [by rewrite take_0|]. apply Hpre. lia.
Qed.

Lemma findClosingParen_complete body c rest : ∀ k n,
  (∀ m, (1 ≤ m ≤ length body)%nat → countParens n (take m body) ≠ 0%Z) →
  countParens n (body ++ [c]) = 0%Z →
  findClosingParen (body ++ c :: rest) k n = Some (k + length body)%nat.
Proof.
  induction body as [|d body IH]; intros k n Hpre Hend; cbn [app length];
    rewrite findClosingParen_cons.
  - cbn in Hend. rewrite Hend. cbn. f_equal. lia.
  - destruct (Z.eqb_spec (countParen n d) 0) as [H0|H0].
    + specialize (Hpre 1%nat). cbn in Hpre. rewrite take_0 in Hpre. cbn in Hpre.
      exfalso. apply Hpre; [lia|done].
    + rewrite IH; [f_equal; lia| |done].
      intros m Hm. apply (Hpre (S m)). cbn. lia.
Qed.

Lemma countParens_positive body : ∀ n,
  (1 ≤ n)%Z →
  (∀ m, (1 ≤ m ≤ length body)%nat → countParens n (take m body) ≠ 0%Z) →
  (1 ≤ countParens n body)%Z.
Proof.
  induction body as [|d body IH]; intros n Hn Hpre; cbn; [done|].
  apply IH.
  - specialize (Hpre 1%nat). cbn in Hpre. rewrite take_0 in Hpre. cbn in Hpre.
    assert (countParen n d ≠ 0%Z) by (apply Hpre; lia).
    unfold countParen in *. destruct (d =? ch "("), (d =? ch ")"); lia.
  - intros m Hm. apply (Hpre (S m)). cbn. lia.
Qed.

Lemma countParen_closes n c :
  (1 ≤ n)%Z → countParen n c = 0%Z → c = ch ")".
Proof.
  unfold countParen. intros Hn.
  destruct (N.eqb_spec c (ch "(")); [lia|]. destruct (N.eqb_spec c (ch ")")); [done|lia].
Qed.

Lemma substring_middle (pre body rest : jsstring) :
  substring (pre ++ body ++ rest) (length pre) (length pre + length body) = body.
Proof.
  unfold substring. rewrite !length_app.
  replace (Nat.min (length pre) _) with (length pre) by lia.
  replace (Nat.min (length pre + length body) _) with (length pre + length body)%nat by lia.
  replace (Nat.max _ _ - Nat.min _ _)%nat with (length body) by lia.
  replace (Nat.min _ _) with (length pre) by lia.
  rewrite drop_app_length. by rewrite take_app_length.
Qed.

Lemma substringFrom_app (pre rest : jsstring) :
  substringFrom (pre ++ rest) (length pre) = rest.
Proof.
  unfold substringFrom.
  pose proof (substring_middle pre rest []) as H. rewrite app_nil_r in H.
  rewrite length_app. exact H.
Qed.

Lemma substring_body (pre body : jsstring) (a c : char) (r : jsstring) :
  substring (pre ++ a :: body ++ c :: r) (S (length pre)) (S (length pre) + length body) = body
  ∧ substringFrom (pre ++ a :: body ++ c :: r) (S (length pre) + length body + 1) = r.
Proof.
  split.
  - pose proof (substring_middle (pre ++ [a]) body (c :: r)) as H.
    rewrite <- app_assoc in H. cbn in H. rewrite length_app in H. cbn in H.
    by rewrite Nat.add_1_r in H.
  - pose proof (substringFrom_app (pre ++ a :: body ++ [c]) r) as H.
    rewrite <- !app_assoc in H. cbn in H. rewrite <- !app_assoc in H. cbn in H.
    rewrite !length_app in H. cbn in H. rewrite length_app in H. cbn in H.
    rewrite <- H at 2. f_equal. lia.
Qed.

Lemma drop_past_paren (pre : jsstring) (a : char) (rest : jsstring) :
  drop (S (length pre)) (pre ++ a :: rest) = rest.
Proof.
  rewrite cons_middle, app_assoc. apply drop_app_length'.
  rewrite length_app. cbn. lia.
Qed.

(** The body the parser extracts is the one between the first [(] and the
    [)] that brings the counter back to zero, and there is one exactly when
    the parser extracts one. *)
Lemma extractBody_spec block body afterBody :
  extractBody block = Some (body, afterBody) ↔ bodyOf block body afterBody.
Proof.
  unfold extractBody, bodyOf. split.
  - destruct (indexOf block (ch "(")) as [i|] eqn:Ei; [|done].
    apply indexOf_Some in Ei as (pre & rest & -> & <- & Hpre).
    rewrite Nat.add_1_r, drop_past_paren.
    destruct (findClosingParen rest _ 1) as [j|] eqn:Ej; [|done].
    apply findClosingParen_sound in Ej as (b & c & r & -> & -> & Hb & Hend).
    assert (c = ch ")") as ->.
    { rewrite countParens_app in Hend. cbn in Hend.
      eapply countParen_closes; [|exact Hend]. by apply countParens_positive. }
    destruct (substring_body pre b (ch "(") (ch ")") r) as [-> ->].
    intros [= <- <-]. exists pre. split; [done|]. split; [done|]. split; [|done].
    intros [|k] Hk; [done|]. apply Hb. lia.
  - intros (pre & -> & Hpre & Hb & Hend).
    rewrite indexOf_app by done. rewrite Nat.add_1_r, drop_past_paren.
    rewrite findClosingParen_complete; [|intros; apply Hb; lia|done].
    by destruct (substring_body pre body (ch "(") (ch ")") afterBody) as [-> ->].
Qed.

Lemma extractBody_None block : extractBody block = None ↔ ¬ parensBalance block.
Proof.
  split.
  - intros H (body & afterBody & Hb). apply extractBody_spec in Hb. congruence.
  - intros H. destruct (extractBody block) as [[body afterBody]|] eqn:E; [|done].
    destruct H. exists body, afterBody. by apply extractBody_spec.
Qed.

Lemma extractBody_no_paren block : ch "(" ∉ block → extractBody block = None.
Proof. intros H. unfold extractBody. apply indexOf_None in H. by rewrite H. Qed.

(** ** Blocks and tables *)

Lemma parseBlock_cases block :
  match matchAt reTableName block, extractBody block with
  | Some _, Some _ => ∃ t, parseBlock block = Normal (Some t)
  | _, _ => parseBlock block = Normal None
  end.
Proof.
  destruct (parseBlock_normal block) as [t Ht]. revert Ht. unfold parseBlock.
  destruct (matchAt reTableName block) as [m|] eqn:E; [|done].
  apply group1_matchAt in E as (g & _ & ->); [|done]. rewrite bind_Normal.
  destruct (extractBody block) as [[body afterBody]|]; [|done].
  destruct (match search reTableComment afterBody with
            | Some m' => group1 m' | None => mret [] end); [|done].
  rewrite bind_Normal. destruct (primaryKeysOf body); [|done]. rewrite bind_Normal.
  destruct (parseLines _ _ _); [|done]. rewrite bind_Normal. eauto.
Qed.

Lemma parseBlock_malformed block : malformed block → parseBlock block = Normal None.
Proof.
  intros H. pose proof (parseBlock_cases block) as Hc.
  destruct (matchAt reTableName block) as [m|] eqn:Em; [|done].
  destruct (extractBody block) as [p|] eqn:Eb; [|done].
  exfalso. destruct H as [H|[H|H]].
  - apply H, reTableName_matches. by rewrite Em.
  - apply extractBody_no_paren in H. congruence.
  - apply extractBody_None in H. congruence.
Qed.

Lemma parseBlock_wellFormed block :
  wellFormed block → ∃ t, parseBlock block = Normal (Some t).
Proof.
  intros [Hid (body & afterBody & Hb)]. pose proof (parseBlock_cases block) as Hc.
  apply reTableName_matches in Hid as [m Hm]. apply extractBody_spec in Hb.
  by rewrite Hm, Hb in Hc.
Qed.

Lemma malformed_or_wellFormed block : malformed block ∨ wellFormed block.
Proof.
  destruct (matchAt reTableName block) as [m|] eqn:Em.
  - destruct (extractBody block) as [[body afterBody]|] eqn:Eb.
    + right. split.
      * apply reTableName_matches. by rewrite Em.
      * exists body, afterBody. by apply extractBody_spec.
    + left. right. right. by apply extractBody_None.
  - left. left. intros H. apply reTableName_matches in H as [? ?]. congruence.
Qed.

Lemma parseBlocks_omap blocks : ∀ tables,
  parseBlocks blocks tables = Normal (tables ++ omap tableOf blocks).
Proof.
  induction blocks as [|b bs IH]; intros tables; cbn.
  - by rewrite app_nil_r.
  - unfold tableOf at 1. destruct (parseBlock_normal b) as [t ->]. rewrite bind_Normal.
    rewrite IH. destruct t; [|done]. by rewrite <- app_assoc.
Qed.

Lemma parseSQL_omap sql : parseSQL sql = Normal (omap tableOf (tableBlocks sql)).
Proof. unfold parseSQL. by rewrite parseBlocks_omap. Qed.

(** C7: a block with no leading identifier, with no [(] or with parentheses
    that never balance is dropped, the loop goes on, the parse completes, and
    the tables are those of the well-formed blocks, one for each and in their
    order. *)
Theorem malformed_blocks_dropped (sql : jsstring) :
  ∃ tables, parseSQL sql = Normal tables
    ∧ tables = omap tableOf (tableBlocks sql)
    ∧ (∀ block, malformed block ∨ wellFormed block)
    ∧ (∀ block, block ∈ tableBlocks sql → malformed block →
         parseBlock block = Normal None)
    ∧ (∀ block, block ∈ tableBlocks sql → wellFormed block →
         ∃ t, parseBlock block = Normal (Some t) ∧ t ∈ tables).
Proof.
  exists (omap tableOf (tableBlocks sql)).
  split; [apply parseSQL_omap|]. split; [done|].
  split; [apply malformed_or_wellFormed|].
  split; [intros block _; apply parseBlock_malformed|].
  intros block Hin Hwf. destruct (parseBlock_wellFormed block Hwf) as [t Ht].
  exists t. split; [done|]. apply list_elem_of_omap. exists block.
  split; [done|]. unfold tableOf. by rewrite Ht.
Qed.

(** ** The primary-key clause *)

Lemma stripChars_isCI l : ∀ s s',
  stripChars (isCI <$> l) s = Some s' ↔
  ∃ kw, s = kw ++ s' ∧ canonicalize <$> kw = canonicalize <$> l.
Proof.
  induction l as [|p l IH]; intros s s'; cbn.
  - split.
    + intros [= ->]. by exists [].
    + intros (kw & -> & H). apply fmap_nil_inv in H as ->. done.
  - destruct s as [|c s].
    + split; [done|]. intros (kw & H & Hkw). destruct kw; [done|]. done.
    + unfold isCI at 1. destruct (N.eqb_spec (canonicalize c) (canonicalize p)) as [E|E].
      * rewrite IH. split.
        -- intros (kw & -> & H). exists (c :: kw). cbn. by rewrite E, H.
        -- intros (kw & H & Hkw). destruct kw as [|d kw]; [done|].
           cbn in H, Hkw. injection H as <- ->. injection Hkw as _ Hkw. eauto.
      * split; [done|]. intros (kw & H & Hkw). destruct kw as [|d kw]; [done|].
        cbn in H, Hkw. injection H as <- ->. injection Hkw as Hd _. done.
Qed.

Lemma notRParen_iff c : (notCI ")") c = true ↔ c ≠ ch ")".
Proof.
  unfold notCI. rewrite isCI_rparen, negb_true_iff.
  destruct (N.eqb_spec c (ch ")")); split; congruence.
Qed.

Lemma allOf_notRParen s : allOf (notCI ")") s ↔ ch ")" ∉ s.
Proof.
  unfold allOf. rewrite Forall_forall. split.
  - intros H Hin. apply H in Hin. by apply notRParen_iff in Hin.
  - intros H c Hc. apply notRParen_iff. by intros ->.
Qed.

Lemma matchAt_rePrimaryKey s :
  matchAt rePrimaryKey s =
    match pkClause s with
    | Some (g, rest) => Some (mkMatch (take (length s - length rest) s) (Some g) rest)
    | None => None
    end.
Proof.
  unfold matchAt, rePrimaryKey, pkClause. cbn [RSeqs].
  rewrite exec_RSeq, exec_RLitCI.
  destruct (stripChars (isCI <$> lit "PRIMARY KEY") s) as [s1|]; [|done].
  set (K := λ (s' : jsstring) (cap : option jsstring),
         Some (mkMatch (take (length s - length s') s) cap s')).
  assert (Hclose : ∀ s' cap,
    exec (RSeq (RLitCI ")") REmpty) s' cap K =
      match s' with
      | d :: s4 => if isCI (ch ")") d then K s4 cap else None
      | [] => None
      end).
  { intros s' cap. rewrite exec_RSeq, exec_RLitCI.
    change (isCI <$> lit ")") with [isCI (ch ")")].
    destruct s' as [|d s4]; [done|]. cbn [stripChars]. by destruct (isCI (ch ")") d). }
  assert (Hopen : ∀ s2 cap,
    exec (RSeq (RLitCI "(") (RSeq (RGroup (RPlus (notCI ")"))) (RSeq (RLitCI ")") REmpty)))
      s2 cap K =
      match s2 with
      | c :: s3 =>
          if isCI (ch "(") c then
            match takeWhile (notCI ")") s3 with
            | [] => None
            | g => match dropWhile (notCI ")") s3 with
                   | d :: s4 => if isCI (ch ")") d then K s4 (Some g) else None
                   | [] => None
                   end
            end
          else None
      | [] => None
      end).
  { intros s2 cap. rewrite exec_RSeq, exec_RLitCI.
    change (isCI <$> lit "(") with [isCI (ch "(")].
    destruct s2 as [|c s3]; [done|]. cbn [stripChars].
    destruct (isCI (ch "(") c); [|done].
    rewrite exec_RSeq, exec_group_plus_disjoint.
    - destruct (takeWhile (notCI ")") s3); [done|]. apply Hclose.
    - intros d s' cap' Hd. rewrite Hclose. unfold notCI in Hd.
      apply negb_true_iff in Hd. by rewrite Hd. }
  rewrite exec_RSeq, exec_RStar_disjoint.
  - rewrite Hopen. destruct (dropWhile isWhiteSpace s1) as [|c s3]; [done|].
    destruct (isCI (ch "(") c); [|done].
    destruct (takeWhile (notCI ")") s3); [done|].
    destruct (dropWhile (notCI ")") s3) as [|d s4]; [done|].
    by destruct (isCI (ch ")") d).
  - intros c s' Hc. rewrite Hopen. rewrite isCI_lparen. by rewrite space_not_lparen.
Qed.

Lemma pkClause_spec s cols :
  (∃ rest, pkClause s = Some (cols, rest)) ↔ pkClauseAt s cols.
Proof.
  unfold pkClause, pkClauseAt. split.
  - intros [rest H].
    destruct (stripChars _ s) as [s1|] eqn:E1; [|done].
    apply stripChars_isCI in E1 as (kw & -> & Hkw).
    destruct (dropWhile isWhiteSpace s1) as [|c s3] eqn:E2; [done|].
    rewrite isCI_lparen in H. destruct (N.eqb_spec c (ch "(")) as [->|]; [|done].
    destruct (takeWhile (notCI ")") s3) as [|g0 g] eqn:E3; [done|].
    destruct (dropWhile (notCI ")") s3) as [|d s4] eqn:E4; [done|].
    rewrite isCI_rparen in H. destruct (N.eqb_spec d (ch ")")) as [->|]; [|done].
    injection H as <- <-.
    exists kw, (takeWhile isWhiteSpace s1), s4. split; [|split; [|split; [|split]]].
    + f_equal. rewrite <- (takeWhile_dropWhile isWhiteSpace s1) at 1. rewrite E2.
      f_equal. f_equal. rewrite <- (takeWhile_dropWhile (notCI ")") s3) at 1.
      by rewrite E3, E4.
    + exact Hkw.
    + apply takeWhile_all.
    + done.
    + apply allOf_notRParen. rewrite <- E3. apply takeWhile_all.
  - intros (kw & ws & rest & -> & Hkw & Hws & Hne & Hcols).
    exists rest.
    assert (stripChars (isCI <$> lit "PRIMARY KEY")
              (kw ++ ws ++ ch "(" :: cols ++ ch ")" :: rest)
            = Some (ws ++ ch "(" :: cols ++ ch ")" :: rest)) as ->.
    { apply stripChars_isCI. exists kw. split; [done|]. exact Hkw. }
    rewrite dropWhile_app by done. rewrite dropWhile_stop by done.
    rewrite isCI_lparen, N.eqb_refl.
    apply allOf_notRParen in Hcols.
    rewrite takeWhile_app, dropWhile_app by done.
    rewrite takeWhile_stop, dropWhile_stop by done. rewrite app_nil_r.
    rewrite isCI_rparen, N.eqb_refl. by destruct cols.
Qed.

Lemma matchAt_pkClauseAt s cols :
  (∃ m, matchAt rePrimaryKey s = Some m ∧ m1 m = Some cols) ↔ pkClauseAt s cols.
Proof.
  rewrite <- pkClause_spec, matchAt_rePrimaryKey. split.
  - intros (m & H & Hm). destruct (pkClause s) as [[g rest]|]; [|done].
    injection H as <-. cbn in Hm. injection Hm as ->. eauto.
  - intros [rest ->]. eauto.
Qed.

Lemma matchAt_rePrimaryKey_None s :
  matchAt rePrimaryKey s = None ↔ ∀ cols, ¬ pkClauseAt s cols.
Proof.
  split.
  - intros H cols Hc. apply matchAt_pkClauseAt in Hc as (m & Hm & _). congruence.
  - intros H. destruct (matchAt rePrimaryKey s) as [m|] eqn:E; [|done].
    destruct (matchAt_capture rePrimaryKey _ _ eq_refl E) as [cols Hc].
    destruct (H cols). apply matchAt_pkClauseAt. eauto.
Qed.

(** The search finds the first clause of the body, and none when there is
    none. *)
Lemma search_firstPkClause body cols :
  firstPkClause body cols →
  ∃ m, search rePrimaryKey body = Some m ∧ m1 m = Some cols.
Proof.
  intros (i & Hi & Hlt). apply matchAt_pkClauseAt in Hi as (m & Hm & Hc).
  exists m. split; [|done]. apply (search_first _ _ i); [done|].
  intros j Hj. apply matchAt_rePrimaryKey_None. intros cols'. by apply Hlt.
Qed.

Lemma search_noPkClause body : noPkClause body ↔ search rePrimaryKey body = None.
Proof.
  split.
  - intros H. destruct (search rePrimaryKey body) as [m|] eqn:E; [|done].
    apply search_Some in E as (i & E & _).
    destruct (matchAt_capture rePrimaryKey _ _ eq_refl E) as [cols Hc].
    destruct (H i cols). apply matchAt_pkClauseAt. eauto.
  - intros H i cols Hc. apply matchAt_pkClauseAt in Hc as (m & Hm & _).
    pose proof (search_None _ _ H i). congruence.
Qed.

Lemma pkClause_cases body : noPkClause body ∨ ∃ cols, firstPkClause body cols.
Proof.
  destruct (search rePrimaryKey body) as [m|] eqn:E.
  - right. apply search_Some in E as (i & E & Hlt).
    destruct (matchAt_capture rePrimaryKey _ _ eq_refl E) as [cols Hc].
    exists cols, i. split; [apply matchAt_pkClauseAt; eauto|].
    intros j cols' Hj Hcl. apply matchAt_pkClauseAt in Hcl as (m' & Hm' & _).
    rewrite (Hlt j Hj) in Hm'. done.
  - left. by apply search_noPkClause.
Qed.

Lemma primaryKeysOf_first body cols :
  firstPkClause body cols → primaryKeysOf body = Normal (list_to_set (pkTokens cols)).
Proof.
  intros H. apply search_firstPkClause in H as (m & Hs & Hc).
  unfold primaryKeysOf, group1. by rewrite Hs, Hc.
Qed.

Lemma primaryKeysOf_none body : noPkClause body → primaryKeysOf body = Normal ∅.
Proof. intros H. apply search_noPkClause in H. unfold primaryKeysOf. by rewrite H. Qed.

(** ** Lines and columns *)

Lemma parseLines_omap pks rawLines : ∀ columns,
  parseLines pks rawLines columns = Normal (columns ++ omap (columnOf pks) rawLines).
Proof.
  induction rawLines as [|l ls IH]; intros columns; cbn.
  - by rewrite app_nil_r.
  - unfold columnOf at 1. destruct (parseLine_normal pks l) as [c ->]. rewrite bind_Normal.
    rewrite IH. destruct c; [|done]. by rewrite <- app_assoc.
Qed.

Lemma columnOf_isPrimaryKey pks line c :
  columnOf pks line = Some c → Col.isPrimaryKey c = bool_decide (Col.name c ∈ pks).
Proof.
  unfold columnOf, parseLine.
  destruct (_ || _); [done|].
  destruct (matchAt reColumnName (trim line)) as [m|]; [|done].
  destruct (group1 m) as [g|]; [|done]. rewrite bind_Normal.
  destruct (bool_decide (toUpperCase g ∈ keywordNames)); [done|].
  destruct (match matchAt reColumnType _ with Some m' => group1 m' | None => _ end);
    [|done].
  rewrite bind_Normal.
  destruct (match search reColumnComment _ with Some m' => group1 m' | None => _ end);
    [|done].
  rewrite bind_Normal. by intros [= <-].
Qed.

(** What a block that yields a table has gone through. *)
Lemma parseBlock_Some block t :
  parseBlock block = Normal (Some t) →
  ∃ body afterBody pks,
    extractBody block = Some (body, afterBody)
    ∧ primaryKeysOf body = Normal pks
    ∧ Tbl.columns t = omap (columnOf pks) (splitChar LF body)
    ∧ Tbl.id t = Tbl.name t
    ∧ ∃ m, matchAt reTableName block = Some m ∧ m1 m = Some (Tbl.name t).
Proof.
  unfold parseBlock.
  destruct (matchAt reTableName block) as [m|] eqn:E; [|done].
  destruct (group1_matchAt reTableName _ _ eq_refl E) as (g & Hg & ->). rewrite bind_Normal.
  destruct (extractBody block) as [[body afterBody]|]; [|done].
  destruct (match search reTableComment afterBody with
            | Some m' => group1 m' | None => mret [] end); [|done].
  rewrite bind_Normal. destruct (primaryKeysOf body) as [pks|] eqn:Epk; [|done].
  rewrite bind_Normal, parseLines_omap, bind_Normal. intros [= <-].
  exists body, afterBody, pks. cbn. eauto 10.
Qed.

Lemma parseSQL_table sql tables t :
  parseSQL sql = Normal tables → t ∈ tables →
  ∃ block, block ∈ tableBlocks sql ∧ parseBlock block = Normal (Some t).
Proof.
  rewrite parseSQL_omap. intros [= <-] Ht.
  apply list_elem_of_omap in Ht as (block & Hin & Hb). exists block. split; [done|].
  unfold tableOf in Hb. by destruct (parseBlock block) as [[?|]|]; simplify_eq.
Qed.

(** C2: in every table [parseSQL] produces, a column is flagged as primary
    key exactly when its name is one of the tokens (split on commas, trimmed,
    stripped of backticks and quotes) of the first [PRIMARY KEY (...)] clause
    of the table body, read without regard to case; with no such clause no
    column is flagged. *)
Theorem isPrimaryKey_iff_in_first_clause (sql : jsstring)
    (tables : list TableDefinition) (t : TableDefinition) :
  parseSQL sql = Normal tables → t ∈ tables →
  ∃ block body afterBody,
    block ∈ tableBlocks sql ∧ parseBlock block = Normal (Some t)
    ∧ bodyOf block body afterBody
    ∧ (noPkClause body ∨ ∃ cols, firstPkClause body cols)
    ∧ (∀ cols, firstPkClause body cols →
         ∀ c, c ∈ Tbl.columns t →
           (Col.isPrimaryKey c = true ↔ Col.name c ∈ pkTokens cols))
    ∧ (noPkClause body → ∀ c, c ∈ Tbl.columns t → Col.isPrimaryKey c = false).
Proof.
  intros Hp Ht. destruct (parseSQL_table _ _ _ Hp Ht) as (block & Hin & Hb).
  pose proof Hb as Hb'.
  apply parseBlock_Some in Hb' as (body & afterBody & pks & Hbody & Hpks & Hcols & _).
  exists block, body, afterBody. split; [done|]. split; [done|].
  split; [by apply extractBody_spec|].
  split; [apply pkClause_cases|]. split.
  - intros cols Hfirst c Hc. rewrite (primaryKeysOf_first _ _ Hfirst) in Hpks.
    injection Hpks as <-. rewrite Hcols in Hc.
    apply list_elem_of_omap in Hc as (line & _ & Hc).
    rewrite (columnOf_isPrimaryKey _ _ _ Hc), bool_decide_eq_true.
    apply elem_of_list_to_set.
  - intros Hnone c Hc. rewrite (primaryKeysOf_none _ Hnone) in Hpks.
    injection Hpks as <-. rewrite Hcols in Hc.
    apply list_elem_of_omap in Hc as (line & _ & Hc).
    rewrite (columnOf_isPrimaryKey _ _ _ Hc). apply bool_decide_eq_false.
    apply not_elem_of_empty.
Qed.

(** ** The type pattern *)

Section TypePattern.
Context {R : Type}.
Implicit Types (K : jsstring → option jsstring → option R).

Lemma exec_RChar_cons p c s cap K :
  exec (RChar p) (c :: s) cap K = if p c then K s cap else None.
Proof. done. Qed.

Lemma exec_ROpt r s cap K :
  exec (ROpt r) s cap K =
    match exec r s cap K with Some x => Some x | None => K s cap end.
Proof. done. Qed.

Lemma exec_REmpty s cap K : exec REmpty s cap K = K s cap.
Proof. done. Qed.

(** [(?:\([^)]+\))?] *)
Lemma exec_parenthesized s1 cap K :
  exec (ROpt (RSeqs [RChar (isChar "("); RPlus (notChar ")"); RChar (isChar ")")]))
    s1 cap K =
    match s1 with
    | c :: s2 =>
        if isChar "(" c then
          match takeWhile (notChar ")") s2 with
          | [] => K s1 cap
          | _ =>
              match dropWhile (notChar ")") s2 with
              | d :: s3 =>
                  if isChar ")" d then
                    match K s3 cap with Some x => Some x | None => K s1 cap end
                  else K s1 cap
              | [] => K s1 cap
              end
          end
        else K s1 cap
    | [] => K s1 cap
    end.
Proof.
  rewrite exec_ROpt. cbn [RSeqs]. unfold RPlus.
  destruct s1 as [|c s2]; [done|]. rewrite exec_RSeq, exec_RChar_cons.
  destruct (isChar "(" c); [|done]. rewrite !exec_RSeq.
  destruct s2 as [|a0 s2]; [done|]. rewrite exec_RChar_cons. cbn [takeWhile dropWhile].
  destruct (notChar ")" a0) eqn:Ea; [|done].
  rewrite exec_RStar_disjoint.
  - destruct (dropWhile (notChar ")") s2) as [|d s3]; [done|].
    rewrite exec_RSeq, exec_RChar_cons. by destruct (isChar ")" d).
  - intros d s' Hd. rewrite exec_RSeq, exec_RChar_cons.
    unfold notChar in Hd. apply negb_true_iff in Hd. unfold isChar. by rewrite Hd.
Qed.

Lemma exec_ROpt_total r s cap K :
  (∀ s' g, is_Some (K s' g)) → is_Some (exec (ROpt r) s cap K).
Proof.
  intros HK. rewrite exec_ROpt. destruct (exec r s cap K); [by eexists|apply HK].
Qed.

(** [\w+] before a continuation that always succeeds *)
Lemma exec_word_then r s cap K :
  (∀ s' g, is_Some (K s' g)) →
  exec (RSeq (RPlus isWordChar) (ROpt r)) s cap K =
    match takeWhile isWordChar s with
    | [] => None
    | _ => exec (ROpt r) (dropWhile isWordChar s) cap K
    end.
Proof.
  intros HK. unfold RPlus. rewrite !exec_RSeq.
  destruct s as [|c0 s0]; [done|]. rewrite exec_RChar_cons. cbn [takeWhile dropWhile].
  destruct (isWordChar c0); [|done].
  apply exec_RStar_greedy. by apply exec_ROpt_total.
Qed.
End TypePattern.

Lemma matchAt_reColumnType s :
  matchAt reColumnType s =
    match columnType s with
    | Some (g, rest) => Some (mkMatch g (Some g) rest)
    | None => None
    end.
Proof.
  unfold matchAt, reColumnType, columnType.
  set (K := λ (s' : jsstring) (cap : option jsstring),
         Some (mkMatch (take (length s - length s') s) cap s')).
  set (K' := λ (s' : jsstring) (_ : option jsstring),
         K s' (Some (take (length s - length s') s))).
  change (exec (RGroup ?r) s None K) with (exec r s None K').
  rewrite exec_word_then by (intros; by eexists).
  rewrite exec_parenthesized.
  pose proof (takeWhile_dropWhile isWordChar s) as Hs.
  assert (Hw : K' (dropWhile isWordChar s) None =
               Some (mkMatch (takeWhile isWordChar s) (Some (takeWhile isWordChar s))
                       (dropWhile isWordChar s))).
  { unfold K', K. by rewrite take_takeWhile. }
  destruct (takeWhile isWordChar s) as [|w0 w] eqn:Ew; [done|].
  destruct (dropWhile isWordChar s) as [|c s2] eqn:E1; [done|].
  destruct (isChar "(" c) eqn:Ec1; [|done].
  pose proof (takeWhile_dropWhile (notChar ")") s2) as Hs2.
  destruct (takeWhile (notChar ")") s2) as [|a0 a] eqn:E2; [done|].
  destruct (dropWhile (notChar ")") s2) as [|d s3] eqn:E3; [done|].
  destruct (isChar ")" d) eqn:Ed; [|done].
  assert (s = ((w0 :: w) ++ c :: (a0 :: a) ++ [d]) ++ s3) as Hs'.
  { rewrite <- Hs. rewrite <- !app_assoc. cbn. do 3 f_equal. rewrite <- Hs2.
    by rewrite <- app_assoc. }
  unfold K', K.
  replace (take (length s - length s3) s) with ((w0 :: w) ++ c :: (a0 :: a) ++ [d])
    by (rewrite Hs'; symmetry; apply take_prefix).
  done.
Qed.

Lemma columnType_parenthesized w a rest :
  w ≠ [] → allOf isWordChar w → a ≠ [] → ch ")" ∉ a →
  columnType (w ++ ch "(" :: a ++ ch ")" :: rest) = Some (w ++ ch "(" :: a ++ [ch ")"], rest).
Proof.
  intros Hw Hall Ha Hna. unfold columnType.
  assert (allOf (notChar ")") a) as Hall'.
  { apply Forall_forall. intros c Hc. unfold notChar. apply negb_true_iff.
    apply N.eqb_neq. by intros ->. }
  rewrite takeWhile_app, dropWhile_app by done.
  rewrite takeWhile_stop, dropWhile_stop by done. rewrite app_nil_r.
  destruct w as [|w0 w]; [done|]. cbn [app].
  replace (isChar "(" (ch "(")) with true by done.
  rewrite takeWhile_app, dropWhile_app by done.
  rewrite takeWhile_stop, dropWhile_stop by done. rewrite app_nil_r.
  destruct a as [|a0 a]; [done|]. cbn [app].
  by replace (isChar ")" (ch ")")) with true by done.
Qed.

(** ** Trimming *)

Lemma dropWhile_app_stop p x c y :
  p c = false → dropWhile p (x ++ c :: y) = dropWhile p x ++ c :: y.
Proof.
  intros Hc. induction x as [|d x IH]; cbn; [by rewrite Hc|].
  destruct (p d); [apply IH|done].
Qed.

Lemma trimEnd_app_stop x c y :
  isWhiteSpace c = false → trimEnd (x ++ c :: y) = x ++ c :: trimEnd y.
Proof.
  intros Hc. unfold trimEnd, trimStart.
  rewrite reverse_app, reverse_cons, <- app_assoc. cbn [app].
  rewrite dropWhile_app_stop by done.
  rewrite reverse_app, reverse_cons, reverse_involutive. by rewrite <- app_assoc.
Qed.

(** Trimming stops at the first and at the last character that is not white
    space. *)
Lemma trim_framed ind c0 q c y :
  allOf isWhiteSpace ind → isWhiteSpace c0 = false → isWhiteSpace c = false →
  trim (ind ++ c0 :: q ++ c :: y) = c0 :: q ++ c :: trimEnd y.
Proof.
  intros Hind Hc0 Hc. unfold trim, trimStart.
  rewrite dropWhile_app, dropWhile_stop by done.
  by apply (trimEnd_app_stop (c0 :: q) c y).
Qed.

Lemma substringFrom_matched (pre rest : jsstring) :
  substringFrom (pre ++ rest)
    (length (take (length (pre ++ rest) - length rest) (pre ++ rest))) = rest.
Proof. rewrite take_prefix. apply substringFrom_app. Qed.

Lemma quotedWord_quoted name rest :
  name ≠ [] → allOf isWordChar name →
  quotedWord (ch "`" :: name ++ ch "`" :: rest) = Some (name, rest).
Proof.
  intros Hne Hall. unfold quotedWord. cbn [skipBacktick].
  replace (isChar "`" (ch "`")) with true by done.
  rewrite takeWhile_app, dropWhile_app by done.
  rewrite takeWhile_stop, dropWhile_stop by done. rewrite app_nil_r.
  cbn [skipBacktick]. replace (isChar "`" (ch "`")) with true by done.
  by destruct name.
Qed.

Lemma not_skipped_backtick s : existsb (startsWith (ch "`" :: s)) skippedPrefixes = false.
Proof. by vm_compute. Qed.

(** A line with a quoted name and a type that has a parenthesized argument
    yields a column whose type is the word with its argument. *)
Lemma parseLine_parenthesized_type pks ind name sp w a rest :
  allOf isWhiteSpace ind → name ≠ [] → allOf isWordChar name →
  toUpperCase name ∉ keywordNames →
  allOf isWhiteSpace sp → w ≠ [] → allOf isWordChar w → a ≠ [] → ch ")" ∉ a →
  ∃ col,
    parseLine pks (ind ++ ch "`" :: name ++ ch "`" :: sp ++ w ++ ch "(" :: a ++ ch ")" :: rest)
      = Normal (Some col)
    ∧ Col.name col = name ∧ Col.type col = w ++ ch "(" :: a ++ [ch ")"].
Proof.
  intros Hind Hname Hnw Hkw Hsp Hw Hww Ha Hna. unfold parseLine.
  set (q := name ++ ch "`" :: sp ++ w ++ ch "(" :: a).
  assert (Hq : ∀ r, name ++ ch "`" :: sp ++ w ++ ch "(" :: a ++ ch ")" :: r
                    = q ++ ch ")" :: r).
  { intros r. unfold q. by repeat (rewrite <- ?app_assoc; cbn [app]). }
  rewrite Hq, trim_framed by done. rewrite <- Hq.
  rewrite not_skipped_backtick. cbn [bool_decide orb].
  replace (bool_decide (ch "`" :: name ++ ch "`" :: sp ++ w ++ ch "(" :: a ++ ch ")" :: trimEnd rest = []))
    with false by (symmetry; by apply bool_decide_eq_false).
  cbn [orb]. rewrite matchAt_reColumnName, quotedWord_quoted by done.
  unfold group1. cbn [m1 m0]. rewrite bind_Normal.
  rewrite bool_decide_eq_false_2 by done.
  set (X := sp ++ w ++ ch "(" :: a ++ ch ")" :: trimEnd rest).
  set (line := ch "`" :: name ++ ch "`" :: X).
  assert (Hrem : substringFrom line (length (take (length line - length X) line)) = X).
  { replace line with ((ch "`" :: name ++ [ch "`"]) ++ X)
      by (cbn; by rewrite <- app_assoc).
    apply substringFrom_matched. }
  rewrite Hrem. unfold X at 1.
  destruct w as [|w0 w]; [done|]. inversion Hww as [|?? Hw0 Hww']; subst.
  assert (Hr : ∀ r, (w0 :: w) ++ ch "(" :: a ++ ch ")" :: r
                    = w0 :: (w ++ ch "(" :: a) ++ ch ")" :: r).
  { intros r. by repeat (rewrite <- ?app_assoc; cbn [app]). }
  rewrite Hr, trim_framed by (done || by apply word_not_space). rewrite <- Hr.
  rewrite matchAt_reColumnType, columnType_parenthesized by done.
  cbn [m1]. rewrite bind_Normal.
  destruct (search reColumnComment line) as [mc|] eqn:Ec.
  - apply group1_search in Ec as (gc & -> & _); [|done]. rewrite bind_Normal.
    eexists. split; [reflexivity|done].
  - rewrite bind_Normal. eexists. split; [reflexivity|done].
Qed.


(** C1: the body of a surviving block lies strictly between the first [(]
    of the block and the [)] at which the nesting counter first returns to
    zero, and the columns are read from that body; so a column with a
    parenthesized type argument, as in [decimal(17, 2)], gets the whole of it
    as its type. *)
Theorem body_ends_at_matching_paren :
  (∀ block t,
     parseBlock block = Normal (Some t) →
     ∃ body afterBody pks,
       extractBody block = Some (body, afterBody)
       ∧ bodyOf block body afterBody
       ∧ primaryKeysOf body = Normal pks
       ∧ Tbl.columns t = omap (columnOf pks) (splitChar LF body))
  ∧ (∀ pks ind name sp w a rest,
       allOf isWhiteSpace ind → name ≠ [] → allOf isWordChar name →
       toUpperCase name ∉ keywordNames →
       allOf isWhiteSpace sp → w ≠ [] → allOf isWordChar w → a ≠ [] → ch ")" ∉ a →
       ∃ col,
         parseLine pks
           (ind ++ ch "`" :: name ++ ch "`" :: sp ++ w ++ ch "(" :: a ++ ch ")" :: rest)
           = Normal (Some col)
         ∧ Col.name col = name ∧ Col.type col = w ++ ch "(" :: a ++ [ch ")"])
  ∧ parseSQL sqlDecimal = Normal [tableDecimal].
Proof.
  split; [|split].
  - intros block t H.
    apply parseBlock_Some in H as (body & afterBody & pks & Hb & Hpk & Hc & _).
    exists body, afterBody, pks. split; [done|]. split; [by apply extractBody_spec|].
    done.
  - apply parseLine_parenthesized_type.
  - by vm_compute.
Qed.

(** ** One column a line *)

Lemma length_omap_le {A B} (f : A → option B) (l : list A) :
  (length (omap f l) ≤ length l)%nat.
Proof. induction l as [|x l IH]; cbn; [done|]. destruct (f x); cbn; lia. Qed.

Lemma splitChar_no_sep sep s : sep ∉ s → splitChar sep s = [s].
Proof.
  induction s as [|c s IH]; cbn; [done|].
  rewrite elem_of_cons. intros H.
  destruct (N.eqb_spec c sep) as [->|_]; [destruct H; by left|].
  rewrite IH; [done|]. intros ?. apply H. by right.
Qed.

Lemma splitChar_app_sep sep x s :
  sep ∉ x → splitChar sep (x ++ sep :: s) = x :: splitChar sep s.
Proof.
  induction x as [|c x IH]; cbn.
  - intros _. by rewrite N.eqb_refl.
  - rewrite elem_of_cons. intros H.
    destruct (N.eqb_spec c sep) as [->|_]; [destruct H; by left|].
    rewrite IH; [done|]. intros ?. apply H. by right.
Qed.

Lemma splitChar_join sep decls :
  decls ≠ [] → Forall (λ d, sep ∉ d) decls →
  splitChar sep (join [sep] decls) = decls.
Proof.
  intros Hne Hall. induction Hall as [|d decls Hd Hall IH]; [done|].
  destruct decls as [|d' decls].
  - cbn. by apply splitChar_no_sep.
  - change (join [sep] (d :: d' :: decls)) with (d ++ sep :: join [sep] (d' :: decls)).
    rewrite splitChar_app_sep by done. by rewrite IH.
Qed.

(** C10: the column parser reads a body line by line and pushes at most one
    column a line; a body on one line yields the column of that line alone,
    the first declaration, while declarations on lines of their own are
    parsed each on its own. *)
Theorem one_column_per_line (pks : gset jsstring) :
  (∀ body, ∃ columns,
     parseLines pks (splitChar LF body) [] = Normal columns
     ∧ columns = omap (columnOf pks) (splitChar LF body)
     ∧ (length columns ≤ length (splitChar LF body))%nat
     ∧ (LF ∉ body → columns = option_list (columnOf pks body)))
  ∧ (∀ decls,
       decls ≠ [] → Forall (λ d, LF ∉ d) decls →
       parseLines pks (splitChar LF (join [LF] decls)) []
         = Normal (omap (columnOf pks) decls))
  ∧ parseSQL sqlOneLine = Normal [Tbl.mk (lit "t") (lit "t") [] [columnA]]
  ∧ parseSQL sqlTwoLines = Normal [Tbl.mk (lit "t") (lit "t") [] [columnA; columnB]].
Proof.
  split; [|split; [|split]].
  - intros body. exists (omap (columnOf pks) (splitChar LF body)).
    rewrite parseLines_omap. split; [done|]. split; [done|].
    split; [apply length_omap_le|].
    intros H. rewrite splitChar_no_sep by done. cbn.
    by destruct (columnOf pks body).
  - intros decls Hne Hall. by rewrite splitChar_join, parseLines_omap.
  - by vm_compute.
  - by vm_compute.
Qed.

(** ** The key-provider mapping *)

Section InferenceFacts.
Variable upperCase : jsstring → jsstring.

Lemma registerKey_lookup t m c n :
  registerKey upperCase t m c !! n =
    if isKeyProvider upperCase c && bool_decide (Col.name c = n) then
      if bool_decide (n = lit "CLIENT_NO") && bool_decide (Tbl.name t = lit "cif_client")
      then Some (Tbl.id t)
      else match m !! n with Some x => Some x | None => Some (Tbl.id t) end
    else m !! n.
Proof.
  unfold registerKey, isKeyProvider.
  destruct (Col.isPrimaryKey c); cbn [andb]; [|done].
  destruct (bool_decide (Col.name c ∈ IGNORED_FK_COLUMNS)); cbn [andb negb]; [done|].
  destruct (bool_decide (upperCase (Col.name c) = lit "ID")); cbn [andb negb]; [done|].
  destruct (bool_decide_reflect (Col.name c = n)) as [<-|Hne].
  - destruct (bool_decide (Col.name c = lit "CLIENT_NO")
              && bool_decide (Tbl.name t = lit "cif_client")).
    + by rewrite lookup_insert_eq.
    + destruct (m !! Col.name c) as [x|] eqn:E.
      * rewrite bool_decide_eq_true_2 by eauto. cbn. done.
      * rewrite bool_decide_eq_false_2 by (intros [? ?]; congruence). cbn.
        by rewrite lookup_insert_eq.
  - destruct (bool_decide (Col.name c = lit "CLIENT_NO")
              && bool_decide (Tbl.name t = lit "cif_client")).
    + by rewrite lookup_insert_ne.
    + destruct (negb _); [by rewrite lookup_insert_ne|done].
Qed.

Lemma foldl_registerKey t cols : ∀ m n,
  foldl (registerKey upperCase t) m cols !! n =
    if bool_decide (n = lit "CLIENT_NO") && bool_decide (Tbl.name t = lit "cif_client")
       && existsb (λ c, isKeyProvider upperCase c && bool_decide (Col.name c = n)) cols
    then Some (Tbl.id t)
    else match m !! n with
         | Some x => Some x
         | None =>
             if existsb (λ c, isKeyProvider upperCase c && bool_decide (Col.name c = n)) cols
             then Some (Tbl.id t) else None
         end.
Proof.
  induction cols as [|c cols IH]; intros m n; cbn [foldl existsb].
  - rewrite andb_false_r. by destruct (m !! n).
  - rewrite IH, registerKey_lookup.
    destruct (isKeyProvider upperCase c && bool_decide (Col.name c = n)),
      (bool_decide (n = lit "CLIENT_NO") && bool_decide (Tbl.name t = lit "cif_client")),
      (existsb _ cols), (m !! n); done.
Qed.

Lemma buildPkMap_from tables : ∀ m n,
  foldl (λ pkMap t, foldl (registerKey upperCase t) pkMap (Tbl.columns t)) m tables !! n =
    match last (List.filter (isClientMaster upperCase n) tables) with
    | Some t => Some (Tbl.id t)
    | None =>
        match m !! n with
        | Some x => Some x
        | None => Tbl.id <$> head (List.filter (declaresKey upperCase n) tables)
        end
    end.
Proof.
  induction tables as [|t tables IH]; intros m n; cbn [foldl List.filter].
  - cbn. by destruct (m !! n).
  - rewrite IH, foldl_registerKey.
    change (existsb _ (Tbl.columns t)) with (declaresKey upperCase n t).
    change (_ && _ && declaresKey upperCase n t) with (isClientMaster upperCase n t).
    destruct (isClientMaster upperCase n t) eqn:Ec.
    + rewrite last_cons. by destruct (last _).
    + destruct (last _); [done|].
      destruct (m !! n); [done|]. by destruct (declaresKey upperCase n t).
Qed.

(** The mapping gives every name its owner. *)
Lemma buildPkMap_owner tables n :
  buildPkMap upperCase tables !! n = keyOwner upperCase tables n.
Proof. unfold buildPkMap, keyOwner. rewrite buildPkMap_from. by rewrite lookup_empty. Qed.

Lemma declaresKey_true n t :
  declaresKey upperCase n t = true →
  ∃ c, c ∈ Tbl.columns t ∧ Col.name c = n ∧ Col.isPrimaryKey c = true
       ∧ (Col.name c ∉ IGNORED_FK_COLUMNS) ∧ upperCase (Col.name c) ≠ lit "ID".
Proof.
  unfold declaresKey. rewrite existsb_exists. intros (c & Hin & Hc).
  exists c. apply list_elem_of_In in Hin. unfold isKeyProvider in Hc.
  rewrite !andb_true_iff, !negb_true_iff, !bool_decide_eq_false, bool_decide_eq_true in Hc.
  destruct Hc as [[[? ?] ?] ?]. auto.
Qed.

Lemma keyOwner_Some tables n owner :
  keyOwner upperCase tables n = Some owner →
  ∃ t, t ∈ tables ∧ Tbl.id t = owner ∧ declaresKey upperCase n t = true.
Proof.
  unfold keyOwner. destruct (last _) as [t|] eqn:El.
  - intros [= <-]. apply last_Some_elem_of, list_elem_of_In, filter_In in El as [Hin Hc].
    exists t. apply list_elem_of_In in Hin. unfold isClientMaster in Hc.
    apply andb_true_iff in Hc as [_ Hc]. done.
  - destruct (head _) as [t|] eqn:Eh; [|done]. intros [= <-].
    apply head_Some_elem_of, list_elem_of_In, filter_In in Eh as [Hin Hc].
    exists t. by apply list_elem_of_In in Hin.
Qed.
End InferenceFacts.

(** C4: a column name is registered to a table only when the column is a
    primary key, is not in the exclusion set and is not named ID in any
    case; the first table of the schema that qualifies owns the name, except
    that a table named cif_client that qualifies for CLIENT_NO owns
    CLIENT_NO wherever it stands in the schema. *)
Theorem key_owner_first_or_client_master (upperCase : jsstring → jsstring)
    (tables : list TableDefinition) (n : jsstring) :
  buildPkMap upperCase tables !! n = keyOwner upperCase tables n
  ∧ (∀ owner,
       buildPkMap upperCase tables !! n = Some owner →
       ∃ t c, t ∈ tables ∧ c ∈ Tbl.columns t ∧ Tbl.id t = owner ∧ Col.name c = n
              ∧ Col.isPrimaryKey c = true ∧ (n ∉ IGNORED_FK_COLUMNS)
              ∧ upperCase n ≠ lit "ID")
  ∧ ((∀ t, t ∈ tables → isClientMaster upperCase n t = false) →
       buildPkMap upperCase tables !! n
         = Tbl.id <$> head (List.filter (declaresKey upperCase n) tables))
  ∧ (∀ t,
       t ∈ tables → n = lit "CLIENT_NO" → Tbl.name t = lit "cif_client" →
       declaresKey upperCase n t = true →
       (∀ t', t' ∈ tables → Tbl.name t' = lit "cif_client" → Tbl.id t' = Tbl.id t) →
       buildPkMap upperCase tables !! n = Some (Tbl.id t)).
Proof.
  split; [apply buildPkMap_owner|]. split; [|split].
  - intros owner. rewrite buildPkMap_owner. intros H.
    apply keyOwner_Some in H as (t & Hin & Hid & Hd).
    apply declaresKey_true in Hd as (c & Hc & Hn & Hpk & Hig & Hup).
    exists t, c. rewrite Hn in Hig, Hup. auto 10.
  - intros Hnone. rewrite buildPkMap_owner. unfold keyOwner.
    destruct (last _) as [t|] eqn:El; [|done].
    apply last_Some_elem_of, list_elem_of_In, filter_In in El as [Hin Hc].
    apply list_elem_of_In in Hin. rewrite (Hnone t Hin) in Hc. done.
  - intros t Hin Hn Hname Hd Huniq. rewrite buildPkMap_owner. unfold keyOwner.
    destruct (last _) as [t'|] eqn:El.
    + apply last_Some_elem_of, list_elem_of_In, filter_In in El as [Hin' Hc].
      apply list_elem_of_In in Hin'. f_equal. apply Huniq; [done|].
      unfold isClientMaster in Hc. rewrite !andb_true_iff in Hc.
      destruct Hc as [[_ Hc] _]. by apply bool_decide_eq_true in Hc.
    + apply last_None in El.
      assert (In t (List.filter (isClientMaster upperCase n) tables)) as Hf.
      { apply filter_In. split; [by apply list_elem_of_In|].
        unfold isClientMaster. by rewrite Hd, !bool_decide_eq_true_2. }
      rewrite El in Hf. destruct Hf.
Qed.

(** ** The edges *)

Section EdgeFacts.
Variable upperCase : jsstring → jsstring.

Lemma inferEdge_guarded pkMap t newEdges c :
  inferEdge pkMap t newEdges c = newEdges ++ option_list (guardedEdge pkMap t c).
Proof.
  unfold inferEdge, guardedEdge.
  destruct (bool_decide (Col.name c ∈ IGNORED_FK_COLUMNS)); [by rewrite app_nil_r|].
  destruct (pkMap !! Col.name c) as [owner|]; [|by rewrite app_nil_r].
  unfold truthyString.
  destruct (bool_decide_reflect (owner = [])) as [Hnil|Hne],
           (bool_decide_reflect (owner = Tbl.id t)) as [Heq|Hneq]; cbn [negb andb].
  - rewrite bool_decide_eq_false_2 by (intros [? ?]; done). by rewrite app_nil_r.
  - rewrite bool_decide_eq_false_2 by (intros [? ?]; done). by rewrite app_nil_r.
  - rewrite bool_decide_eq_false_2 by (intros [? ?]; done). by rewrite app_nil_r.
  - by rewrite bool_decide_eq_true_2.
Qed.

Lemma foldl_inferEdge pkMap t cols : ∀ newEdges,
  foldl (inferEdge pkMap t) newEdges cols = newEdges ++ omap (guardedEdge pkMap t) cols.
Proof.
  induction cols as [|c cols IH]; intros newEdges; cbn [foldl omap list_omap].
  - by rewrite app_nil_r.
  - rewrite IH, inferEdge_guarded. cbn. rewrite <- app_assoc.
    by destruct (guardedEdge pkMap t c).
Qed.

Lemma foldl_inferEdges pkMap tables : ∀ newEdges,
  foldl (λ newEdges t, foldl (inferEdge pkMap t) newEdges (Tbl.columns t)) newEdges tables
    = newEdges ++ (tables ≫= λ t, omap (guardedEdge pkMap t) (Tbl.columns t)).
Proof.
  induction tables as [|t tables IH]; intros newEdges; cbn [foldl].
  - by rewrite app_nil_r.
  - rewrite IH, foldl_inferEdge. csimpl. by rewrite <- app_assoc.
Qed.

(** The edges are those of the pairs that pass the checks, one for each
    and in their order. *)
Lemma inferEdges_guarded tables :
  inferEdges upperCase tables = guardedEdges upperCase tables.
Proof. unfold inferEdges, guardedEdges. by rewrite foldl_inferEdges. Qed.

Lemma guardedEdge_Some pkMap t c e :
  guardedEdge pkMap t c = Some e ↔
  (Col.name c ∉ IGNORED_FK_COLUMNS)
  ∧ ∃ owner, pkMap !! Col.name c = Some owner ∧ owner ≠ [] ∧ owner ≠ Tbl.id t
             ∧ e = mkEdge t c owner.
Proof.
  unfold guardedEdge.
  destruct (bool_decide_reflect (Col.name c ∈ IGNORED_FK_COLUMNS)) as [Hig|Hig].
  { split; [done|]. by intros [? _]. }
  destruct (pkMap !! Col.name c) as [owner|].
  2:{ split; [done|]. by intros [_ (? & ? & _)]. }
  destruct (bool_decide_reflect (owner ≠ [] ∧ owner ≠ Tbl.id t)) as [[H1 H2]|Hn].
  - split.
    + intros [= <-]. eauto 10.
    + intros [_ (o & [= <-] & _ & _ & ->)]. done.
  - split; [done|]. intros [_ (o & [= <-] & H1 & H2 & _)]. destruct Hn. done.
Qed.

Lemma inferEdges_elem tables e :
  e ∈ inferEdges upperCase tables ↔
  ∃ t c, t ∈ tables ∧ c ∈ Tbl.columns t
         ∧ guardedEdge (buildPkMap upperCase tables) t c = Some e.
Proof.
  rewrite inferEdges_guarded. unfold guardedEdges. rewrite list_elem_of_bind. split.
  - intros (t & He & Ht). apply list_elem_of_omap in He as (c & Hc & He). eauto.
  - intros (t & c & Ht & Hc & He). exists t. split; [|done].
    apply list_elem_of_omap. eauto.
Qed.
End EdgeFacts.

(** The edges as the code computes them: one for every (table, column)
    pair whose column is not excluded, whose name is a key of the mapping and
    whose owning table has an id that is not the empty string and differs from
    the id of the current table. *)
Lemma inferEdges_guarded_elem (upperCase : jsstring → jsstring)
    (tables : list TableDefinition) (e : Edge) :
  e ∈ inferEdges upperCase tables ↔
  ∃ t c owner,
    t ∈ tables ∧ c ∈ Tbl.columns t
    ∧ (Col.name c ∉ IGNORED_FK_COLUMNS)
    ∧ buildPkMap upperCase tables !! Col.name c = Some owner
    ∧ owner ≠ [] ∧ owner ≠ Tbl.id t
    ∧ e = mkEdge t c owner.
Proof.
  rewrite inferEdges_elem. split.
  - intros (t & c & Ht & Hc & He).
    apply guardedEdge_Some in He as (Hig & owner & Ho & H1 & H2 & ->).
    exists t, c, owner. auto 10.
  - intros (t & c & owner & Ht & Hc & Hig & Ho & H1 & H2 & ->).
    exists t, c. split; [done|]. split; [done|].
    apply guardedEdge_Some. eauto 10.
Qed.

(** The guard on the owning table tests its id for truthiness.  A table
    whose id is the empty string, which the parser never produces, owns a key
    without getting an edge. *)
Lemma empty_id_owner_gives_no_edge :
  inferEdges toUpperCase [tableNoId; tableT2] ≠ statedEdges toUpperCase [tableNoId; tableT2].
Proof. by vm_compute. Qed.

(** C5: no edge is produced via a column whose name is in the exclusion
    set: every edge carries the name of a column of its source table that is
    not excluded, whatever the primary keys of the schema are. *)
Theorem no_edge_via_ignored_column (upperCase : jsstring → jsstring)
    (tables : list TableDefinition) (e : Edge) :
  e ∈ inferEdges upperCase tables →
  (∃ t c, t ∈ tables ∧ c ∈ Tbl.columns t
          ∧ Edge.source e = Tbl.id t
          ∧ Edge.sourceHandle e = Col.name c ++ lit "-source"
          ∧ Edge.targetHandle e = Col.name c ++ lit "-target"
          ∧ (Col.name c ∉ IGNORED_FK_COLUMNS))
  ∧ (∀ n, Edge.sourceHandle e = n ++ lit "-source" → n ∉ IGNORED_FK_COLUMNS)
  ∧ (∀ n, Edge.targetHandle e = n ++ lit "-target" → n ∉ IGNORED_FK_COLUMNS)
  ∧ inferEdges toUpperCase [tableCompanyKey; tableCompanyRef] = [].
Proof.
  intros He. apply inferEdges_elem in He as (t & c & Ht & Hc & He).
  apply guardedEdge_Some in He as (Hig & owner & _ & _ & _ & ->).
  split; [exists t, c; by auto 10|]. cbn.
  split; [|split; [|by vm_compute]].
  - intros n Hn. apply app_inv_tail in Hn. by subst.
  - intros n Hn. apply app_inv_tail in Hn. by subst.
Qed.

(** ** The highlight *)

Lemma highlightNode_id sel adj n : Node.id (highlightNode sel adj n) = Node.id n.
Proof. unfold highlightNode. by destruct (_ && _). Qed.

Lemma highlightNode_dimmed sel adj n :
  nodeDimmed (highlightNode sel adj n) =
    bool_decide (sel ≠ None) && negb (isSelectedId sel (Node.id n))
    && negb (truthy (isNeighborOf sel adj (Node.id n))).
Proof.
  unfold highlightNode, nodeDimmed.
  destruct (bool_decide_reflect (Node.selected n = VBool (isSelectedId sel (Node.id n))));
    cbn [andb]; [|done].
  destruct (bool_decide_reflect (Node.dimmed n = VBool
    (bool_decide (sel ≠ None) && negb (isSelectedId sel (Node.id n))
     && negb (truthy (isNeighborOf sel adj (Node.id n)))))) as [->|]; done.
Qed.

Lemma truthy_isNeighborOf sel adj i :
  truthy (isNeighborOf sel adj i) = true ↔
  ∃ s, sel = Some s ∧ s ≠ [] ∧ adjacentTo adj s i.
Proof.
  unfold isNeighborOf, truthyString, adjacentTo. destruct sel as [s|].
  2:{ split; [done|]. by intros (? & ? & _). }
  destruct (bool_decide_reflect (s = [])) as [->|Hne]; cbn [negb].
  { split; [done|]. by intros (? & [= <-] & ? & _). }
  destruct (adj !! s) as [ns|] eqn:E; cbn.
  - rewrite bool_decide_eq_true. split.
    + intros Hin. exists s. eauto.
    + intros (s' & [= <-] & _ & ns' & Hns & Hin). by simplify_eq.
  - split; [done|]. intros (s' & [= <-] & _ & ns' & Hns & _). congruence.
Qed.

Lemma shouldDim_node sel adj i :
  bool_decide (sel ≠ None) && negb (isSelectedId sel i)
  && negb (truthy (isNeighborOf sel adj i)) = true ↔
  ∃ s, sel = Some s ∧ i ≠ s ∧ ¬ (s ≠ [] ∧ adjacentTo adj s i).
Proof.
  rewrite !andb_true_iff, !negb_true_iff, bool_decide_eq_true.
  unfold isSelectedId. rewrite bool_decide_eq_false.
  rewrite <- not_true_iff_false, truthy_isNeighborOf. split.
  - intros [[Hsel Hne] Hadj]. destruct sel as [s|]; [|done].
    exists s. split; [done|]. split; [congruence|].
    intros [? ?]. apply Hadj. eauto.
  - intros (s & -> & Hne & Hadj). split; [split; [done|congruence]|].
    intros (s' & [= <-] & ? & ?). apply Hadj. eauto.
Qed.

Lemma highlightEdge_ends sel e :
  Edge.source (highlightEdge sel e) = Edge.source e
  ∧ Edge.target (highlightEdge sel e) = Edge.target e.
Proof. unfold highlightEdge. by destruct (_ && _). Qed.

Lemma opacity_exclusive o : opacityIs o 1%Q = true → opacityIs o 0.2%Q = false.
Proof.
  destruct o as [p|]; cbn; [|done]. rewrite Qeq_bool_iff. intros H.
  apply not_true_iff_false. rewrite Qeq_bool_iff. intros H2.
  rewrite H in H2. discriminate H2.
Qed.

Lemma highlightEdge_emphasized sel e :
  edgeEmphasized (highlightEdge sel e) = truthy (isConnectedTo sel e).
Proof.
  unfold highlightEdge, edgeEmphasized.
  destruct (bool_decide_reflect (Edge.animated e = isConnectedTo sel e)) as [Ha|];
    cbn [andb].
  2:{ cbn. by destruct (truthy (isConnectedTo sel e)). }
  destruct (bool_decide_reflect (Edge.stroke e =
              if truthy (isConnectedTo sel e) then lit "#3b82f6" else lit "#cbd5e1"))
    as [Hs|]; cbn [andb].
  2:{ cbn. by destruct (truthy (isConnectedTo sel e)). }
  destruct (bool_decide_reflect (Edge.strokeWidth e =
              if truthy (isConnectedTo sel e) then 3%Z else 1%Z)) as [Hw|]; cbn [andb].
  2:{ cbn. by destruct (truthy (isConnectedTo sel e)). }
  destruct (opacityIs _ _ && _ && _).
  - rewrite Ha, Hs, Hw. by destruct (truthy (isConnectedTo sel e)).
  - cbn. by destruct (truthy (isConnectedTo sel e)).
Qed.

Lemma highlightEdge_dimmed sel e :
  edgeDimmed (highlightEdge sel e) =
    bool_decide (sel ≠ None) && negb (truthy (isConnectedTo sel e)).
Proof.
  unfold highlightEdge, edgeDimmed.
  set (shouldDim := bool_decide (sel ≠ None) && negb (truthy (isConnectedTo sel e))).
  destruct (bool_decide (Edge.animated e = _)); cbn [andb]; [|by destruct shouldDim].
  destruct (bool_decide (Edge.stroke e = _)); cbn [andb]; [|by destruct shouldDim].
  destruct (bool_decide (Edge.strokeWidth e = _)); cbn [andb]; [|by destruct shouldDim].
  destruct (opacityIs (Edge.opacity e) (if shouldDim then 0.2%Q else 1%Q)) eqn:Eo;
    cbn [andb]; [|by destruct shouldDim].
  destruct (bool_decide (Edge.markerColor e = _) && _); [|by destruct shouldDim].
  destruct shouldDim; [done|]. by apply opacity_exclusive.
Qed.

Lemma truthy_isConnectedTo sel e :
  truthy (isConnectedTo sel e) = true ↔
  ∃ s, sel = Some s ∧ s ≠ [] ∧ (Edge.source e = s ∨ Edge.target e = s).
Proof.
  unfold isConnectedTo, truthyString. destruct sel as [s|].
  2:{ split; [done|]. by intros (? & ? & _). }
  destruct (bool_decide_reflect (s = [])) as [->|Hne]; cbn [negb truthy].
  { rewrite bool_decide_eq_true_2 by done. split; [done|]. by intros (? & [= <-] & ? & _). }
  rewrite orb_true_iff, !bool_decide_eq_true. split.
  - intros H. exists s. auto.
  - by intros (s' & [= <-] & _ & H).
Qed.

(** After the highlight effect the flags are what the selection and the
    Adjacency Index make them. *)
Lemma highlightEffect_guarded d : guardedHighlight (highlightEffect d).
Proof.
  assert (Hn : ∀ n, n ∈ nodes (highlightEffect d) →
     (nodeDimmed n = true ↔
      ∃ s, selectedNodeId d = Some s ∧ Node.id n ≠ s
           ∧ ¬ (s ≠ [] ∧ adjacentTo (adjacency d) s (Node.id n)))).
  { intros n Hin. cbn in Hin. apply list_elem_of_fmap in Hin as (n0 & -> & _).
    rewrite highlightNode_dimmed, highlightNode_id. apply shouldDim_node. }
  assert (He : ∀ e, e ∈ edges (highlightEffect d) →
     (edgeEmphasized e = true ↔
        ∃ s, selectedNodeId d = Some s ∧ s ≠ []
             ∧ (Edge.source e = s ∨ Edge.target e = s))
     ∧ (edgeDimmed e = true ↔ selectedNodeId d ≠ None ∧ edgeEmphasized e = false)).
  { intros e Hin. cbn in Hin. apply list_elem_of_fmap in Hin as (e0 & -> & _).
    rewrite highlightEdge_emphasized, highlightEdge_dimmed.
    destruct (highlightEdge_ends (selectedNodeId d) e0) as [-> ->].
    split; [apply truthy_isConnectedTo|].
    rewrite andb_true_iff, negb_true_iff, bool_decide_eq_true. done. }
  split; [exact Hn|]. split; [intros e Hin; by apply He|].
  split; [intros e Hin; by apply He|].
  cbn [selectedNodeId highlightEffect]. intros Hsel. split.
  - intros n Hin. apply not_true_iff_false. intros Hd.
    apply Hn in Hd as (s & Hs & _); [congruence|done].
  - intros e Hin. apply not_true_iff_false. intros Hd.
    apply He in Hd as [Hs _]; done.
Qed.

(** ** The selection machine *)

Lemma render_fingerprint d : topologyFingerprint (render d) = topologyFingerprintOf (edges d).
Proof.
  unfold render.
  by destruct (bool_decide_reflect (topologyFingerprintOf (edges d) = topologyFingerprint d)).
Qed.

Lemma render_edges d : edges (render d) = edges d.
Proof. unfold render. by destruct (bool_decide _). Qed.

Lemma render_selectedNodeId d : selectedNodeId (render d) = selectedNodeId d.
Proof. unfold render. by destruct (bool_decide _). Qed.

(** A render that keeps the fingerprint keeps everything. *)
Lemma render_same d : topologyFingerprint (render d) = topologyFingerprint d → render d = d.
Proof.
  unfold render.
  destruct (bool_decide_reflect (topologyFingerprintOf (edges d) = topologyFingerprint d));
    [done|]. cbn. done.
Qed.

(** Restyling the edges does not change the fingerprint. *)
Lemma fingerprint_highlightEdge sel es :
  topologyFingerprintOf (highlightEdge sel <$> es) = topologyFingerprintOf es.
Proof.
  unfold topologyFingerprintOf. rewrite <- list_fmap_compose. do 2 f_equal.
  apply list_fmap_ext. intros _ e _. cbn.
  by destruct (highlightEdge_ends sel e) as [-> ->].
Qed.

Lemma render_highlightEffect d :
  topologyFingerprint d = topologyFingerprintOf (edges d) →
  render (highlightEffect d) = highlightEffect d.
Proof.
  intros H. apply render_same. rewrite render_fingerprint.
  cbn [highlightEffect edges topologyFingerprint].
  by rewrite fingerprint_highlightEdge.
Qed.

(** Settling re-establishes the highlight, provided the state was already
    right whenever the effect has no reason to run. *)
Lemma settle_guarded before d :
  (selectedNodeId d = selectedNodeId before →
   topologyFingerprint (render d) = topologyFingerprint before →
   guardedHighlight (render d)) →
  guardedHighlight (settle before d).
Proof.
  intros H. unfold settle.
  destruct (bool_decide_reflect (selectedNodeId (render d) = selectedNodeId before)) as [Hs|];
    cbn [andb].
  - destruct (bool_decide_reflect (topologyFingerprint (render d) = topologyFingerprint before)).
    + apply H; [by rewrite <- render_selectedNodeId|done].
    + rewrite render_highlightEffect; [apply highlightEffect_guarded|].
      by rewrite render_fingerprint, render_edges.
  - rewrite render_highlightEffect; [apply highlightEffect_guarded|].
    by rewrite render_fingerprint, render_edges.
Qed.

Lemma setSelectedNodeId_same d : setSelectedNodeId (selectedNodeId d) d = d.
Proof. by destruct d. Qed.

Lemma select_guarded sel d :
  guardedHighlight d → guardedHighlight (settle d (setSelectedNodeId sel d)).
Proof.
  intros Hd. apply settle_guarded. cbn [selectedNodeId setSelectedNodeId].
  intros -> Hfp. rewrite render_same; [by rewrite setSelectedNodeId_same|].
  by rewrite Hfp.
Qed.

Section MachineFacts.
Variable upperCase : jsstring → jsstring.

(** Fresh nodes and edges under no selection carry no highlight. *)
Lemma fresh_guarded tables fingerprint adj :
  guardedHighlight
    (mkDiagram (getLayoutedNodes tables) (inferEdges upperCase tables) None fingerprint adj).
Proof.
  assert (Hn : ∀ n, n ∈ getLayoutedNodes tables → nodeDimmed n = false).
  { intros n Hin. apply list_elem_of_fmap in Hin as (t & -> & _). done. }
  assert (He : ∀ e, e ∈ inferEdges upperCase tables →
                    edgeEmphasized e = false ∧ edgeDimmed e = false).
  { intros e Hin. apply inferEdges_elem in Hin as (t & c & _ & _ & Hg).
    apply guardedEdge_Some in Hg as (_ & owner & _ & _ & _ & ->). done. }
  unfold guardedHighlight. cbn [nodes edges selectedNodeId adjacency].
  split; [|split; [|split]].
  - intros n Hin. rewrite (Hn n Hin). split; [done|]. by intros (? & ? & _).
  - intros e Hin. destruct (He e Hin) as [-> _]. split; [done|]. by intros (? & ? & _).
  - intros e Hin. destruct (He e Hin) as [_ ->]. split; [done|]. by intros [? _].
  - intros _. split; [done|]. intros e Hin. by apply He.
Qed.

Lemma mount_guarded tables : guardedHighlight (mount upperCase tables).
Proof.
  unfold mount. apply settle_guarded. intros _ Hfp.
  rewrite render_same; [apply highlightEffect_guarded|]. by rewrite Hfp.
Qed.

Lemma tablesChanged_guarded tables d :
  guardedHighlight (tablesChanged upperCase tables d).
Proof.
  unfold tablesChanged. apply settle_guarded. intros _ Hfp.
  rewrite render_same; [apply fresh_guarded|]. by rewrite Hfp.
Qed.

Lemma reachable_guarded d : reachable upperCase d → guardedHighlight d.
Proof.
  induction 1 as [tables|tables d _ _|node d _ IH _|d _ IH].
  - apply mount_guarded.
  - apply tablesChanged_guarded.
  - by apply select_guarded.
  - by apply select_guarded.
Qed.
End MachineFacts.

Lemma diagramNoId_facts :
  selectedNodeId diagramNoId = Some []
  ∧ edgeEmphasized <$> edges diagramNoId = [false]
  ∧ Edge.source <$> edges diagramNoId = [[]]
  ∧ nodes (mount toUpperCase [tableT1; tableNoIdRef]) !! 1%nat = Some nodeNoId.
Proof. by vm_compute. Qed.

(** The highlight tests the selected id for truthiness.  When the selected
    node has the empty string as id, which no table of the parser has, the
    edge that leaves it is not emphasized. *)
Lemma empty_id_selection_is_not_emphasized :
  reachable toUpperCase diagramNoId ∧ ¬ statedHighlight diagramNoId.
Proof.
  destruct diagramNoId_facts as (Hsel & Hemph & Hsrc & Hnode). split.
  - apply reach_node; [apply reach_mount|].
    apply list_elem_of_lookup. exists 1%nat. exact Hnode.
  - unfold statedHighlight. revert Hemph Hsrc.
    destruct (edges diagramNoId) as [|e es]; [discriminate|].
    intros [= Hemph _] [= Hsrc _] (_ & He & _).
    assert (edgeEmphasized e = true) as Ht; [|congruence].
    apply He; [left|]. exists []. split; [exact Hsel|]. by left.
Qed.

(** ** Schemas of the parser

    The id of a table the parser produces is a [\w+] capture: it is never
    the empty string, and on such schemas the guards on the empty id are
    never met. *)

Lemma parseBlock_id_word block t :
  parseBlock block = Normal (Some t) → Tbl.id t ≠ [] ∧ allOf isWordChar (Tbl.id t).
Proof.
  intros H. apply parseBlock_Some in H as (_ & _ & _ & _ & _ & _ & Hid & m & Hm & Hg).
  rewrite Hid. rewrite matchAt_reTableName in Hm.
  destruct (quotedWord _) as [[g rest]|] eqn:E; [|done].
  injection Hm as <-. cbn in Hg. injection Hg as <-.
  apply quotedWord_Some in E as (Hne & Hall & _). done.
Qed.

Lemma parseSQL_ids sql tables t :
  parseSQL sql = Normal tables → t ∈ tables →
  Tbl.id t ≠ [] ∧ allOf isWordChar (Tbl.id t).
Proof.
  intros Hp Ht. destruct (parseSQL_table _ _ _ Hp Ht) as (block & _ & Hb).
  by apply (parseBlock_id_word block).
Qed.

Lemma bind_pointwise {A B} (f g : A → list B) (l : list A) :
  (∀ x, x ∈ l → f x = g x) → l ≫= f = l ≫= g.
Proof.
  induction l as [|x l IH]; intros H; csimpl; [done|].
  rewrite (H x) by apply list_elem_of_here. f_equal. apply IH.
  intros y Hy. apply H. by apply list_elem_of_further.
Qed.

Lemma omap_pointwise {A B} (f g : A → option B) (l : list A) :
  (∀ x, f x = g x) → omap f l = omap g l.
Proof. intros H. induction l as [|x l IH]; cbn; [done|]. by rewrite H, IH. Qed.

(** On a schema without empty id the edges are those of the pairs as the
    specification words them. *)
Lemma inferEdges_stated upperCase tables :
  (∀ t, t ∈ tables → Tbl.id t ≠ []) →
  inferEdges upperCase tables = statedEdges upperCase tables.
Proof.
  intros Hids. rewrite inferEdges_guarded. unfold guardedEdges, statedEdges.
  apply bind_pointwise. intros t _. apply omap_pointwise. intros c.
  unfold guardedEdge, statedEdge.
  destruct (bool_decide (Col.name c ∈ IGNORED_FK_COLUMNS)); [done|].
  destruct (buildPkMap upperCase tables !! Col.name c) as [owner|] eqn:E; [|done].
  rewrite buildPkMap_owner in E. apply keyOwner_Some in E as (t' & Hin & <- & _).
  specialize (Hids t' Hin).
  destruct (bool_decide_reflect (Tbl.id t' ≠ Tbl.id t)).
  - by rewrite bool_decide_eq_true_2.
  - rewrite bool_decide_eq_false_2; [done|]. by intros [_ ?].
Qed.

Lemma inferEdges_stated_of_parseSQL upperCase sql tables :
  parseSQL sql = Normal tables →
  inferEdges upperCase tables = statedEdges upperCase tables.
Proof.
  intros Hp. apply inferEdges_stated. intros t Ht.
  by destruct (parseSQL_ids _ _ _ Hp Ht).
Qed.

(** C3: for every schema of the parser, the only schemas the diagram is
    given, the inference emits exactly one edge for every (table, column) pair
    whose column is not excluded, whose name is a key of the mapping and whose
    owning table differs from the current table, in schema order and without
    removing duplicates; the edge runs from the current table to the owning
    table and carries the column name, and no edge joins a table to itself.
    Two columns of one table that refer to keys of the same table give two
    edges. *)
Theorem one_edge_per_matching_column (upperCase : jsstring → jsstring)
    (tables : list TableDefinition) :
  parsed tables →
  inferEdges upperCase tables = statedEdges upperCase tables
  ∧ (∀ e, e ∈ inferEdges upperCase tables ↔
       ∃ t c owner,
         t ∈ tables ∧ c ∈ Tbl.columns t
         ∧ (Col.name c ∉ IGNORED_FK_COLUMNS)
         ∧ buildPkMap upperCase tables !! Col.name c = Some owner
         ∧ owner ≠ Tbl.id t
         ∧ e = mkEdge t c owner)
  ∧ (∀ t c owner,
       Edge.source (mkEdge t c owner) = Tbl.id t
       ∧ Edge.target (mkEdge t c owner) = owner
       ∧ Edge.sourceHandle (mkEdge t c owner) = Col.name c ++ lit "-source"
       ∧ Edge.targetHandle (mkEdge t c owner) = Col.name c ++ lit "-target")
  ∧ (∀ e, e ∈ inferEdges upperCase tables → Edge.source e ≠ Edge.target e)
  ∧ inferEdges toUpperCase [tableTwoKeys; tableTwoRefs]
      = [mkEdge tableTwoRefs (Col.mk (lit "A") (lit "int") [] false true) (lit "t1");
         mkEdge tableTwoRefs (Col.mk (lit "B") (lit "int") [] false true) (lit "t1")].
Proof.
  intros [sql Hp].
  split; [by apply (inferEdges_stated_of_parseSQL upperCase sql)|].
  split; [|split; [done|split; [|by vm_compute]]].
  - intros e. rewrite inferEdges_guarded_elem. split.
    + intros (t & c & owner & Ht & Hc & Hig & Ho & _ & Hne & ->).
      exists t, c, owner. auto 10.
    + intros (t & c & owner & Ht & Hc & Hig & Ho & Hne & ->).
      exists t, c, owner. split; [done|]. split; [done|]. split; [done|].
      split; [done|]. split; [|done].
      pose proof Ho as Ho'. rewrite buildPkMap_owner in Ho'.
      apply keyOwner_Some in Ho' as (t' & Ht' & <- & _).
      by destruct (parseSQL_ids _ _ _ Hp Ht').
  - intros e He. apply inferEdges_guarded_elem in He
      as (t & c & owner & _ & _ & _ & _ & _ & Hne & ->).
    cbn. congruence.
Qed.

(** With a selected id that is not the empty string the highlight is as the
    specification words it. *)
Lemma guardedHighlight_stated d :
  guardedHighlight d → selectedNodeId d ≠ Some [] → statedHighlight d.
Proof.
  intros (Hn & He & Hd & Hnone) Hsel. split; [|split; [|split]]; [| |done|done].
  - intros n Hin. rewrite (Hn n Hin). split.
    + intros (s & Hs & Hne & Hadj). exists s. split; [done|]. split; [done|].
      intros Ha. apply Hadj. split; [|done]. intros ->. by apply Hsel.
    + intros (s & Hs & Hne & Hadj). exists s. split; [done|]. split; [done|].
      intros [_ Ha]. by apply Hadj.
  - intros e Hin. rewrite (He e Hin). split.
    + intros (s & Hs & _ & Hends). eauto.
    + intros (s & Hs & Hends). exists s. split; [done|]. split; [|done].
      intros ->. by apply Hsel.
Qed.

(** ** The application *)

(** [handleParse] keeps the schema, the view and the input on both of its
    error paths and sets the message of the path. *)
Lemma handleParse_keeps_schema
    (parse : jsstring → completion (list TableDefinition)) (st : App) :
  (parse (sqlInput st) = Normal [] →
     handleParseWith parse st
       = mkApp (sqlInput st) (parsedTables st) (viewMode st)
           (Some (lit "No tables found in the provided SQL.")))
  ∧ (parse (sqlInput st) = Throw →
       handleParseWith parse st
         = mkApp (sqlInput st) (parsedTables st) (viewMode st)
             (Some (lit "Failed to parse SQL. Please check the syntax."))).
Proof. unfold handleParseWith. split; by intros ->. Qed.

(** C8 at a file without tables: [handleParse] on that text keeps the
    schema on display and sets the message, while [handleFileUpload] puts the
    empty result in the place of the schema and sets no message. *)
Theorem upload_replaces_schema_silently :
  parsedTables appLoaded = [Tbl.mk (lit "t") (lit "t") [] [columnA]]
  ∧ error appLoaded = None
  ∧ parseSQL sqlNoTable = Normal []
  ∧ parsedTables (handleParse (mkApp sqlNoTable (parsedTables appLoaded) EDITOR None))
      = parsedTables appLoaded
  ∧ error (handleParse (mkApp sqlNoTable (parsedTables appLoaded) EDITOR None))
      = Some (lit "No tables found in the provided SQL.")
  ∧ parsedTables (handleFileUpload sqlNoTable appLoaded) = []
  ∧ error (handleFileUpload sqlNoTable appLoaded) = None.
Proof. by vm_compute. Qed.

(** ** The theorems at sample inputs *)

Ltac evaluate := vm_compute; reflexivity.
Ltac differ := let H := fresh in intros H; vm_compute in H; discriminate H.
Ltac decided := apply (bool_decide_unpack _); vm_compute; reflexivity.

Lemma body_ends_at_matching_paren_witness :
  (∃ body afterBody, bodyOf blockDecimal body afterBody)
  ∧ (∃ col, parseLine ∅ (lit "  `AMT` decimal(17, 2) NOT NULL,") = Normal (Some col)
            ∧ Col.type col = lit "decimal(17, 2)").
Proof.
  destruct body_ends_at_matching_paren as (Hbody & Hline & _). split.
  - destruct (Hbody blockDecimal tableDecimal) as (body & afterBody & _ & _ & H & _).
    + evaluate.
    + exists body, afterBody. exact H.
  - destruct (Hline ∅ (lit "  ") (lit "AMT") (lit " ") (lit "decimal") (lit "17, 2")
                (lit " NOT NULL,")) as (col & H & _ & Hty).
    + unfold allOf. decided.
    + differ.
    + unfold allOf. decided.
    + decided.
    + unfold allOf. decided.
    + differ.
    + unfold allOf. decided.
    + differ.
    + decided.
    + exists col. split; [exact H|exact Hty].
Defined.

Lemma isPrimaryKey_iff_in_first_clause_witness :
  parseSQL sqlDecimal = Normal [tableDecimal]
  ∧ ∃ block body afterBody,
      block ∈ tableBlocks sqlDecimal ∧ bodyOf block body afterBody
      ∧ (noPkClause body ∨ ∃ cols, firstPkClause body cols).
Proof.
  assert (Hp : parseSQL sqlDecimal = Normal [tableDecimal]) by evaluate.
  split; [exact Hp|].
  destruct (isPrimaryKey_iff_in_first_clause sqlDecimal [tableDecimal] tableDecimal Hp)
    as (block & body & afterBody & Hin & _ & Hb & Hc & _).
  - apply list_elem_of_here.
  - exists block, body, afterBody. auto.
Defined.

Lemma malformed_blocks_dropped_witness :
  parseBlock blockBad = Normal None ∧ ∃ t, parseBlock blockGood = Normal (Some t).
Proof.
  destruct (malformed_blocks_dropped sqlBroken) as (tables & _ & _ & _ & Hbad & Hgood).
  split.
  - apply Hbad.
    + apply list_elem_of_lookup. exists 0%nat. evaluate.
    + right. right. apply extractBody_None. evaluate.
  - destruct (Hgood blockGood) as (t & Ht & _).
    + apply list_elem_of_lookup. exists 2%nat. evaluate.
    + split.
      * apply reTableName_matches. vm_compute. eexists. reflexivity.
      * exists (lit "y int"), []. apply extractBody_spec. evaluate.
    + exists t. exact Ht.
Defined.

Lemma one_column_per_line_witness :
  parseLines ∅ (splitChar LF (join [LF] [lit "a int,"; lit "b int"])) []
    = Normal (omap (columnOf ∅) [lit "a int,"; lit "b int"])
  ∧ ∃ columns, parseLines ∅ (splitChar LF (lit "a int, b int")) [] = Normal columns
               ∧ columns = option_list (columnOf ∅ (lit "a int, b int")).
Proof.
  destruct (one_column_per_line ∅) as (Hbody & Hdecls & _). split.
  - apply Hdecls; [differ|decided].
  - destruct (Hbody (lit "a int, b int")) as (columns & Hp & _ & _ & Hone).
    exists columns. split; [exact Hp|]. apply Hone. decided.
Defined.

Lemma key_owner_first_or_client_master_witness :
  buildPkMap toUpperCase [tableClientDetail; tableClientMaster] !! lit "CLIENT_NO"
    = Some (lit "cif_client")
  ∧ buildPkMap toUpperCase [tableT1; tableT2] !! lit "A" = Some (lit "t1").
Proof.
  split.
  - destruct (key_owner_first_or_client_master toUpperCase
                [tableClientDetail; tableClientMaster] (lit "CLIENT_NO"))
      as (_ & _ & _ & Hmaster).
    apply (Hmaster tableClientMaster).
    + apply list_elem_of_further, list_elem_of_here.
    + reflexivity.
    + reflexivity.
    + evaluate.
    + intros t' Hin Hname. apply elem_of_cons in Hin as [->|Hin].
      * vm_compute in Hname. discriminate Hname.
      * apply list_elem_of_singleton in Hin as ->. reflexivity.
  - destruct (key_owner_first_or_client_master toUpperCase [tableT1; tableT2] (lit "A"))
      as (_ & Honly & Hfirst & _).
    rewrite Hfirst.
    + evaluate.
    + intros t Hin. apply elem_of_cons in Hin as [->|Hin]; [evaluate|].
      apply list_elem_of_singleton in Hin as ->. evaluate.
Defined.

Lemma edgeT2T1_inferred : edgeT2T1 ∈ inferEdges toUpperCase [tableT1; tableT2].
Proof. apply list_elem_of_lookup. exists 0%nat. evaluate. Qed.

Lemma one_edge_per_matching_column_witness :
  parseSQL sqlLinked = Normal [tableT1; tableT2]
  ∧ inferEdges toUpperCase [tableT1; tableT2] = statedEdges toUpperCase [tableT1; tableT2]
  ∧ edgeT2T1 ∈ inferEdges toUpperCase [tableT1; tableT2]
  ∧ Edge.source edgeT2T1 ≠ Edge.target edgeT2T1.
Proof.
  assert (Hp : parseSQL sqlLinked = Normal [tableT1; tableT2]) by evaluate.
  assert (Hparsed : parsed [tableT1; tableT2]) by (exists sqlLinked; exact Hp).
  destruct (one_edge_per_matching_column toUpperCase [tableT1; tableT2] Hparsed)
    as (Hst & _ & _ & Hloop & _).
  split; [exact Hp|]. split; [exact Hst|].
  split; [exact edgeT2T1_inferred|]. apply Hloop. exact edgeT2T1_inferred.
Defined.

Lemma no_edge_via_ignored_column_witness :
  edgeT2T1 ∈ inferEdges toUpperCase [tableT1; tableT2]
  ∧ lit "A" ∉ IGNORED_FK_COLUMNS.
Proof.
  split; [exact edgeT2T1_inferred|].
  destruct (no_edge_via_ignored_column toUpperCase [tableT1; tableT2] edgeT2T1
              edgeT2T1_inferred) as (_ & Hsrc & _).
  apply Hsrc. reflexivity.
Defined.

(** * Further properties *)

(** ** Dumps without a table *)

Lemma space_not_T c : isWhiteSpace c = true → isCI (ch "T") c = false.
Proof.
  intros H. unfold isCI.
  destruct (canonicalize_spec c) as [[Hc ->]|[Hc ->]];
    change (canonicalize (ch "T")) with 84; apply N.eqb_neq; revert H; class_tac.
Qed.

Lemma matchAt_reCreateTable s :
  is_Some (matchAt reCreateTable s) ↔ createTableAt s.
Proof.
  unfold matchAt, reCreateTable, createTableAt. cbn [RSeqs]. unfold RPlus.
  rewrite exec_RSeq, exec_RLitCI.
  set (K := λ (s' : jsstring) (cap : option jsstring),
         Some (mkMatch (take (length s - length s') s) cap s')).
  assert (Htable : ∀ s' cap,
    exec (RSeq (RLitCI "TABLE") REmpty) s' cap K =
      match stripChars (isCI <$> lit "TABLE") s' with
      | Some s3 => K s3 cap
      | None => None
      end).
  { intros s' cap. by rewrite exec_RSeq, exec_RLitCI. }
  split.
  - destruct (stripChars (isCI <$> lit "CREATE") s) as [s1|] eqn:E1; [|by intros [? ?]].
    apply stripChars_isCI in E1 as (kw1 & -> & Hkw1).
    rewrite !exec_RSeq. destruct s1 as [|c s2]; [by intros [? ?]|].
    rewrite exec_RChar_cons. destruct (isWhiteSpace c) eqn:Ec; [|by intros [? ?]].
    rewrite exec_RStar_disjoint.
    2:{ intros d s' Hd. rewrite Htable.
        change (isCI <$> lit "TABLE") with (isCI (ch "T") :: (isCI <$> lit "ABLE")).
        cbn [stripChars]. by rewrite space_not_T. }
    rewrite Htable.
    destruct (stripChars (isCI <$> lit "TABLE") _) as [s3|] eqn:E3; [|by intros [? ?]].
    apply stripChars_isCI in E3 as (kw2 & E3 & Hkw2). intros _.
    exists kw1, (c :: takeWhile isWhiteSpace s2), kw2, s3.
    split; [|split; [done|split; [done|split; [|done]]]].
    + f_equal. cbn. f_equal. rewrite <- E3. by rewrite takeWhile_dropWhile.
    + constructor; [done|apply takeWhile_all].
  - intros (kw1 & ws & kw2 & rest & -> & Hkw1 & Hne & Hws & Hkw2).
    assert (stripChars (isCI <$> lit "CREATE") (kw1 ++ ws ++ kw2 ++ rest)
            = Some (ws ++ kw2 ++ rest)) as ->.
    { apply stripChars_isCI. eauto. }
    destruct ws as [|c ws]; [done|]. inversion_clear Hws as [|?? Hc Hws'].
    rewrite !exec_RSeq. cbn [app]. rewrite exec_RChar_cons, Hc.
    assert (stripChars (isCI <$> lit "TABLE") (kw2 ++ rest) = Some rest) as Ht.
    { apply stripChars_isCI. eauto. }
    assert (dropWhile isWhiteSpace (ws ++ kw2 ++ rest) = kw2 ++ rest) as Hd.
    { rewrite dropWhile_app by done. destruct (kw2 ++ rest) as [|d r] eqn:E; [done|].
      apply dropWhile_stop. destruct (isWhiteSpace d) eqn:Ed; [|done].
      change (isCI <$> lit "TABLE") with (isCI (ch "T") :: (isCI <$> lit "ABLE")) in Ht.
      cbn [stripChars] in Ht. by rewrite space_not_T in Ht. }
    rewrite exec_RStar_greedy; rewrite Htable, Hd, Ht; by eexists.
Qed.

Lemma search_reCreateTable sql :
  is_Some (search reCreateTable sql) ↔ mentionsCreateTable sql.
Proof.
  split.
  - intros [m H]. apply search_Some in H as (i & H & _). exists i.
    apply matchAt_reCreateTable. by rewrite H.
  - intros [i H]. apply matchAt_reCreateTable in H as [m H].
    destruct (search reCreateTable sql) eqn:E; [by eexists|].
    pose proof (search_None _ _ E i). congruence.
Qed.

Lemma splitRegexFrom_no_match r s : ∀ piece,
  (∀ i, matchAt r (drop i s) = None) →
  splitRegexFrom r 0 piece s = [piece ++ s].
Proof.
  induction s as [|c s IH]; intros piece H; cbn [splitRegexFrom].
  - by rewrite app_nil_r.
  - pose proof (H 0%nat) as H0. rewrite drop_0 in H0. rewrite H0. cbn.
    rewrite IH; [by rewrite <- app_assoc|]. intros i. apply (H (S i)).
Qed.

Lemma tableBlocks_no_match sql :
  ¬ mentionsCreateTable sql → tableBlocks sql = [].
Proof.
  intros H. assert (Hs : search reCreateTable sql = None).
  { destruct (search reCreateTable sql) eqn:E; [|done].
    destruct H. apply search_reCreateTable. by eexists. }
  pose proof (search_None _ _ Hs) as Hn.
  unfold tableBlocks, splitRegex. destruct sql as [|c sql].
  - pose proof (Hn 0%nat) as H0. rewrite drop_0 in H0. by rewrite H0.
  - by rewrite splitRegexFrom_no_match.
Qed.

(** X1: a text in which [CREATE TABLE] occurs nowhere, the empty text
    among them, yields the empty schema, and [handleParse] answers it with
    the message of the empty result and leaves the schema and the view as
    they are. *)
Theorem no_create_table_no_tables (sql : jsstring) :
  ¬ mentionsCreateTable sql →
  parseSQL sql = Normal []
  ∧ ∀ tables mode err,
      handleParse (mkApp sql tables mode err)
        = mkApp sql tables mode (Some (lit "No tables found in the provided SQL.")).
Proof.
  intros H. assert (Hp : parseSQL sql = Normal []).
  { unfold parseSQL. by rewrite tableBlocks_no_match. }
  split; [done|]. intros tables mode err.
  unfold handleParse, handleParseWith. cbn [sqlInput]. by rewrite Hp.
Qed.

Lemma no_create_table_no_tables_witness :
  parseSQL sqlNoTable = Normal [] ∧ parseSQL [] = Normal [].
Proof.
  split.
  - apply no_create_table_no_tables. intros H. apply search_reCreateTable in H.
    vm_compute in H. destruct H as [m H]. discriminate H.
  - apply (no_create_table_no_tables []). intros H. apply search_reCreateTable in H.
    vm_compute in H. destruct H as [m H]. discriminate H.
Defined.

(** ** What a line that yields a column has gone through *)

Lemma quotedWord_split s g rest :
  quotedWord s = Some (g, rest) →
  g ≠ [] ∧ allOf isWordChar g
  ∧ ∃ q q', (q = [] ∨ q = [ch "`"]) ∧ (q' = [] ∨ q' = [ch "`"])
      ∧ s = q ++ g ++ q' ++ rest ∧ wordEnds (q' ++ rest).
Proof.
  intros H. pose proof H as H'.
  apply quotedWord_Some in H' as (Hne & Hall & q & Hq & Hs & Hrest).
  split; [done|]. split; [done|].
  destruct (dropWhile isWordChar (skipBacktick s)) as [|c r] eqn:E.
  - exists q, []. cbn in Hrest. subst rest. rewrite Hs at 1.
    split; [done|]. split; [by left|]. split; [done|]. by intros ??.
  - pose proof (dropWhile_head _ _ _ _ E) as Hc. cbn in Hrest.
    destruct (isChar "`" c) eqn:Eb.
    + apply isChar_eq in Eb as ->. exists q, [ch "`"]. subst rest.
      split; [done|]. split; [by right|]. split; [done|].
      intros c' r' [= <- _]. done.
    + exists q, []. subst rest. split; [done|]. split; [by left|]. split; [done|].
      intros c' r' [= <- _]. done.
Qed.

Lemma quotedWord_maximal q w rest :
  (q = [] ∨ q = [ch "`"]) → w ≠ [] → allOf isWordChar w → wordEnds rest →
  ∃ rest', quotedWord (q ++ w ++ rest) = Some (w, rest').
Proof.
  intros Hq Hw Hall Hend.
  assert (Hw' : takeWhile isWordChar (w ++ rest) = w
                ∧ dropWhile isWordChar (w ++ rest) = rest).
  { rewrite takeWhile_app, dropWhile_app by done.
    destruct rest as [|c r]; [by rewrite app_nil_r|].
    rewrite takeWhile_stop, dropWhile_stop by (by eapply Hend).
    by rewrite app_nil_r. }
  destruct Hw' as [Ht Hd].
  assert (Hsk : skipBacktick (q ++ w ++ rest) = w ++ rest).
  { destruct Hq as [->| ->].
    - destruct w as [|c w]; [done|]. inversion_clear Hall.
      cbn [app]. by apply skipBacktick_word.
    - cbn. by replace (isChar "`" (ch "`")) with true by done. }
  unfold quotedWord. rewrite Hsk, Ht, Hd. destruct w; [done|]. eauto.
Qed.

Lemma group1_Some a g r : group1 (mkMatch a (Some g) r) = Normal g.
Proof. done. Qed.

Lemma parseLine_Some pks line c :
  parseLine pks line = Normal (Some c) →
  trim line ≠ []
  ∧ existsb (startsWith (trim line)) skippedPrefixes = false
  ∧ ∃ rest,
      quotedWord (trim line) = Some (Col.name c, rest)
      ∧ (toUpperCase (Col.name c) ∉ keywordNames)
      ∧ Col.type c = match columnType (trim rest) with
                     | Some (g, _) => g
                     | None => lit "unknown"
                     end
      ∧ Col.isPrimaryKey c = bool_decide (Col.name c ∈ pks)
      ∧ Col.isNullable c = negb (bool_decide (is_Some (search reNotNull (trim line))))
      ∧ Col.comment c = match search reColumnComment (trim line) with
                        | Some m => default [] (m1 m)
                        | None => []
                        end.
Proof.
  unfold parseLine.
  destruct (bool_decide_reflect (trim line = [])) as [|Hne]; [done|]. cbn [orb].
  destruct (existsb _ _) eqn:Esk; [done|].
  rewrite matchAt_reColumnName.
  destruct (quotedWord (trim line)) as [[g rest]|] eqn:Eq; [|done].
  cbv beta iota zeta. rewrite group1_Some, bind_Normal. cbn [m0].
  destruct (bool_decide_reflect (toUpperCase g ∈ keywordNames)) as [|Hkw]; [done|].
  assert (Hrem : substringFrom (trim line)
                   (length (take (length (trim line) - length rest) (trim line))) = rest).
  { apply quotedWord_split in Eq as (_ & _ & q & q' & _ & _ & Hs & _).
    rewrite Hs. rewrite !(app_assoc _ _ rest). apply substringFrom_matched. }
  rewrite Hrem, matchAt_reColumnType.
  intros H. split; [done|]. split; [done|]. exists rest.
  destruct (columnType (trim rest)) as [[ty r]|];
    rewrite ?group1_Some, bind_Normal in H.
  - destruct (search reColumnComment (trim line)) as [mc|] eqn:Ec.
    + destruct (group1_search reColumnComment _ _ eq_refl Ec) as (gc & Hgc & Hgr).
      rewrite Hgc. rewrite Hgr, bind_Normal in H. by injection H as <-.
    + rewrite bind_Normal in H. by injection H as <-.
  - destruct (search reColumnComment (trim line)) as [mc|] eqn:Ec.
    + destruct (group1_search reColumnComment _ _ eq_refl Ec) as (gc & Hgc & Hgr).
      rewrite Hgc. rewrite Hgr, bind_Normal in H. by injection H as <-.
    + rewrite bind_Normal in H. by injection H as <-.
Qed.

Lemma columnType_shape s g rest : columnType s = Some (g, rest) → typeShape g.
Proof.
  unfold columnType, typeShape.
  pose proof (takeWhile_all isWordChar s) as Hw.
  destruct (takeWhile isWordChar s) as [|w0 w] eqn:Ew; [done|].
  assert (Hword : ∀ r, Some (w0 :: w, r) = Some (g, rest) →
    g = lit "unknown" ∨ ∃ w1, w1 ≠ [] ∧ allOf isWordChar w1
      ∧ (g = w1 ∨ ∃ a, a ≠ [] ∧ (ch ")" ∉ a) ∧ g = w1 ++ ch "(" :: a ++ [ch ")"])).
  { intros r [= <- _]. right. exists (w0 :: w). auto. }
  destruct (dropWhile isWordChar s) as [|c s2]; [apply Hword|].
  destruct (isChar "(" c) eqn:Ec; [|apply Hword].
  pose proof (takeWhile_all (notChar ")") s2) as Ha.
  destruct (takeWhile (notChar ")") s2) as [|a0 a] eqn:Ea; [apply Hword|].
  destruct (dropWhile (notChar ")") s2) as [|d s3]; [apply Hword|].
  destruct (isChar ")" d) eqn:Ed; [|apply Hword].
  intros [= <- _]. right. exists (w0 :: w). split; [done|]. split; [done|].
  right. exists (a0 :: a). apply isChar_eq in Ec as ->. apply isChar_eq in Ed as ->.
  split; [done|]. split; [|done].
  intros Hin. unfold allOf in Ha. rewrite Forall_forall in Ha.
  apply Ha in Hin. by vm_compute in Hin.
Qed.

Lemma parseSQL_column sql tables t c :
  parseSQL sql = Normal tables → t ∈ tables → c ∈ Tbl.columns t →
  ∃ block body afterBody pks line,
    block ∈ tableBlocks sql ∧ parseBlock block = Normal (Some t)
    ∧ bodyOf block body afterBody
    ∧ line ∈ splitChar LF body ∧ parseLine pks line = Normal (Some c).
Proof.
  intros Hp Ht Hc. destruct (parseSQL_table _ _ _ Hp Ht) as (block & Hin & Hb).
  pose proof Hb as Hb'.
  apply parseBlock_Some in Hb' as (body & afterBody & pks & Hbody & _ & Hcols & _).
  rewrite Hcols in Hc. apply list_elem_of_omap in Hc as (line & Hl & Hc).
  exists block, body, afterBody, pks, line. split; [done|]. split; [done|].
  split; [by apply extractBody_spec|]. split; [done|].
  unfold columnOf in Hc. by destruct (parseLine pks line) as [[?|]|]; simplify_eq.
Qed.

(** X2: the id of every table of the result is its name, and the name is
    the identifier at the head of its block: a non-empty run of word
    characters behind optional white space and an optional backtick, taken to
    its end. *)
Theorem table_name_is_leading_identifier (sql : jsstring)
    (tables : list TableDefinition) (t : TableDefinition) :
  parseSQL sql = Normal tables → t ∈ tables →
  Tbl.id t = Tbl.name t ∧ Tbl.name t ≠ [] ∧ allOf isWordChar (Tbl.name t)
  ∧ ∃ block ws q rest,
      block ∈ tableBlocks sql
      ∧ block = ws ++ q ++ Tbl.name t ++ rest
      ∧ allOf isWhiteSpace ws ∧ (q = [] ∨ q = [ch "`"]) ∧ wordEnds rest.
Proof.
  intros Hp Ht. destruct (parseSQL_table _ _ _ Hp Ht) as (block & Hin & Hb).
  apply parseBlock_Some in Hb as (_ & _ & _ & _ & _ & _ & Hid & m & Hm & Hg).
  rewrite matchAt_reTableName in Hm.
  destruct (quotedWord _) as [[g r]|] eqn:E; [|done].
  injection Hm as <-. cbn in Hg. injection Hg as ->.
  apply quotedWord_split in E as (Hne & Hall & q & q' & Hq & _ & Hs & Hend).
  split; [done|]. split; [done|]. split; [done|].
  exists block, (takeWhile isWhiteSpace block), q, (q' ++ r).
  split; [done|]. split; [by rewrite <- Hs, takeWhile_dropWhile|].
  split; [apply takeWhile_all|]. done.
Qed.

(** X3: every column of the result comes from a line of the body of the
    block of its table, read with the primary keys of that body.  Its name is
    the identifier at the head of that line once trimmed, behind an optional
    backtick and taken to its end: a non-empty run of word characters that is
    none of KEY, PRIMARY, INDEX, UNIQUE, CONSTRAINT, FOREIGN and CHECK in any
    letter case.  Its type is the default [unknown], a word, or a word with a
    parenthesized argument. *)
Theorem column_name_and_type_shape (sql : jsstring)
    (tables : list TableDefinition) (t : TableDefinition) (c : ColumnDefinition) :
  parseSQL sql = Normal tables → t ∈ tables → c ∈ Tbl.columns t →
  Col.name c ≠ [] ∧ allOf isWordChar (Col.name c)
  ∧ (toUpperCase (Col.name c) ∉ keywordNames)
  ∧ typeShape (Col.type c)
  ∧ ∃ block body afterBody pks line q rest,
      block ∈ tableBlocks sql ∧ parseBlock block = Normal (Some t)
      ∧ bodyOf block body afterBody
      ∧ primaryKeysOf body = Normal pks
      ∧ line ∈ splitChar LF body ∧ columnOf pks line = Some c
      ∧ trim line = q ++ Col.name c ++ rest ∧ (q = [] ∨ q = [ch "`"]) ∧ wordEnds rest.
Proof.
  intros Hp Ht Hc. destruct (parseSQL_table _ _ _ Hp Ht) as (block & Hin & Hb).
  pose proof Hb as Hb'.
  apply parseBlock_Some in Hb' as (body & afterBody & pks & Hbody & Hpk & Hcols & _).
  rewrite Hcols in Hc. apply list_elem_of_omap in Hc as (line & Hline & Hcol).
  assert (Hl : parseLine pks line = Normal (Some c)).
  { unfold columnOf in Hcol. by destruct (parseLine pks line) as [[?|]|]; simplify_eq. }
  apply parseLine_Some in Hl as (_ & _ & rest & Hq & Hkw & Hty & _).
  apply quotedWord_split in Hq as (Hne & Hall & q & q' & Hq & _ & Hs & Hend).
  split; [done|]. split; [done|]. split; [done|]. split.
  - rewrite Hty. destruct (columnType (trim rest)) as [[g r]|] eqn:E; [|by left].
    by eapply columnType_shape.
  - exists block, body, afterBody, pks, line, q, (q' ++ rest).
    split; [done|]. split; [done|]. split; [by apply extractBody_spec|]. done.
Qed.

Lemma table_name_is_leading_identifier_witness :
  parseSQL sqlDecimal = Normal [tableDecimal]
  ∧ Tbl.id tableDecimal = Tbl.name tableDecimal ∧ Tbl.name tableDecimal ≠ [].
Proof.
  assert (Hp : parseSQL sqlDecimal = Normal [tableDecimal]) by evaluate.
  split; [exact Hp|].
  destruct (table_name_is_leading_identifier sqlDecimal [tableDecimal] tableDecimal Hp)
    as (Hid & Hne & _).
  - apply list_elem_of_here.
  - split; [exact Hid|exact Hne].
Defined.

Lemma column_name_and_type_shape_witness :
  parseSQL sqlDecimal = Normal [tableDecimal]
  ∧ typeShape (lit "decimal(17, 2)")
  ∧ ∃ block body afterBody line q rest,
      block ∈ tableBlocks sqlDecimal ∧ bodyOf block body afterBody
      ∧ line ∈ splitChar LF body
      ∧ trim line = q ++ lit "AMT" ++ rest ∧ (q = [] ∨ q = [ch "`"]) ∧ wordEnds rest.
Proof.
  assert (Hp : parseSQL sqlDecimal = Normal [tableDecimal]) by evaluate.
  split; [exact Hp|].
  destruct (column_name_and_type_shape sqlDecimal [tableDecimal] tableDecimal
              (Col.mk (lit "AMT") (lit "decimal(17, 2)") (lit "amount") true false) Hp)
    as (_ & _ & _ & Hty & block & body & afterBody & pks & line & q & rest
        & Hin & _ & Hbody & _ & Hline & _ & Htrim & Hq & Hend).
  - apply list_elem_of_here.
  - apply list_elem_of_here.
  - split; [exact Hty|]. exists block, body, afterBody, line, q, rest.
    split; [exact Hin|]. split; [exact Hbody|]. split; [exact Hline|].
    split; [exact Htrim|]. split; [exact Hq|exact Hend].
Defined.

(** ** The lines that declare a column *)

Lemma startsWith_spec s p : startsWith s p = true ↔ ∃ rest, s = p ++ rest.
Proof.
  revert s. induction p as [|c p IH]; intros s; cbn.
  - destruct s; split; eauto.
  - destruct s as [|d s]; cbn.
    + split; [done|]. by intros (? & ?).
    + rewrite andb_true_iff, IH, N.eqb_eq. split.
      * intros (-> & rest & ->). eauto.
      * intros (rest & [= -> ->]). eauto.
Qed.

Lemma skipped_prefix_spec l :
  existsb (startsWith l) skippedPrefixes = false ↔
  ∀ p, p ∈ skippedPrefixes → ¬ ∃ rest, l = p ++ rest.
Proof.
  rewrite <- not_true_iff_false, existsb_exists. split.
  - intros H p Hp Hr. apply H. exists p. split; [by apply list_elem_of_In|].
    by apply startsWith_spec.
  - intros H (p & Hp & Hs). apply (H p); [by apply list_elem_of_In|].
    by apply startsWith_spec.
Qed.

Lemma parseLine_declares pks line g rest :
  existsb (startsWith (trim line)) skippedPrefixes = false →
  quotedWord (trim line) = Some (g, rest) →
  toUpperCase g ∉ keywordNames →
  ∃ c, parseLine pks line = Normal (Some c) ∧ Col.name c = g.
Proof.
  intros Hsk Hq Hkw. unfold parseLine.
  assert (Hne : trim line ≠ []) by (intros E; by rewrite E in Hq).
  rewrite bool_decide_eq_false_2, Hsk by done. cbn [orb].
  rewrite matchAt_reColumnName, Hq. cbv beta iota zeta.
  rewrite group1_Some, bind_Normal, bool_decide_eq_false_2 by done.
  destruct (matchAt reColumnType _) as [mt|] eqn:Et;
    [apply group1_matchAt in Et as (gt & _ & ->); [|done]|]; rewrite bind_Normal;
    (destruct (search reColumnComment _) as [mc|] eqn:Ec;
      [apply group1_search in Ec as (gc & _ & ->); [|done]|]; rewrite bind_Normal);
    eauto.
Qed.

(** X4: a line yields a column with a given name exactly when, trimmed, it
    starts with none of the skipped prefixes (compared case-sensitively) and
    has at its head that name as an identifier which, in upper case, is none
    of the seven keywords; a blank line, a constraint line and a line that
    starts with no identifier yield none. *)
Theorem column_iff_declaration_line (pks : gset jsstring) (line name : jsstring) :
  (∃ c, columnOf pks line = Some c ∧ Col.name c = name) ↔ declarationLine line name.
Proof.
  unfold declarationLine, columnOf. split.
  - intros (c & Hc & <-).
    destruct (parseLine pks line) as [[c'|]|] eqn:E; [|done..]. injection Hc as ->.
    apply parseLine_Some in E as (_ & Hsk & rest & Hq & Hkw & _).
    apply quotedWord_split in Hq as (Hne & Hall & q & q' & Hq & _ & Hs & Hend).
    split; [by apply skipped_prefix_spec|].
    split; [by exists q, (q' ++ rest)|]. done.
  - intros (Hsk & (q & rest & Hs & Hq & Hend) & Hne & Hall & Hkw).
    destruct (quotedWord_maximal q name rest Hq Hne Hall Hend) as [rest' Hqw].
    rewrite <- Hs in Hqw. apply skipped_prefix_spec in Hsk.
    destruct (parseLine_declares pks line name rest' Hsk Hqw Hkw) as (c & -> & Hc).
    eauto.
Qed.

(** ** Nullability *)

Lemma search_is_Some r s :
  is_Some (search r s) ↔ ∃ i, is_Some (matchAt r (drop i s)).
Proof.
  split.
  - intros [m H]. apply search_Some in H as (i & H & _). exists i. by rewrite H.
  - intros [i [m H]]. destruct (search r s) eqn:E; [by eexists|].
    pose proof (search_None _ _ E i). congruence.
Qed.

Lemma search_reNotNull s :
  is_Some (search reNotNull s) ↔ containsIgnoringCase s (lit "NOT NULL").
Proof.
  rewrite search_is_Some. unfold containsIgnoringCase, reNotNull, matchAt. split.
  - intros [i H]. rewrite exec_RLitCI in H.
    destruct (stripChars _ (drop i s)) as [s'|] eqn:E; [|by destruct H].
    apply stripChars_isCI in E as (kw & E & Hkw).
    exists (take i s), kw, s'. split; [|done]. by rewrite <- E, take_drop.
  - intros (pre & kw & post & -> & Hkw). exists (length pre).
    rewrite drop_app_length, exec_RLitCI.
    assert (stripChars (isCI <$> lit "NOT NULL") (kw ++ post) = Some post) as ->.
    { apply stripChars_isCI. eauto. }
    by eexists.
Qed.

(** X5: a column is not nullable exactly when its trimmed line contains
    NOT NULL, with one space and in any letter case, anywhere: in the
    declaration, in a default or in the comment. *)
Theorem not_nullable_iff_line_says_not_null (pks : gset jsstring)
    (line : jsstring) (c : ColumnDefinition) :
  columnOf pks line = Some c →
  (Col.isNullable c = false ↔ containsIgnoringCase (trim line) (lit "NOT NULL")).
Proof.
  unfold columnOf. destruct (parseLine pks line) as [[c'|]|] eqn:E; [|done..].
  intros [= ->]. apply parseLine_Some in E as (_ & _ & rest & _ & _ & _ & _ & Hn & _).
  rewrite Hn, negb_false_iff, bool_decide_eq_true. apply search_reNotNull.
Qed.

Lemma not_nullable_iff_line_says_not_null_witness :
  Col.isNullable columnA = true
  ∧ ¬ containsIgnoringCase (lit "a int,") (lit "NOT NULL").
Proof.
  assert (Hc : columnOf ∅ (lit "a int,") = Some columnA) by evaluate.
  pose proof (not_nullable_iff_line_says_not_null ∅ (lit "a int,") columnA Hc) as H.
  split; [reflexivity|]. intros Hn. apply H in Hn. discriminate Hn.
Defined.

(** ** Comments *)

Lemma notQuote_iff c : notCI "'" c = true ↔ c ≠ ch "'".
Proof. unfold notCI. rewrite isCI_quote, negb_true_iff. apply N.eqb_neq. Qed.

Lemma allOf_notQuote s : allOf (notCI "'") s ↔ ch "'" ∉ s.
Proof.
  unfold allOf. rewrite Forall_forall. split.
  - intros H Hin. apply H in Hin. by apply notQuote_iff in Hin.
  - intros H c Hc. apply notQuote_iff. by intros ->.
Qed.

Lemma space_not_quote c : isWhiteSpace c = true → (c =? ch "'") = false.
Proof. class_tac. Qed.

Lemma space_not_equals c : isWhiteSpace c = true → (c =? ch "=") = false.
Proof. class_tac. Qed.

Lemma isCI_equals c : isCI (ch "=") c = (c =? ch "=").
Proof. apply isCI_nonletter. vm_compute. intuition congruence. Qed.

Lemma quoted_spec s text rest :
  quoted s = Some (text, rest) ↔
  s = ch "'" :: text ++ ch "'" :: rest ∧ text ≠ [] ∧ ch "'" ∉ text.
Proof.
  unfold quoted. split.
  - destruct s as [|c s3]; [done|]. rewrite isCI_quote.
    destruct (N.eqb_spec c (ch "'")) as [->|]; [|done].
    destruct (takeWhile (notCI "'") s3) as [|g0 g] eqn:E3; [done|].
    destruct (dropWhile (notCI "'") s3) as [|d s4] eqn:E4; [done|].
    rewrite isCI_quote. destruct (N.eqb_spec d (ch "'")) as [->|]; [|done].
    intros [= <- <-]. split; [|split; [done|]].
    + f_equal. rewrite <- (takeWhile_dropWhile (notCI "'") s3) at 1. by rewrite E3, E4.
    + apply allOf_notQuote. rewrite <- E3. apply takeWhile_all.
  - intros (-> & Hne & Hq). apply allOf_notQuote in Hq.
    rewrite isCI_quote, N.eqb_refl.
    rewrite takeWhile_app, dropWhile_app by done.
    rewrite takeWhile_stop, dropWhile_stop by done. rewrite app_nil_r.
    rewrite isCI_quote, N.eqb_refl. by destruct text.
Qed.

Lemma quoted_space c s : isWhiteSpace c = true → quoted (c :: s) = None.
Proof. intros H. cbn. by rewrite isCI_quote, space_not_quote. Qed.

Section CommentPattern.
Context {R : Type}.
Implicit Types (K : jsstring → option jsstring → option R).

Lemma exec_quoted K s cap :
  exec (RSeqs [RLitCI "'"; RGroup (RPlus (notCI "'")); RLitCI "'"]) s cap K =
    match quoted s with
    | Some (g, rest) => K rest (Some g)
    | None => None
    end.
Proof.
  assert (Hclose : ∀ s' cap',
    exec (RSeq (RLitCI "'") REmpty) s' cap' K =
      match s' with
      | d :: s4 => if isCI (ch "'") d then K s4 cap' else None
      | [] => None
      end).
  { intros s' cap'. rewrite exec_RSeq, exec_RLitCI.
    change (isCI <$> lit "'") with [isCI (ch "'")].
    destruct s' as [|d s4]; [done|]. cbn [stripChars]. by destruct (isCI (ch "'") d). }
  cbn [RSeqs]. rewrite exec_RSeq, exec_RLitCI.
  change (isCI <$> lit "'") with [isCI (ch "'")]. unfold quoted.
  destruct s as [|c s3]; [done|]. cbn [stripChars].
  destruct (isCI (ch "'") c); [|done].
  rewrite exec_RSeq, exec_group_plus_disjoint.
  - destruct (takeWhile (notCI "'") s3); [done|]. rewrite Hclose.
    destruct (dropWhile (notCI "'") s3) as [|d s4]; [done|].
    by destruct (isCI (ch "'") d).
  - intros d s' cap' Hd. rewrite Hclose. unfold notCI in Hd.
    apply negb_true_iff in Hd. by rewrite Hd.
Qed.

Lemma exec_reColumnComment K s cap :
  exec reColumnComment s cap K =
    match columnComment s with
    | Some (g, rest) => K rest (Some g)
    | None => None
    end.
Proof.
  unfold reColumnComment, columnComment, RPlus.
  change (RSeqs [RLitCI "COMMENT"; RSeq (RChar isWhiteSpace) (RStar isWhiteSpace);
                 RLitCI "'"; RGroup (RSeq (RChar (notCI "'")) (RStar (notCI "'")));
                 RLitCI "'"])
    with (RSeq (RLitCI "COMMENT")
           (RSeq (RSeq (RChar isWhiteSpace) (RStar isWhiteSpace))
                 (RSeqs [RLitCI "'"; RGroup (RPlus (notCI "'")); RLitCI "'"]))).
  rewrite exec_RSeq, exec_RLitCI.
  destruct (stripChars (isCI <$> lit "COMMENT") s) as [[|c s2]|]; [done| |done].
  rewrite !exec_RSeq, exec_RChar_cons. destruct (isWhiteSpace c); [|done].
  rewrite exec_RStar_disjoint; [apply exec_quoted|].
  intros d s' Hd. by rewrite exec_quoted, quoted_space.
Qed.

Lemma exec_reTableComment K s cap :
  exec reTableComment s cap K =
    match tableComment s with
    | Some (g, rest) => K rest (Some g)
    | None => None
    end.
Proof.
  unfold reTableComment, tableComment.
  change (RSeqs [RLitCI "COMMENT"; RStar isWhiteSpace; RLitCI "="; RStar isWhiteSpace;
                 RLitCI "'"; RGroup (RPlus (notCI "'")); RLitCI "'"])
    with (RSeq (RLitCI "COMMENT")
           (RSeq (RStar isWhiteSpace)
             (RSeq (RLitCI "=")
               (RSeq (RStar isWhiteSpace)
                  (RSeqs [RLitCI "'"; RGroup (RPlus (notCI "'")); RLitCI "'"]))))).
  rewrite exec_RSeq, exec_RLitCI.
  destruct (stripChars (isCI <$> lit "COMMENT") s) as [s1|]; [|done].
  assert (Heq : ∀ s' cap',
    exec (RSeq (RLitCI "=")
            (RSeq (RStar isWhiteSpace)
               (RSeqs [RLitCI "'"; RGroup (RPlus (notCI "'")); RLitCI "'"]))) s' cap' K =
      match s' with
      | c :: s2 =>
          if isCI (ch "=") c then
            match quoted (dropWhile isWhiteSpace s2) with
            | Some (g, rest) => K rest (Some g)
            | None => None
            end
          else None
      | [] => None
      end).
  { intros s' cap'. rewrite exec_RSeq, exec_RLitCI.
    change (isCI <$> lit "=") with [isCI (ch "=")].
    destruct s' as [|c s2]; [done|]. cbn [stripChars].
    destruct (isCI (ch "=") c); [|done].
    rewrite exec_RSeq, exec_RStar_disjoint; [apply exec_quoted|].
    intros d s'' Hd. by rewrite exec_quoted, quoted_space. }
  rewrite exec_RSeq, exec_RStar_disjoint.
  - rewrite Heq. destruct (dropWhile isWhiteSpace s1) as [|c s2]; [done|].
    destruct (isCI (ch "=") c); [|done]. by destruct (quoted _) as [[??]|].
  - intros c s' Hc. rewrite Heq. rewrite isCI_equals. by rewrite space_not_equals.
Qed.

End CommentPattern.

Lemma columnComment_spec s text :
  (∃ rest, columnComment s = Some (text, rest)) ↔ columnCommentAt s text.
Proof.
  unfold columnComment, columnCommentAt. split.
  - intros [rest H].
    destruct (stripChars _ s) as [[|c s2]|] eqn:E1; [done| |done].
    apply stripChars_isCI in E1 as (kw & -> & Hkw).
    destruct (isWhiteSpace c) eqn:Ec; [|done].
    apply quoted_spec in H as (H & Hne & Hq).
    exists kw, (c :: takeWhile isWhiteSpace s2), rest.
    split; [|split; [done|split; [done|split; [|done]]]].
    + cbn. rewrite <- H. by rewrite takeWhile_dropWhile.
    + constructor; [done|apply takeWhile_all].
  - intros (kw & ws & rest & -> & Hkw & Hne & Hws & Htext & Hq). exists rest.
    assert (stripChars (isCI <$> lit "COMMENT")
              (kw ++ ws ++ ch "'" :: text ++ ch "'" :: rest)
            = Some (ws ++ ch "'" :: text ++ ch "'" :: rest)) as ->.
    { apply stripChars_isCI. eauto. }
    destruct ws as [|c ws]; [done|]. inversion_clear Hws as [|?? Hc Hws'].
    cbn [app]. rewrite Hc, dropWhile_app, dropWhile_stop by done.
    by apply quoted_spec.
Qed.

Lemma tableComment_spec s text :
  (∃ rest, tableComment s = Some (text, rest)) ↔ tableCommentAt s text.
Proof.
  unfold tableComment, tableCommentAt. split.
  - intros [rest H].
    destruct (stripChars _ s) as [s1|] eqn:E1; [|done].
    apply stripChars_isCI in E1 as (kw & -> & Hkw).
    destruct (dropWhile isWhiteSpace s1) as [|c s2] eqn:E2; [done|].
    rewrite isCI_equals in H. destruct (N.eqb_spec c (ch "=")) as [->|]; [|done].
    apply quoted_spec in H as (H & Hne & Hq).
    exists kw, (takeWhile isWhiteSpace s1), (takeWhile isWhiteSpace s2), rest.
    split; [|split; [done|split; [apply takeWhile_all|split; [apply takeWhile_all|done]]]].
    f_equal. rewrite <- (takeWhile_dropWhile isWhiteSpace s1) at 1. rewrite E2.
    f_equal. f_equal. rewrite <- H. by rewrite takeWhile_dropWhile.
  - intros (kw & ws1 & ws2 & rest & -> & Hkw & Hws1 & Hws2 & Htext & Hq). exists rest.
    assert (stripChars (isCI <$> lit "COMMENT")
              (kw ++ ws1 ++ ch "=" :: ws2 ++ ch "'" :: text ++ ch "'" :: rest)
            = Some (ws1 ++ ch "=" :: ws2 ++ ch "'" :: text ++ ch "'" :: rest)) as ->.
    { apply stripChars_isCI. eauto. }
    rewrite dropWhile_app, dropWhile_stop by done.
    rewrite isCI_equals, N.eqb_refl, dropWhile_app, dropWhile_stop by done.
    by apply quoted_spec.
Qed.

(** The first match of a pattern with one group, read by [read], is the
    first clause. *)
Section FirstClause.
Variable r : regex.
Variable read : jsstring → option (jsstring * jsstring).
Variable clauseAt : jsstring → jsstring → Prop.
Hypothesis Hexec : ∀ s cap (K : jsstring → option jsstring → option MatchResult),
  exec r s cap K = match read s with
                   | Some (g, rest) => K rest (Some g)
                   | None => None
                   end.
Hypothesis Hspec : ∀ s text, (∃ rest, read s = Some (text, rest)) ↔ clauseAt s text.

Lemma matchAt_read s :
  matchAt r s = match read s with
                | Some (g, rest) => Some (mkMatch (take (length s - length rest) s) (Some g) rest)
                | None => None
                end.
Proof. unfold matchAt. by rewrite Hexec. Qed.

Lemma matchAt_clauseAt s text :
  (∃ m, matchAt r s = Some m ∧ m1 m = Some text) ↔ clauseAt s text.
Proof.
  rewrite <- Hspec, matchAt_read. split.
  - intros (m & H & Hm). destruct (read s) as [[g rest]|]; [|done].
    injection H as <-. cbn in Hm. injection Hm as ->. eauto.
  - intros [rest ->]. eauto.
Qed.

Lemma matchAt_no_clause s : matchAt r s = None → ∀ text, ¬ clauseAt s text.
Proof. intros H text Hc. apply matchAt_clauseAt in Hc as (m & Hm & _). congruence. Qed.

Lemma group_of_search s :
  let text := match search r s with Some m => default [] (m1 m) | None => [] end in
  ((noClause clauseAt s ∧ text = []) ∨ firstClause clauseAt s text)
  ∧ ∀ text', firstClause clauseAt s text' → text = text'.
Proof.
  cbv zeta. split.
  - destruct (search r s) as [m|] eqn:E.
    + right. apply search_Some in E as (i & E & Hlt). exists i. split.
      * apply matchAt_clauseAt. exists m. split; [done|].
        rewrite matchAt_read in E. destruct (read (drop i s)) as [[g rest]|]; [|done].
        by injection E as <-.
      * intros j text' Hj. apply matchAt_no_clause. auto.
    + left. split; [|done]. intros i text. apply matchAt_no_clause.
      by apply search_None.
  - intros text' (i & Hi & Hlt). apply matchAt_clauseAt in Hi as (m & Hm & Ht).
    rewrite (search_first r s i m Hm).
    + by rewrite Ht.
    + intros j Hj. destruct (matchAt r (drop j s)) as [m'|] eqn:E; [|done].
      rewrite matchAt_read in E. destruct (read (drop j s)) as [[g rest]|] eqn:Er; [|done].
      destruct (Hlt j g Hj). apply Hspec. eauto.
Qed.

End FirstClause.

Lemma parseBlock_comment block t :
  parseBlock block = Normal (Some t) →
  ∃ body afterBody,
    extractBody block = Some (body, afterBody)
    ∧ Tbl.comment t = match search reTableComment afterBody with
                      | Some m => default [] (m1 m)
                      | None => []
                      end.
Proof.
  unfold parseBlock.
  destruct (matchAt reTableName block) as [m|] eqn:E; [|done].
  destruct (group1_matchAt reTableName _ _ eq_refl E) as (g & Hg & ->). rewrite bind_Normal.
  destruct (extractBody block) as [[body afterBody]|]; [|done].
  intros H. exists body, afterBody. split; [done|].
  destruct (search reTableComment afterBody) as [mc|] eqn:Ec.
  - destruct (group1_search reTableComment _ _ eq_refl Ec) as (gc & Hgc & Hgr).
    rewrite Hgc. rewrite Hgr, bind_Normal in H.
    destruct (primaryKeysOf body) as [pks|]; [|done].
    rewrite bind_Normal, parseLines_omap, bind_Normal in H. by injection H as <-.
  - rewrite bind_Normal in H. destruct (primaryKeysOf body) as [pks|]; [|done].
    rewrite bind_Normal, parseLines_omap, bind_Normal in H. by injection H as <-.
Qed.

(** X6: the comment of a column is the quoted text of the first clause
    COMMENT, white space, quote, text without a quote, quote of its trimmed line,
    the keyword in any letter case; it is empty when the line has no such
    clause, as for an empty comment. *)
Theorem column_comment_is_first_clause (pks : gset jsstring)
    (line : jsstring) (c : ColumnDefinition) :
  columnOf pks line = Some c →
  ((noClause columnCommentAt (trim line) ∧ Col.comment c = [])
   ∨ firstClause columnCommentAt (trim line) (Col.comment c))
  ∧ ∀ text, firstClause columnCommentAt (trim line) text → Col.comment c = text.
Proof.
  unfold columnOf. destruct (parseLine pks line) as [[c'|]|] eqn:E; [|done..].
  intros [= ->]. apply parseLine_Some in E as (_ & _ & rest & _ & _ & _ & _ & _ & ->).
  apply (group_of_search reColumnComment columnComment).
  - intros s cap K. apply exec_reColumnComment.
  - apply columnComment_spec.
Qed.

(** X7: the comment of a table is the quoted text of the first clause
    COMMENT = 'text' behind the parenthesis that closes the body of its block,
    with optional white space around the equals sign; it is empty when there
    is none, also when the equals sign is left out. *)
Theorem table_comment_is_first_clause (sql : jsstring)
    (tables : list TableDefinition) (t : TableDefinition) :
  parseSQL sql = Normal tables → t ∈ tables →
  ∃ block body afterBody,
    block ∈ tableBlocks sql ∧ parseBlock block = Normal (Some t)
    ∧ bodyOf block body afterBody
    ∧ ((noClause tableCommentAt afterBody ∧ Tbl.comment t = [])
       ∨ firstClause tableCommentAt afterBody (Tbl.comment t))
    ∧ ∀ text, firstClause tableCommentAt afterBody text → Tbl.comment t = text.
Proof.
  intros Hp Ht. destruct (parseSQL_table _ _ _ Hp Ht) as (block & Hin & Hb).
  destruct (parseBlock_comment _ _ Hb) as (body & afterBody & Hbody & ->).
  exists block, body, afterBody. split; [done|]. split; [done|].
  split; [by apply extractBody_spec|].
  apply (group_of_search reTableComment tableComment).
  - intros s cap K. apply exec_reTableComment.
  - apply tableComment_spec.
Qed.

Lemma column_comment_is_first_clause_witness :
  firstClause columnCommentAt (lit "`AMT` decimal(17, 2) NOT NULL COMMENT 'amount',")
    (lit "amount").
Proof.
  assert (Hc : columnOf ∅ (lit "  `AMT` decimal(17, 2) NOT NULL COMMENT 'amount',")
               = Some (Col.mk (lit "AMT") (lit "decimal(17, 2)") (lit "amount") false false))
    by evaluate.
  destruct (column_comment_is_first_clause ∅ _ _ Hc) as [[[_ H]|H] _].
  - vm_compute in H. discriminate H.
  - exact H.
Defined.

Lemma table_comment_is_first_clause_witness :
  parseSQL sqlDecimal = Normal [tableDecimal]
  ∧ ∃ afterBody, firstClause tableCommentAt afterBody (lit "accounts").
Proof.
  assert (Hp : parseSQL sqlDecimal = Normal [tableDecimal]) by evaluate.
  split; [exact Hp|].
  destruct (table_comment_is_first_clause sqlDecimal [tableDecimal] tableDecimal Hp)
    as (_ & _ & afterBody & _ & _ & _ & [[_ H]|H] & _).
  - apply list_elem_of_here.
  - vm_compute in H. discriminate H.
  - exists afterBody. exact H.
Defined.

(** ** The names of a primary-key clause *)

Lemma dropWhile_all p s : allOf p s → dropWhile p s = [].
Proof. intros H. rewrite <- (app_nil_r s). by rewrite dropWhile_app. Qed.

Lemma dropWhile_none p s : Forall (λ c, p c = false) s → dropWhile p s = s.
Proof. destruct 1 as [|c s Hc _]; [done|]. by apply dropWhile_stop. Qed.

(** Trimming takes the white space off both ends of a text without white
    space. *)
Lemma trim_core ws1 core ws2 :
  allOf isWhiteSpace ws1 → allOf isWhiteSpace ws2 →
  Forall (λ c, isWhiteSpace c = false) core →
  trim (ws1 ++ core ++ ws2) = core.
Proof.
  intros H1 H2 Hcore. unfold trim, trimStart. rewrite dropWhile_app by done.
  destruct Hcore as [|c core Hc Hcore].
  - cbn [app]. by rewrite dropWhile_all.
  - cbn [app]. rewrite dropWhile_stop by done. unfold trimEnd, trimStart.
    change (c :: core ++ ws2) with ((c :: core) ++ ws2).
    rewrite reverse_app, dropWhile_app by (by apply Forall_reverse).
    rewrite dropWhile_none by (apply Forall_reverse; by constructor).
    apply reverse_involutive.
Qed.

Lemma quote_not_space c : isQuoteChar c = true → isWhiteSpace c = false.
Proof. unfold isQuoteChar. class_tac. Qed.

Lemma quote_not_comma c : isQuoteChar c = true → c ≠ ch ",".
Proof. unfold isQuoteChar. class_tac. Qed.

Lemma space_not_comma c : isWhiteSpace c = true → c ≠ ch ",".
Proof. class_tac. Qed.

Lemma word_not_comma c : isWordChar c = true → c ≠ ch ",".
Proof. class_tac. Qed.

Lemma word_not_quoteChar c : isWordChar c = true → isQuoteChar c = false.
Proof. unfold isQuoteChar. class_tac. Qed.

Lemma removeAll_app c x y : removeAll c (x ++ y) = removeAll c x ++ removeAll c y.
Proof. unfold removeAll. apply List.filter_app. Qed.

Lemma removeQuotes_quotes q :
  allOf isQuoteChar q → removeAll (ch "'") (removeAll (ch "`") q) = [].
Proof.
  induction 1 as [|c q Hc _ IH]; [done|]. unfold removeAll in *. cbn [List.filter].
  unfold isQuoteChar in Hc. apply orb_true_iff in Hc as [Hc|Hc].
  - by rewrite Hc.
  - destruct (c =? ch "`"); cbn [negb]; [done|]. cbn [List.filter]. by rewrite Hc.
Qed.

Lemma removeQuotes_word n :
  allOf isWordChar n → removeAll (ch "'") (removeAll (ch "`") n) = n.
Proof.
  induction 1 as [|c n Hc _ IH]; [done|]. unfold removeAll in *. cbn [List.filter].
  apply word_not_quoteChar in Hc. unfold isQuoteChar in Hc.
  apply orb_false_iff in Hc as [Hb Hq]. rewrite Hb. cbn [negb List.filter].
  rewrite Hq. cbn [negb]. by rewrite IH.
Qed.

Lemma entryOf_token d n :
  entryOf d n → removeAll (ch "'") (removeAll (ch "`") (trim d)) = n ∧ (ch "," ∉ d).
Proof.
  intros (ws1 & q1 & q2 & ws2 & -> & H1 & H2 & Hq1 & Hq2 & Hn). split.
  - replace (ws1 ++ q1 ++ n ++ q2 ++ ws2) with (ws1 ++ (q1 ++ n ++ q2) ++ ws2)
      by (by rewrite <- !app_assoc).
    rewrite trim_core; [|done|done|].
    + rewrite !removeAll_app.
      rewrite (removeQuotes_quotes q1), (removeQuotes_quotes q2), removeQuotes_word by done.
      cbn [app]. apply app_nil_r.
    + unfold allOf in *. rewrite !Forall_app. split; [|split].
      * eapply Forall_impl; [exact Hq1|]. apply quote_not_space.
      * eapply Forall_impl; [exact Hn|]. cbn. intros c Hc.
        destruct (isWhiteSpace c) eqn:E; [|done]. apply word_not_space in Hc. congruence.
      * eapply Forall_impl; [exact Hq2|]. apply quote_not_space.
  - unfold allOf in *. rewrite !elem_of_app. rewrite Forall_forall in H1, H2, Hq1, Hq2, Hn.
    intros [H|[H|[H|[H|H]]]].
    + by apply H1, space_not_comma in H.
    + by apply Hq1, quote_not_comma in H.
    + by apply Hn, word_not_comma in H.
    + by apply Hq2, quote_not_comma in H.
    + by apply H2, space_not_comma in H.
Qed.

Lemma pkTokens_entries entries names :
  Forall2 entryOf entries names → entries ≠ [] →
  pkTokens (join [ch ","] entries) = names.
Proof.
  intros H Hne. unfold pkTokens. rewrite splitChar_join; [|done|].
  - clear Hne. induction H as [|d n ds ns Hd _ IH]; [done|]. cbn [fmap list_fmap].
    apply entryOf_token in Hd as [-> _]. by f_equal.
  - eapply Forall2_Forall_l; [exact H|]. apply Forall_forall.
    intros n _ d Hd. by apply entryOf_token in Hd as [_ ?].
Qed.

(** X8: when the first PRIMARY KEY clause of a body lists, between commas,
    words that may be wrapped in backticks or single quotes and in white
    space, the primary keys of the table are exactly those words. *)
Theorem primary_keys_are_listed_names (body : jsstring) (entries names : list jsstring) :
  Forall2 entryOf entries names →
  firstPkClause body (join [ch ","] entries) →
  primaryKeysOf body = Normal (list_to_set names).
Proof.
  intros H Hfirst. rewrite (primaryKeysOf_first _ _ Hfirst). do 2 f_equal.
  apply pkTokens_entries; [done|].
  intros ->. destruct Hfirst as (i & (kw & ws & rest & _ & _ & _ & Hne & _) & _).
  by apply Hne.
Qed.

Lemma primary_keys_are_listed_names_witness :
  primaryKeysOf (lit "a int, b int, PRIMARY KEY (`a`, 'b' )")
    = Normal (list_to_set [lit "a"; lit "b"]).
Proof.
  apply (primary_keys_are_listed_names _ [lit "`a`"; lit " 'b' "] [lit "a"; lit "b"]).
  - constructor; [|constructor; [|constructor]].
    + exists [], (lit "`"), (lit "`"), []. split; [reflexivity|].
      repeat split; repeat constructor.
    + exists (lit " "), (lit "'"), (lit "'"), (lit " "). split; [reflexivity|].
      repeat split; repeat constructor.
  - exists 14%nat. split.
    + exists (lit "PRIMARY KEY"), (lit " "), []. split; [reflexivity|].
      split; [reflexivity|]. split; [repeat constructor|]. split; [discriminate|].
      decided.
    + intros j cols' Hj Hc. apply matchAt_pkClauseAt in Hc as (m & Hm & _).
      assert (Hnone : forallb (λ j, bool_decide
                (matchAt rePrimaryKey (drop j (lit "a int, b int, PRIMARY KEY (`a`, 'b' )"))
                 = None)) (seq 0 14) = true) by evaluate.
      rewrite forallb_forall in Hnone. specialize (Hnone j).
      rewrite in_seq in Hnone. apply bool_decide_eq_true in Hnone; [congruence|lia].
Defined.

(** ** The adjacency index *)

Lemma addAdjacent_ensureKey map e :
  addAdjacent map e =
    alter (λ s, s ∪ {[Edge.source e]}) (Edge.target e)
      (alter (λ s, s ∪ {[Edge.target e]}) (Edge.source e)
         (ensureKey (Edge.target e) (ensureKey (Edge.source e) map))).
Proof. done. Qed.

Lemma is_Some_ensureKey k map s :
  is_Some (ensureKey k map !! s) ↔ is_Some (map !! s) ∨ s = k.
Proof.
  unfold ensureKey. destruct (bool_decide_reflect (is_Some (map !! k))) as [Hk|Hk].
  - split; [auto|]. by intros [?| ->].
  - rewrite lookup_insert_is_Some. split.
    + intros [->|[_ ?]]; auto.
    + intros [?| ->]; [|by left]. destruct (decide (k = s)); auto.
Qed.

Lemma adjacentTo_ensureKey k map s i :
  adjacentTo (ensureKey k map) s i ↔ adjacentTo map s i.
Proof.
  unfold ensureKey, adjacentTo.
  destruct (bool_decide_reflect (is_Some (map !! k))) as [Hk|Hk]; [done|].
  destruct (decide (k = s)) as [->|Hne].
  - rewrite lookup_insert_eq. split.
    + intros (N & [= <-] & Hi). set_solver.
    + intros (N & HN & _). destruct Hk. eauto.
  - by rewrite lookup_insert_ne.
Qed.

Lemma adjacentTo_alter k x map s i :
  adjacentTo (alter (λ N, N ∪ {[x]}) k map) s i ↔
  adjacentTo map s i ∨ (s = k ∧ i = x ∧ is_Some (map !! k)).
Proof.
  unfold adjacentTo. destruct (decide (k = s)) as [->|Hne].
  - rewrite lookup_alter_eq. split.
    + intros (N & HN & Hi). destruct (map !! s) as [N'|] eqn:E; [|done].
      injection HN as <-. apply elem_of_union in Hi as [Hi|Hi]; [eauto|].
      apply elem_of_singleton in Hi as ->. right. eauto.
    + intros [(N & HN & Hi)|(_ & -> & [N HN])]; rewrite HN; cbn;
        eexists; (split; [done|]); set_solver.
  - rewrite lookup_alter_ne by done. split; [auto|]. by intros [?|[-> _]].
Qed.

Lemma is_Some_addAdjacent map e s :
  is_Some (addAdjacent map e !! s) ↔
  is_Some (map !! s) ∨ s = Edge.source e ∨ s = Edge.target e.
Proof.
  rewrite addAdjacent_ensureKey, !lookup_alter_is_Some, !is_Some_ensureKey. tauto.
Qed.

Lemma adjacentTo_addAdjacent map e s i :
  adjacentTo (addAdjacent map e) s i ↔
  adjacentTo map s i
  ∨ (s = Edge.source e ∧ i = Edge.target e)
  ∨ (s = Edge.target e ∧ i = Edge.source e).
Proof.
  rewrite addAdjacent_ensureKey, !adjacentTo_alter, !adjacentTo_ensureKey.
  rewrite lookup_alter_is_Some, !is_Some_ensureKey. tauto.
Qed.

Lemma foldl_addAdjacent es : ∀ map s,
  (is_Some (foldl addAdjacent map es !! s) ↔ is_Some (map !! s) ∨ endpointOf es s)
  ∧ ∀ i, adjacentTo (foldl addAdjacent map es) s i ↔ adjacentTo map s i ∨ linked es s i.
Proof.
  unfold endpointOf, linked.
  induction es as [|e es IH]; intros map s; cbn [foldl].
  - split; [|intros i]; (split; [auto|]); intros [?|(e & He & _)]; [done| |done|];
      by apply elem_of_nil in He.
  - destruct (IH (addAdjacent map e) s) as [IH1 IH2]. split.
    + rewrite IH1, is_Some_addAdjacent. setoid_rewrite elem_of_cons. split.
      * intros [[?|[->| ->]]|(e' & He' & H)]; eauto 6.
      * intros [?|(e' & [->|He'] & H)]; [tauto| |eauto].
        left. destruct H as [<-|<-]; auto.
    + intros i. rewrite IH2, adjacentTo_addAdjacent. setoid_rewrite elem_of_cons. split.
      * intros [[?|[[-> ->]|[-> ->]]]|(e' & He' & H)]; eauto 8.
      * intros [?|(e' & [->|He'] & H)]; [tauto| |eauto].
        left. destruct H as [[<- <-]|[<- <-]]; auto.
Qed.

Lemma adjacencyOf_spec es s :
  (is_Some (adjacencyOf es !! s) ↔ endpointOf es s)
  ∧ ∀ i, adjacentTo (adjacencyOf es) s i ↔ linked es s i.
Proof.
  unfold adjacencyOf. destruct (foldl_addAdjacent es ∅ s) as [H1 H2]. split.
  - rewrite H1, lookup_empty. split; [|auto]. intros [[? ?]|?]; done.
  - intros i. rewrite H2. unfold adjacentTo at 1. rewrite lookup_empty.
    split; [|auto]. intros [(? & ? & _)|?]; done.
Qed.

(** X9: the adjacency index has an entry for exactly the tables that are
    an end of some relationship, the entry of a table holds exactly the tables
    joined to it by a relationship in either direction, and so the index is
    symmetric. *)
Theorem adjacency_is_neighbourhood (es : list Edge) (s : jsstring) :
  (is_Some (adjacencyOf es !! s) ↔ endpointOf es s)
  ∧ (∀ i, adjacentTo (adjacencyOf es) s i ↔ linked es s i)
  ∧ (∀ i, adjacentTo (adjacencyOf es) s i ↔ adjacentTo (adjacencyOf es) i s).
Proof.
  destruct (adjacencyOf_spec es s) as [H1 H2]. split; [done|]. split; [done|].
  intros i. rewrite H2. destruct (adjacencyOf_spec es i) as [_ ->].
  unfold linked. split; intros (e & He & H); exists e; tauto.
Qed.

(** ** The fingerprint and the memoized index *)

Lemma elem_of_insertSorted x y l : x ∈ insertSorted y l ↔ x = y ∨ x ∈ l.
Proof.
  induction l as [|z l IH]; cbn.
  - apply elem_of_cons.
  - destruct (stringLe y z); rewrite !elem_of_cons; [done|]. rewrite IH. tauto.
Qed.

Lemma elem_of_sortStrings x l : x ∈ sortStrings l ↔ x ∈ l.
Proof.
  unfold sortStrings. induction l as [|y l IH]; cbn; [done|].
  rewrite elem_of_insertSorted, elem_of_cons, IH. done.
Qed.

Lemma split_at_first (c : char) a a' r r' :
  c ∉ a → c ∉ a' → a ++ c :: r = a' ++ c :: r' → a = a' ∧ r = r'.
Proof.
  revert a'. induction a as [|x a IH]; intros [|x' a'] Ha Ha'; cbn.
  - by intros [= ->].
  - intros [= <- _]. destruct Ha'. by left.
  - intros [= -> _]. destruct Ha. by left.
  - intros [= -> H]. apply IH in H as [-> ->]; [done|..].
    + intros ?. apply Ha. by right.
    + intros ?. apply Ha'. by right.
Qed.

(** The text of an edge in the fingerprint, and what follows it there. *)
Lemma split_at_bar_or_end (c : char) b b' t t' :
  c ∉ b → c ∉ b' →
  (t = [] ∨ ∃ r, t = c :: r) → (t' = [] ∨ ∃ r', t' = c :: r') →
  b ++ t = b' ++ t' → b = b' ∧ t = t'.
Proof.
  intros Hb Hb' [->|[r ->]] [->|[r' ->]]; rewrite ?app_nil_r.
  - done.
  - intros ->. destruct Hb. apply elem_of_app. right. by left.
  - intros <-. destruct Hb'. apply elem_of_app. right. by left.
  - intros H. by apply split_at_first in H as [-> ->].
Qed.

Lemma join_cons sep x l :
  join sep (x :: l) = x ++ match l with [] => [] | _ => sep ++ join sep l end.
Proof. destruct l; cbn; [by rewrite app_nil_r|done]. Qed.

Lemma join_texts_inj (l l' : list jsstring) :
  Forall edgeText l → Forall edgeText l' →
  join (lit "||") l = join (lit "||") l' → l = l'.
Proof.
  change (lit "||") with [ch "|"; ch "|"].
  intros Hl. revert l'. induction Hl as [|x l (a & b & -> & Ha & Hb) _ IH]; intros l' Hl'.
  - destruct Hl' as [|x' l' (a' & b' & -> & _) _]; [done|].
    rewrite join_cons. cbn. intros H. by destruct a'.
  - destruct Hl' as [|x' l' (a' & b' & -> & Ha' & Hb') Hl'].
    { rewrite join_cons. cbn. intros H. by destruct a. }
    rewrite !join_cons. rewrite <- !app_assoc. cbn [app]. intros H.
    apply (split_at_first (ch "|")) in H as [-> H]; [|done..].
    apply (split_at_bar_or_end (ch "|")) in H as [-> H]; [|done|done|..].
    + f_equal. destruct l as [|p l], l' as [|p' l']; [done|done|done|].
      injection H as H. by apply IH.
    + destruct l; cbn; eauto.
    + destruct l'; cbn; eauto.
Qed.

Lemma edgeText_ends es :
  plainEnds es → Forall edgeText ((λ e, Edge.source e ++ lit "|" ++ Edge.target e) <$> es).
Proof.
  intros H. apply Forall_fmap, Forall_forall. intros e He. cbn.
  destruct (H e He) as [Hs Ht]. by exists (Edge.source e), (Edge.target e).
Qed.

(** Edge lists without a bar in their ends that have the same fingerprint
    join the same pairs of tables. *)
Lemma fingerprint_same_ends es es' :
  plainEnds es → plainEnds es' →
  topologyFingerprintOf es = topologyFingerprintOf es' →
  ∀ e, e ∈ es → ∃ e', e' ∈ es' ∧ Edge.source e' = Edge.source e
                       ∧ Edge.target e' = Edge.target e.
Proof.
  intros Hp Hp' Hfp e He. unfold topologyFingerprintOf in Hfp.
  apply join_texts_inj in Hfp.
  - assert (Hin : Edge.source e ++ lit "|" ++ Edge.target e
                  ∈ (λ e, Edge.source e ++ lit "|" ++ Edge.target e) <$> es').
    { apply elem_of_sortStrings. rewrite <- Hfp. apply elem_of_sortStrings.
      apply list_elem_of_fmap. eauto. }
    apply list_elem_of_fmap in Hin as (e' & Heq & He'). exists e'. split; [done|].
    destruct (Hp e He) as [Hs _], (Hp' e' He') as [Hs' _].
    change (lit "|") with [ch "|"] in Heq. cbn [app] in Heq.
    by apply (split_at_first (ch "|")) in Heq as [-> ->].
  - apply Forall_forall. intros x Hx. rewrite elem_of_sortStrings in Hx.
    revert x Hx. apply Forall_forall. by apply edgeText_ends.
  - apply Forall_forall. intros x Hx. rewrite elem_of_sortStrings in Hx.
    revert x Hx. apply Forall_forall. by apply edgeText_ends.
Qed.

(** The index is a function of the pairs of tables the edges join. *)
Lemma adjacencyOf_same_ends es es' :
  (∀ e, e ∈ es → ∃ e', e' ∈ es' ∧ Edge.source e' = Edge.source e
                       ∧ Edge.target e' = Edge.target e) →
  (∀ e', e' ∈ es' → ∃ e, e ∈ es ∧ Edge.source e = Edge.source e'
                        ∧ Edge.target e = Edge.target e') →
  adjacencyOf es = adjacencyOf es'.
Proof.
  intros H H'.
  assert (Hend : ∀ s, endpointOf es s ↔ endpointOf es' s).
  { intros s. unfold endpointOf. split.
    - intros (e & He & Hs). destruct (H e He) as (e' & He' & Hs1 & Hs2).
      exists e'. by rewrite Hs1, Hs2.
    - intros (e & He & Hs). destruct (H' e He) as (e' & He' & Hs1 & Hs2).
      exists e'. by rewrite Hs1, Hs2. }
  assert (Hlink : ∀ s i, linked es s i ↔ linked es' s i).
  { intros s i. unfold linked. split.
    - intros (e & He & Hs). destruct (H e He) as (e' & He' & Hs1 & Hs2).
      exists e'. by rewrite Hs1, Hs2.
    - intros (e & He & Hs). destruct (H' e He) as (e' & He' & Hs1 & Hs2).
      exists e'. by rewrite Hs1, Hs2. }
  apply map_eq. intros s.
  destruct (adjacencyOf_spec es s) as [H1 H2], (adjacencyOf_spec es' s) as [H1' H2'].
  destruct (adjacencyOf es !! s) as [N|] eqn:E, (adjacencyOf es' !! s) as [N'|] eqn:E'.
  - f_equal. apply set_eq. intros i.
    assert (HN : i ∈ N ↔ adjacentTo (adjacencyOf es) s i).
    { unfold adjacentTo. rewrite E. split; [eauto|]. by intros (? & [= <-] & ?). }
    assert (HN' : i ∈ N' ↔ adjacentTo (adjacencyOf es') s i).
    { unfold adjacentTo. rewrite E'. split; [eauto|]. by intros (? & [= <-] & ?). }
    by rewrite HN, HN', H2, H2', Hlink.
  - assert (is_Some (@None (gset jsstring))) as [? ?]; [|done].
    apply H1', Hend, H1. eauto.
  - assert (is_Some (@None (gset jsstring))) as [? ?]; [|done].
    apply H1, Hend, H1'. eauto.
  - done.
Qed.

Lemma fingerprint_adjacencyOf es es' :
  plainEnds es → plainEnds es' →
  topologyFingerprintOf es = topologyFingerprintOf es' →
  adjacencyOf es = adjacencyOf es'.
Proof.
  intros Hp Hp' Hfp. apply adjacencyOf_same_ends.
  - by apply fingerprint_same_ends.
  - by apply fingerprint_same_ends.
Qed.

Lemma plainEnds_highlightEdge sel es : plainEnds es → plainEnds (highlightEdge sel <$> es).
Proof.
  intros H e He. apply list_elem_of_fmap in He as (e0 & -> & He0).
  destruct (highlightEdge_ends sel e0) as [-> ->]. by apply H.
Qed.

Lemma adjacencyOf_highlightEdge sel es :
  adjacencyOf (highlightEdge sel <$> es) = adjacencyOf es.
Proof.
  apply adjacencyOf_same_ends.
  - intros e He. apply list_elem_of_fmap in He as (e0 & -> & He0).
    exists e0. by destruct (highlightEdge_ends sel e0) as [-> ->].
  - intros e He. exists (highlightEdge sel e). split.
    + apply list_elem_of_fmap. eauto.
    + apply highlightEdge_ends.
Qed.

Lemma render_memo d : memoFor d → plainEnds (edges d) → memoCurrent (render d).
Proof.
  intros (es & Hp & Hfp & Hadj) Hpd. unfold render, memoCurrent.
  destruct (bool_decide_reflect (topologyFingerprintOf (edges d) = topologyFingerprint d))
    as [E|_]; [|done].
  split; [done|]. rewrite Hadj. symmetry. apply fingerprint_adjacencyOf; [done..|].
  by rewrite E.
Qed.

Lemma highlightEffect_memo d : memoCurrent d → memoCurrent (highlightEffect d).
Proof.
  intros [Hfp Hadj]. unfold memoCurrent, highlightEffect.
  cbn [topologyFingerprint adjacency edges].
  by rewrite fingerprint_highlightEdge, adjacencyOf_highlightEdge.
Qed.

Lemma settle_memo before d :
  memoFor d → plainEnds (edges d) →
  memoCurrent (settle before d) ∧ plainEnds (edges (settle before d)).
Proof.
  intros Hm Hp. pose proof (render_memo d Hm Hp) as Hr. unfold settle.
  destruct (_ && _).
  - split; [done|]. by rewrite render_edges.
  - rewrite render_highlightEffect by apply Hr. split.
    + by apply highlightEffect_memo.
    + unfold highlightEffect. cbn [edges].
      apply plainEnds_highlightEdge. by rewrite render_edges.
Qed.

Lemma memoCurrent_memoFor d : memoCurrent d → plainEnds (edges d) → memoFor d.
Proof. intros [Hfp Hadj] Hp. by exists (edges d). Qed.

Lemma plainEnds_nil : plainEnds [].
Proof. intros e He. by apply elem_of_nil in He. Qed.

Section MemoFacts.
Variable upperCase : jsstring → jsstring.

Lemma plainEnds_inferEdges tables :
  plainIds tables → plainEnds (inferEdges upperCase tables).
Proof.
  intros Hids e He. apply inferEdges_elem in He as (t & c & Ht & _ & Hg).
  apply guardedEdge_Some in Hg as (_ & owner & Ho & _ & _ & ->).
  rewrite buildPkMap_owner in Ho. apply keyOwner_Some in Ho as (t' & Ht' & <- & _).
  cbn. split; [by apply (Hids t)|by apply (Hids t')].
Qed.

Lemma mount_memo tables :
  plainIds tables →
  memoCurrent (mount upperCase tables) ∧ plainEnds (edges (mount upperCase tables)).
Proof.
  intros Hids. unfold mount. apply settle_memo.
  - exists []. split; [apply plainEnds_nil|done].
  - unfold highlightEffect, initEffect. cbn [edges].
    by apply plainEnds_highlightEdge, plainEnds_inferEdges.
Qed.

Lemma tablesChanged_memo tables d :
  plainIds tables → memoCurrent d → plainEnds (edges d) →
  memoCurrent (tablesChanged upperCase tables d)
  ∧ plainEnds (edges (tablesChanged upperCase tables d)).
Proof.
  intros Hids Hm Hp. unfold tablesChanged. apply settle_memo.
  - destruct Hm as [Hfp Hadj]. by exists (edges d).
  - unfold initEffect. cbn [edges]. by apply plainEnds_inferEdges.
Qed.

Lemma select_memo sel d :
  memoCurrent d → plainEnds (edges d) →
  memoCurrent (settle d (setSelectedNodeId sel d))
  ∧ plainEnds (edges (settle d (setSelectedNodeId sel d))).
Proof.
  intros Hm Hp. apply settle_memo; [|done].
  destruct Hm as [Hfp Hadj]. by exists (edges d).
Qed.

Lemma reachableWith_memo ok d :
  (∀ tables, ok tables → plainIds tables) →
  reachableWith upperCase ok d → memoCurrent d ∧ plainEnds (edges d).
Proof.
  intros Hok. induction 1 as [tables Ht|tables d Ht _ [IH1 IH2]|node d _ [IH1 IH2] _|d _ [IH1 IH2]].
  - apply mount_memo. auto.
  - apply tablesChanged_memo; auto.
  - by apply select_memo.
  - by apply select_memo.
Qed.

Lemma reachableWith_reachable ok d :
  reachableWith upperCase ok d → reachable upperCase d.
Proof.
  induction 1; [apply reach_mount|by apply reach_tables|by apply reach_node|by apply reach_pane].
Qed.
End MemoFacts.

Lemma word_not_bar c : isWordChar c = true → c ≠ ch "|".
Proof. class_tac. Qed.

Lemma parsed_plainIds tables : parsed tables → plainIds tables.
Proof.
  intros [sql Hp] t Ht. destruct (parseSQL_ids _ _ _ Hp Ht) as [Hne Hall].
  split; [|done]. intros Hin. unfold allOf in Hall. rewrite Forall_forall in Hall.
  by apply Hall, word_not_bar in Hin.
Qed.

(** X10: the adjacency index is memoized on the fingerprint of the edges.
    When no table id of the schemas given to the diagram is empty or contains
    a bar, as for the schemas of the parser, the memoized fingerprint and the
    memoized index are those of the edges on display in every state the
    diagram reaches by mounting, changes of the schema and clicks on a node
    or on the pane. *)
Theorem memoized_adjacency_is_current (upperCase : jsstring → jsstring)
    (ok : list TableDefinition → Prop) (d : Diagram) :
  (∀ tables, ok tables → plainIds tables) →
  reachableWith upperCase ok d →
  memoCurrent d.
Proof. intros Hok H. by destruct (reachableWith_memo upperCase ok d Hok H). Qed.

(** Scenario E is a state of the diagram on a schema of the parser. *)
Lemma diagramE_reachable_parsed : reachableWith toUpperCase parsed diagramE.
Proof.
  apply reachWith_node.
  - apply reachWith_mount. exists sqlScenarioE. evaluate.
  - apply list_elem_of_lookup. exists 0%nat. evaluate.
Qed.

Lemma memoized_adjacency_is_current_witness :
  selectedNodeId diagramE = Some (lit "t1")
  ∧ length (edges diagramE) = 2%nat
  ∧ memoCurrent diagramE.
Proof.
  split; [evaluate|]. split; [evaluate|].
  exact (memoized_adjacency_is_current toUpperCase parsed diagramE
           parsed_plainIds diagramE_reachable_parsed).
Defined.

(** ** The states of the diagram *)

Lemma render_nodes d : nodes (render d) = nodes d.
Proof. unfold render. by destruct (bool_decide _). Qed.

(** What holds after every run of the highlight effect, and of a render that
    leaves selection and fingerprint as they were, holds after [settle]. *)
Lemma settle_cases (P : Diagram → Prop) before d :
  (∀ d', P (highlightEffect d')) →
  (selectedNodeId d = selectedNodeId before →
   topologyFingerprint (render d) = topologyFingerprint before → P (render d)) →
  P (settle before d).
Proof.
  intros Heff H. unfold settle.
  destruct (bool_decide_reflect (selectedNodeId (render d) = selectedNodeId before)) as [Hs|];
    cbn [andb].
  - destruct (bool_decide_reflect (topologyFingerprint (render d) = topologyFingerprint before)).
    + apply H; [by rewrite <- render_selectedNodeId|done].
    + rewrite render_highlightEffect; [apply Heff|].
      by rewrite render_fingerprint, render_edges.
  - rewrite render_highlightEffect; [apply Heff|].
    by rewrite render_fingerprint, render_edges.
Qed.

Lemma highlightNode_data sel adj n : nodeData (highlightNode sel adj n) = nodeData n.
Proof. unfold highlightNode. by destruct (_ && _). Qed.

Lemma highlightEdge_data sel e : edgeData (highlightEdge sel e) = edgeData e.
Proof. unfold highlightEdge. by destruct (_ && _). Qed.

Lemma highlightNode_selected sel adj n :
  truthy (Node.selected (highlightNode sel adj n)) = isSelectedId sel (Node.id n).
Proof.
  unfold highlightNode.
  destruct (bool_decide_reflect (Node.selected n = VBool (isSelectedId sel (Node.id n))))
    as [E|]; cbn [andb]; [|done].
  destruct (bool_decide _); [by rewrite E|done].
Qed.

Lemma highlightEffect_data d :
  nodeData <$> nodes (highlightEffect d) = nodeData <$> nodes d
  ∧ edgeData <$> edges (highlightEffect d) = edgeData <$> edges d
  ∧ selectedNodeId (highlightEffect d) = selectedNodeId d.
Proof.
  unfold highlightEffect. cbn [nodes edges selectedNodeId].
  rewrite <- !list_fmap_compose. split; [|split; [|done]].
  - apply list_fmap_ext. intros _ n _. apply highlightNode_data.
  - apply list_fmap_ext. intros _ e _. apply highlightEdge_data.
Qed.

Lemma settle_data before d :
  nodeData <$> nodes (settle before d) = nodeData <$> nodes d
  ∧ edgeData <$> edges (settle before d) = edgeData <$> edges d
  ∧ selectedNodeId (settle before d) = selectedNodeId d.
Proof.
  unfold settle. destruct (_ && _).
  - by rewrite render_nodes, render_edges, render_selectedNodeId.
  - rewrite render_nodes, render_edges, render_selectedNodeId.
    destruct (highlightEffect_data (render d)) as (-> & -> & ->).
    by rewrite render_nodes, render_edges, render_selectedNodeId.
Qed.

Lemma highlightEffect_shown d : selectionShown (highlightEffect d).
Proof.
  intros n Hn. unfold highlightEffect in *. cbn [nodes selectedNodeId] in *.
  apply list_elem_of_fmap in Hn as (n0 & -> & _).
  by rewrite highlightNode_selected, highlightNode_id.
Qed.

Lemma select_shown sel d :
  selectionShown d → selectionShown (settle d (setSelectedNodeId sel d)).
Proof.
  intros Hd. apply settle_cases; [apply highlightEffect_shown|].
  cbn [selectedNodeId setSelectedNodeId].
  intros -> Hfp. rewrite render_same; [by rewrite setSelectedNodeId_same|].
  by rewrite Hfp.
Qed.

Section SelectionFacts.
Variable upperCase : jsstring → jsstring.

Lemma fresh_shown tables fingerprint adj :
  selectionShown
    (mkDiagram (getLayoutedNodes tables) (inferEdges upperCase tables) None fingerprint adj).
Proof.
  intros n Hn. cbn [nodes selectedNodeId] in *.
  apply list_elem_of_fmap in Hn as (t & -> & _). done.
Qed.

Lemma reachable_shown d : reachable upperCase d → selectionShown d.
Proof.
  induction 1 as [tables|tables d _ _|node d _ IH _|d _ IH].
  - unfold mount. apply settle_cases; [apply highlightEffect_shown|].
    intros _ Hfp. rewrite render_same; [apply highlightEffect_shown|]. by rewrite Hfp.
  - unfold tablesChanged. apply settle_cases; [apply highlightEffect_shown|].
    intros _ Hfp. rewrite render_same; [apply fresh_shown|]. by rewrite Hfp.
  - by apply select_shown.
  - by apply select_shown.
Qed.

(** The ids of the nodes and the selected id are ids of the schemas. *)
Lemma reachableWith_ids ok d :
  (∀ tables, ok tables → plainIds tables) →
  reachableWith upperCase ok d →
  (∀ n, n ∈ nodes d → Node.id n ≠ []) ∧ selectedNodeId d ≠ Some [].
Proof.
  intros Hok.
  assert (Hids : ∀ ns : list Node, (∀ n, n ∈ ns → Node.id n ≠ []) ↔
                   Forall (λ x, x.1.1.1 ≠ []) (nodeData <$> ns)).
  { intros ns. rewrite Forall_fmap, Forall_forall. done. }
  assert (Hfresh : ∀ tables, ok tables →
            ∀ n, n ∈ getLayoutedNodes tables → Node.id n ≠ []).
  { intros tables Ht n Hn. apply list_elem_of_fmap in Hn as (t & -> & Hin).
    cbn. by apply (Hok tables Ht t). }
  induction 1 as [tables Ht|tables d Ht _ _|node d _ [IH1 IH2] Hnode|d _ [IH1 IH2]].
  - unfold mount.
    destruct (settle_data
      (mkDiagram [] [] None (topologyFingerprintOf []) (adjacencyOf []))
      (highlightEffect (initEffect upperCase tables
         (mkDiagram [] [] None (topologyFingerprintOf []) (adjacencyOf [])))))
      as (Hn & _ & Hs).
    rewrite Hs, Hids, Hn. destruct (highlightEffect_data (initEffect upperCase tables
         (mkDiagram [] [] None (topologyFingerprintOf []) (adjacencyOf []))))
      as (-> & _ & ->).
    split; [|done]. apply Hids. by apply Hfresh.
  - unfold tablesChanged.
    destruct (settle_data d (initEffect upperCase tables d)) as (Hn & _ & Hs).
    rewrite Hs, Hids, Hn. split; [|done]. apply Hids. by apply Hfresh.
  - unfold onNodeClick.
    destruct (settle_data d (setSelectedNodeId (Some (Node.id node)) d)) as (Hn & _ & Hs).
    rewrite Hs, Hids, Hn. split; [by apply Hids|].
    cbn. intros [= E]. by apply (IH1 node).
  - unfold onPaneClick.
    destruct (settle_data d (setSelectedNodeId None d)) as (Hn & _ & Hs).
    rewrite Hs, Hids, Hn. split; [by apply Hids|done].
Qed.
End SelectionFacts.

(** On schemas of the parser no node has the empty string as id, so the
    guards of the highlight on the selected id are never met. *)
Lemma reachableWith_parsed_stated (upperCase : jsstring → jsstring) (d : Diagram) :
  reachableWith upperCase parsed d → statedHighlight d.
Proof.
  intros H.
  destruct (reachableWith_ids upperCase parsed d parsed_plainIds H) as [_ Hsel].
  apply guardedHighlight_stated; [|done].
  by apply (reachable_guarded upperCase), (reachableWith_reachable upperCase parsed).
Qed.

(** C6: in every state the diagram reaches on schemas of the parser, the
    only schemas it is given, by mounting, changes of the schema and clicks on
    a node or on the pane, a table node is dimmed iff a selection exists and
    the node is neither the selected table nor in the entry of the Adjacency
    Index for the selected id; an edge is emphasized iff a selection exists
    and one of its endpoints is the selected id, and it is dimmed iff a
    selection exists and it is not emphasized; with no selection no table and
    no edge is dimmed.  In Scenario E, [t1] selected, [t1] and [t2] are not
    dimmed, [t4] and [t3] are, the edge to [t1] is emphasized and the other
    edge is dimmed. *)
Theorem highlight_consistent (upperCase : jsstring → jsstring) (d : Diagram) :
  reachableWith upperCase parsed d →
  statedHighlight d
  ∧ (nodeDimmed <$> nodes diagramE = [false; false; true; true]
     ∧ edgeEmphasized <$> edges diagramE = [true; false]
     ∧ edgeDimmed <$> edges diagramE = [false; true]).
Proof.
  intros H. split; [by apply (reachableWith_parsed_stated upperCase)|]. by vm_compute.
Qed.

Lemma highlight_consistent_witness :
  parseSQL sqlScenarioE = Normal [tableT1; tableT2; tableT4; tableT3]
  ∧ selectedNodeId diagramE = Some (lit "t1")
  ∧ statedHighlight diagramE.
Proof.
  split; [evaluate|]. split; [evaluate|].
  destruct (highlight_consistent toUpperCase diagramE diagramE_reachable_parsed)
    as [H _].
  exact H.
Defined.

(** X11: on schemas of the parser the guards on the empty id never decide.
    In every state the diagram reaches by mounting, changes of the schema and
    clicks on a node or on the pane, the highlight is as the specification
    words it, and a table is dimmed exactly when a table is selected, it is
    another one, and no relationship on display joins the two. *)
Theorem unlinked_tables_are_dimmed (upperCase : jsstring → jsstring) (d : Diagram) :
  reachableWith upperCase parsed d →
  statedHighlight d
  ∧ ∀ n, n ∈ nodes d →
      (nodeDimmed n = true ↔
       ∃ s, selectedNodeId d = Some s ∧ Node.id n ≠ s
            ∧ ¬ linked (edges d) s (Node.id n)).
Proof.
  intros H.
  destruct (reachableWith_ids upperCase parsed d parsed_plainIds H) as [_ Hsel].
  destruct (reachableWith_memo upperCase parsed d parsed_plainIds H) as [[_ Hadj] _].
  pose proof (reachable_guarded upperCase d (reachableWith_reachable upperCase parsed d H))
    as Hg.
  pose proof (guardedHighlight_stated d Hg Hsel) as Hst. split; [done|].
  intros n Hn. destruct Hst as (Hnodes & _). rewrite (Hnodes n Hn), Hadj.
  split; intros (s & Hs & Hne & Hl); exists s; (split; [done|]); (split; [done|]);
    intros Hl'; apply Hl; by apply adjacencyOf_spec.
Qed.

Lemma unlinked_tables_are_dimmed_witness :
  selectedNodeId diagramE = Some (lit "t1")
  ∧ Node.id <$> nodes diagramE = [lit "t1"; lit "t2"; lit "t4"; lit "t3"]
  ∧ nodeDimmed <$> nodes diagramE = [false; false; true; true]
  ∧ statedHighlight diagramE
  ∧ ∀ n, n ∈ nodes diagramE →
      (nodeDimmed n = true ↔
       ∃ s, selectedNodeId diagramE = Some s ∧ Node.id n ≠ s
            ∧ ¬ linked (edges diagramE) s (Node.id n)).
Proof.
  split; [evaluate|]. split; [evaluate|]. split; [evaluate|].
  exact (unlinked_tables_are_dimmed toUpperCase diagramE diagramE_reachable_parsed).
Defined.

(** X12: in every state the diagram reaches by mounting, changes of the
    schema and clicks on a node or on the pane, the nodes drawn as selected
    are exactly those with the selected id, and a node drawn as selected is
    never dimmed. *)
Theorem selection_is_shown (upperCase : jsstring → jsstring) (d : Diagram) :
  reachable upperCase d →
  ∀ n, n ∈ nodes d →
    (truthy (Node.selected n) = true ↔ selectedNodeId d = Some (Node.id n))
    ∧ (truthy (Node.selected n) = true → nodeDimmed n = false).
Proof.
  intros H n Hn.
  assert (Hsel : truthy (Node.selected n) = true ↔ selectedNodeId d = Some (Node.id n)).
  { rewrite (reachable_shown upperCase d H n Hn). unfold isSelectedId.
    apply bool_decide_eq_true. }
  split; [done|]. intros Ht. apply Hsel in Ht.
  destruct (reachable_guarded upperCase d H) as (Hnodes & _).
  apply not_true_iff_false. intros Hd. apply (Hnodes n Hn) in Hd as (s & Hs & Hne & _).
  congruence.
Qed.

Lemma selection_is_shown_witness :
  truthy <$> (Node.selected <$> nodes diagramE) = [true; false; false; false]
  ∧ ∀ n, n ∈ nodes diagramE →
      (truthy (Node.selected n) = true ↔ selectedNodeId diagramE = Some (Node.id n)).
Proof.
  split; [evaluate|]. intros n Hn.
  apply (selection_is_shown toUpperCase diagramE); [|exact Hn].
  apply reach_node; [apply reach_mount|].
  apply list_elem_of_lookup. exists 0%nat. evaluate.
Defined.

(** X13: a click on a node or on the pane never adds, removes, reorders or
    rewires anything: the ids, labels, comments and columns of the nodes and
    the ids, ends and handles of the edges are as before; only the selection
    becomes the id of the node, or none. *)
Theorem click_keeps_tables_and_edges (d : Diagram) (node : Node) :
  (nodeData <$> nodes (onNodeClick node d) = nodeData <$> nodes d
   ∧ edgeData <$> edges (onNodeClick node d) = edgeData <$> edges d
   ∧ selectedNodeId (onNodeClick node d) = Some (Node.id node))
  ∧ (nodeData <$> nodes (onPaneClick d) = nodeData <$> nodes d
     ∧ edgeData <$> edges (onPaneClick d) = edgeData <$> edges d
     ∧ selectedNodeId (onPaneClick d) = None).
Proof.
  split.
  - apply (settle_data d (setSelectedNodeId (Some (Node.id node)) d)).
  - apply (settle_data d (setSelectedNodeId None d)).
Qed.

Lemma settle_fingerprint before d :
  topologyFingerprint (settle before d) = topologyFingerprintOf (edges (settle before d)).
Proof.
  unfold settle. destruct (_ && _).
  - by rewrite render_fingerprint, render_edges.
  - by rewrite render_fingerprint, render_edges.
Qed.

Lemma reachable_fingerprint upperCase d :
  reachable upperCase d → topologyFingerprint d = topologyFingerprintOf (edges d).
Proof. destruct 1; apply settle_fingerprint. Qed.

(** X14: in a state the diagram has reached by mounting, changes of the
    schema and clicks, a click on a node whose id is already selected, and a
    click on the pane when nothing is selected, leave the state as it is:
    nothing is restyled and nothing is computed again. *)
Theorem repeated_click_changes_nothing (upperCase : jsstring → jsstring)
    (d : Diagram) (node : Node) :
  reachable upperCase d →
  (selectedNodeId d = Some (Node.id node) → onNodeClick node d = d)
  ∧ (selectedNodeId d = None → onPaneClick d = d).
Proof.
  intros H. pose proof (reachable_fingerprint upperCase d H) as Hfp.
  assert (Hsame : settle d d = d).
  { unfold settle. rewrite render_same by (by rewrite render_fingerprint).
    by rewrite !bool_decide_eq_true_2. }
  split; intros Hs; unfold onNodeClick, onPaneClick; rewrite <- Hs;
    by rewrite setSelectedNodeId_same.
Qed.

Lemma repeated_click_changes_nothing_witness : onNodeClick nodeT1 diagramE = diagramE.
Proof.
  assert (Hr : reachable toUpperCase diagramE).
  { apply reach_node; [apply reach_mount|].
    apply list_elem_of_lookup. exists 0%nat. evaluate. }
  assert (Hs : selectedNodeId diagramE = Some (Node.id nodeT1)) by evaluate.
  destruct (repeated_click_changes_nothing toUpperCase diagramE nodeT1 Hr) as [H _].
  exact (H Hs).
Defined.

(** ** The handlers of the application *)

Lemma handleParse_cases st :
  (omap tableOf (tableBlocks (sqlInput st)) ≠ []
   ∧ handleParse st
     = mkApp (sqlInput st) (omap tableOf (tableBlocks (sqlInput st))) EDITOR None)
  ∨ (omap tableOf (tableBlocks (sqlInput st)) = []
     ∧ handleParse st
       = mkApp (sqlInput st) (parsedTables st) (viewMode st)
           (Some (lit "No tables found in the provided SQL."))).
Proof.
  unfold handleParse, handleParseWith. rewrite parseSQL_omap.
  destruct (omap tableOf (tableBlocks (sqlInput st))) as [|t ts]; [by right|by left].
Qed.

(** X15: [handleParse] either loads the tables of the text, which are then
    not none, clears the message and shows the diagram, or, the text having
    no table, keeps schema and view and sets the message; the text is kept in
    both cases, and a second run changes nothing more. *)
Theorem handleParse_loads_or_reports (st : App) :
  sqlInput (handleParse st) = sqlInput st
  ∧ ((parseSQL (sqlInput st) = Normal (parsedTables (handleParse st))
      ∧ parsedTables (handleParse st) ≠ []
      ∧ error (handleParse st) = None ∧ viewMode (handleParse st) = EDITOR)
     ∨ (parseSQL (sqlInput st) = Normal []
        ∧ parsedTables (handleParse st) = parsedTables st
        ∧ viewMode (handleParse st) = viewMode st
        ∧ error (handleParse st) = Some (lit "No tables found in the provided SQL.")))
  ∧ handleParse (handleParse st) = handleParse st.
Proof.
  rewrite parseSQL_omap.
  destruct (handleParse_cases st) as [[Hne E]|[He E]].
  - rewrite E. cbn [sqlInput parsedTables error viewMode]. split; [done|].
    split; [by left|].
    destruct (handleParse_cases
      (mkApp (sqlInput st) (omap tableOf (tableBlocks (sqlInput st))) EDITOR None))
      as [[_ E2]|[He _]]; [exact E2|]. by destruct Hne.
  - rewrite E. cbn [sqlInput parsedTables error viewMode]. split; [done|].
    split; [right; by rewrite He|].
    destruct (handleParse_cases
      (mkApp (sqlInput st) (parsedTables st) (viewMode st)
         (Some (lit "No tables found in the provided SQL."))))
      as [[Hne _]|[_ E2]]; [by destruct Hne|exact E2].
Qed.

(** X16: the click on Reload Default Data puts the default text in the
    editor but parses the text that was there before: the schema, the view
    and the message after it are those of [handleParse] on the old text,
    whatever the default text is, and the default text is parsed by a second
    click. *)
Theorem reload_parses_the_text_before_the_click (INITIAL_SQL : jsstring) (st : App) :
  sqlInput (reloadDefaultData INITIAL_SQL st) = INITIAL_SQL
  ∧ parsedTables (reloadDefaultData INITIAL_SQL st) = parsedTables (handleParse st)
  ∧ viewMode (reloadDefaultData INITIAL_SQL st) = viewMode (handleParse st)
  ∧ error (reloadDefaultData INITIAL_SQL st) = error (handleParse st)
  ∧ (parseSQL (sqlInput st) = Normal [] →
       parsedTables (reloadDefaultData INITIAL_SQL st) = parsedTables st)
  ∧ (∀ tables, tables ≠ [] → parseSQL INITIAL_SQL = Normal tables →
       parsedTables (reloadDefaultData INITIAL_SQL (reloadDefaultData INITIAL_SQL st))
         = tables).
Proof.
  unfold reloadDefaultData. cbn [sqlInput parsedTables viewMode error].
  split; [done|]. split; [done|]. split; [done|]. split; [done|]. split.
  - intros Hp. unfold handleParse, handleParseWith. by rewrite Hp.
  - intros tables Hne Hp. unfold handleParse at 1, handleParseWith. cbn [sqlInput].
    rewrite Hp. rewrite bool_decide_eq_false_2; [done|]. by destruct tables.
Qed.

Lemma reload_parses_the_text_before_the_click_witness :
  parsedTables (reloadDefaultData sqlDecimal (mkApp sqlNoTable [] SQL_INPUT None)) = []
  ∧ parsedTables (reloadDefaultData sqlDecimal
                    (reloadDefaultData sqlDecimal (mkApp sqlNoTable [] SQL_INPUT None)))
    = [tableDecimal].
Proof.
  destruct (reload_parses_the_text_before_the_click sqlDecimal
              (mkApp sqlNoTable [] SQL_INPUT None)) as (_ & _ & _ & _ & H1 & H2).
  split.
  - apply H1. evaluate.
  - apply H2; [discriminate|evaluate].
Defined.

(** X17: an upload stores the text and the tables of the text, whatever
    their number, and touches neither the view nor the message, so that a
    message of an earlier parse stays on display; [handleParse] after it
    leaves the schema as the upload has set it. *)
Theorem upload_stores_the_parse (content : jsstring) (st : App) :
  sqlInput (handleFileUpload content st) = content
  ∧ parseSQL content = Normal (parsedTables (handleFileUpload content st))
  ∧ viewMode (handleFileUpload content st) = viewMode st
  ∧ error (handleFileUpload content st) = error st
  ∧ parsedTables (handleParse (handleFileUpload content st))
    = parsedTables (handleFileUpload content st).
Proof.
  unfold handleFileUpload. rewrite parseSQL_omap.
  cbn [sqlInput parsedTables viewMode error].
  split; [done|]. split; [done|]. split; [done|]. split; [done|].
  destruct (handleParse_cases
    (mkApp content (omap tableOf (tableBlocks content)) (viewMode st) (error st)))
    as [[_ ->]|[_ ->]]; done.
Qed.

(** ** The layout *)

Lemma layoutColumns_positive n : (0 < layoutColumns n)%Z.
Proof. unfold layoutColumns. pose proof (Z.sqrt_up_nonneg (Z.of_nat n)). lia. Qed.

Lemma layoutPosition_inj n i j : layoutPosition n i = layoutPosition n j → i = j.
Proof.
  pose proof (layoutColumns_positive n) as Hc. unfold layoutPosition.
  intros [= Hx Hy].
  pose proof (Z.div_mod (Z.of_nat i) (layoutColumns n)) as Di.
  pose proof (Z.div_mod (Z.of_nat j) (layoutColumns n)) as Dj.
  assert (Z.of_nat i = Z.of_nat j) by nia. lia.
Qed.

(** X18: the layout is a grid with [Math.ceil(Math.sqrt(n)) + 2] places in
    a row, 400 apart in both directions: every table gets a position, no two
    tables get the same one, and no table is put left of the first or right of
    the last place of a row. *)
Theorem layout_positions_distinct (tables : list TableDefinition) :
  length (nodePositions tables) = length tables
  ∧ NoDup (nodePositions tables)
  ∧ ∀ p, p ∈ nodePositions tables →
      (0 ≤ p.1 ≤ (layoutColumns (length tables) - 1) * 400)%Z ∧ (0 ≤ p.2)%Z.
Proof.
  unfold nodePositions. split; [apply length_imap|]. split.
  - apply NoDup_alt. intros i j p. rewrite !list_lookup_imap, !fmap_Some.
    intros (t & _ & ->) (t' & _ & H). symmetry.
    by apply (layoutPosition_inj (length tables)).
  - intros p Hp. apply list_elem_of_lookup in Hp as [i Hp].
    rewrite list_lookup_imap, fmap_Some in Hp. destruct Hp as (t & _ & ->).
    unfold layoutPosition. cbn [fst snd].
    pose proof (layoutColumns_positive (length tables)) as Hc.
    pose proof (Z.mod_pos_bound (Z.of_nat i) (layoutColumns (length tables)) Hc).
    pose proof (Z.div_pos (Z.of_nat i) (layoutColumns (length tables))). lia.
Qed.

(** ** Edges, nodes and handles *)

Section HandleFacts.
Variable upperCase : jsstring → jsstring.

Lemma inferEdges_ends tables e :
  e ∈ inferEdges upperCase tables →
  ∃ t c t' c',
    t ∈ tables ∧ c ∈ Tbl.columns t ∧ t' ∈ tables ∧ c' ∈ Tbl.columns t'
    ∧ Col.name c' = Col.name c ∧ Col.isPrimaryKey c' = true
    ∧ Tbl.id t' ≠ Tbl.id t
    ∧ e = mkEdge t c (Tbl.id t').
Proof.
  intros He. apply inferEdges_elem in He as (t & c & Ht & Hc & Hg).
  apply guardedEdge_Some in Hg as (_ & owner & Ho & _ & Hne & ->).
  rewrite buildPkMap_owner in Ho. apply keyOwner_Some in Ho as (t' & Ht' & <- & Hd).
  apply declaresKey_true in Hd as (c' & Hc' & Hn & Hpk & _).
  exists t, c, t', c'. done.
Qed.
End HandleFacts.

Lemma handleIds_column n col :
  col ∈ Node.columns n →
  (Col.name col ++ lit "-target" ∈ handleIds n)
  ∧ (Col.name col ++ lit "-source" ∈ handleIds n).
Proof.
  intros H. unfold handleIds. rewrite !list_elem_of_bind.
  split; exists col; (split; [|done]); rewrite !elem_of_cons; auto.
Qed.

(** X19: no inferred edge dangles.  Every edge the relationship inference
    emits leaves a node of the schema at the source handle of one of its
    columns and enters a node of the schema at the target handle of a
    primary-key column of the same name; the ids of its two ends differ. *)
Theorem edges_attach_to_handles (upperCase : jsstring → jsstring)
    (tables : list TableDefinition) (e : Edge) :
  e ∈ inferEdges upperCase tables →
  ∃ ns nt key,
    ns ∈ getLayoutedNodes tables ∧ nt ∈ getLayoutedNodes tables
    ∧ Node.id ns = Edge.source e ∧ Node.id nt = Edge.target e
    ∧ Edge.sourceHandle e ∈ handleIds ns
    ∧ Edge.targetHandle e ∈ handleIds nt
    ∧ key ∈ Node.columns nt ∧ Col.isPrimaryKey key = true
    ∧ Edge.targetHandle e = Col.name key ++ lit "-target"
    ∧ Edge.source e ≠ Edge.target e.
Proof.
  intros He.
  apply inferEdges_ends in He as (t & c & t' & c' & Ht & Hc & Ht' & Hc' & Hn & Hpk & Hne & ->).
  exists (Node.mk (Tbl.id t) (Tbl.name t) (Tbl.comment t) (Tbl.columns t)
            VUndefined VUndefined),
         (Node.mk (Tbl.id t') (Tbl.name t') (Tbl.comment t') (Tbl.columns t')
            VUndefined VUndefined), c'.
  cbn [Node.id Node.columns mkEdge Edge.source Edge.target Edge.sourceHandle
       Edge.targetHandle].
  split; [apply list_elem_of_fmap; by exists t|].
  split; [apply list_elem_of_fmap; by exists t'|].
  split; [done|]. split; [done|].
  split; [by apply (handleIds_column (Node.mk _ _ _ (Tbl.columns t) _ _))|].
  split; [rewrite <- Hn; by apply (handleIds_column (Node.mk _ _ _ (Tbl.columns t') _ _))|].
  split; [done|]. split; [done|]. split; [by rewrite Hn|]. congruence.
Qed.

Lemma edges_attach_to_handles_witness :
  ∃ ns nt,
    ns ∈ getLayoutedNodes [tableT1; tableT2] ∧ nt ∈ getLayoutedNodes [tableT1; tableT2]
    ∧ Node.id ns = lit "t2" ∧ Node.id nt = lit "t1".
Proof.
  destruct (edges_attach_to_handles toUpperCase [tableT1; tableT2] edgeT2T1)
    as (ns & nt & _ & Hs & Ht & Hids & Hidt & _).
  - apply list_elem_of_lookup. exists 0%nat. evaluate.
  - exists ns, nt. split; [exact Hs|]. split; [exact Ht|].
    split; [exact Hids|exact Hidt].
Defined.

(** ** The ids of the edges *)

Lemma word_not_dash c : isWordChar c = true → c ≠ ch "-".
Proof. class_tac. Qed.

Lemma allOf_word_no_dash s : allOf isWordChar s → ch "-" ∉ s.
Proof.
  unfold allOf. rewrite Forall_forall. intros H Hin. by apply H, word_not_dash in Hin.
Qed.

Lemma parsed_names_words tables t :
  parsed tables → t ∈ tables →
  allOf isWordChar (Tbl.id t)
  ∧ ∀ c, c ∈ Tbl.columns t → allOf isWordChar (Col.name c).
Proof.
  intros [sql Hp] Ht. split; [by destruct (parseSQL_ids _ _ _ Hp Ht)|].
  intros c Hc.
  destruct (parseSQL_column _ _ _ _ Hp Ht Hc) as (_ & _ & _ & pks & line & _ & _ & _ & _ & Hl).
  apply parseLine_Some in Hl as (_ & _ & rest & Hq & _).
  by apply quotedWord_split in Hq as (_ & Hall & _).
Qed.

(** X20: on a schema of the parser the id of an edge names its
    relationship: two edges of the diagram with the same id have the same
    source table, the same column and the same target table, and are the same
    edge. *)
Theorem edge_id_names_the_relationship (upperCase : jsstring → jsstring)
    (tables : list TableDefinition) (e1 e2 : Edge) :
  parsed tables →
  e1 ∈ inferEdges upperCase tables → e2 ∈ inferEdges upperCase tables →
  Edge.id e1 = Edge.id e2 → e1 = e2.
Proof.
  intros Hp H1 H2.
  apply inferEdges_ends in H1 as (t1 & c1 & t1' & _ & Ht1 & Hc1 & _ & _ & _ & _ & _ & ->).
  apply inferEdges_ends in H2 as (t2 & c2 & t2' & _ & Ht2 & Hc2 & _ & _ & _ & _ & _ & ->).
  destruct (parsed_names_words tables t1 Hp Ht1) as [Hid1 Hn1].
  destruct (parsed_names_words tables t2 Hp Ht2) as [Hid2 Hn2].
  apply allOf_word_no_dash in Hid1, Hid2.
  pose proof (allOf_word_no_dash _ (Hn1 c1 Hc1)) as Hd1.
  pose proof (allOf_word_no_dash _ (Hn2 c2 Hc2)) as Hd2.
  unfold mkEdge. cbn [Edge.id]. intros Heq.
  apply app_inv_head in Heq. change (lit "-") with [ch "-"] in Heq. cbn [app] in Heq.
  apply (split_at_first (ch "-")) in Heq as [E1 Heq]; [|done..].
  apply (split_at_first (ch "-")) in Heq as [E2 E3]; [|done..].
  by rewrite E1, E2, E3.
Qed.

Lemma edge_id_names_the_relationship_witness :
  parseSQL sqlLinked = Normal [tableT1; tableT2]
  ∧ mkEdge tableT2 (Col.mk (lit "A") (lit "int") [] false true) (lit "t1") = edgeT2T1.
Proof.
  assert (Hp : parseSQL sqlLinked = Normal [tableT1; tableT2]) by evaluate.
  split; [exact Hp|].
  apply (edge_id_names_the_relationship toUpperCase [tableT1; tableT2]).
  - exists sqlLinked. exact Hp.
  - apply list_elem_of_lookup. exists 0%nat. evaluate.
  - apply list_elem_of_lookup. exists 0%nat. evaluate.
  - reflexivity.
Defined.

(** ** The order of the edges *)

Lemma stringLe_total a : ∀ b, stringLe a b = false → stringLe b a = true.
Proof.
  induction a as [|x a IH]; intros [|y b]; cbn; try done.
  rewrite orb_false_iff, andb_false_iff, orb_true_iff, andb_true_iff.
  rewrite !N.ltb_lt, !N.ltb_ge, !N.eqb_eq, N.eqb_neq.
  intros [Hlt [Hne|Hle]]; [left; lia|].
  destruct (N.eq_dec x y) as [->|]; [right; auto|left; lia].
Qed.

Lemma stringLe_antisym a : ∀ b, stringLe a b = true → stringLe b a = true → a = b.
Proof.
  induction a as [|x a IH]; intros [|y b]; cbn; try done.
  rewrite !orb_true_iff, !andb_true_iff, !N.ltb_lt, !N.eqb_eq.
  intros [?|[-> H1]] [?|[? H2]]; try lia. f_equal. by apply IH.
Qed.

Lemma stringLe_trans a : ∀ b c,
  stringLe a b = true → stringLe b c = true → stringLe a c = true.
Proof.
  induction a as [|x a IH]; intros [|y b] [|z c]; cbn; try done.
  rewrite !orb_true_iff, !andb_true_iff, !N.ltb_lt, !N.eqb_eq.
  intros [?|[-> H1]] [?|[-> H2]]; [left; lia..|]. right. split; [done|]. by eapply IH.
Qed.

Lemma insertSorted_comm x y l :
  insertSorted x (insertSorted y l) = insertSorted y (insertSorted x l).
Proof.
  induction l as [|z l IH]; cbn.
  - destruct (stringLe x y) eqn:Exy, (stringLe y x) eqn:Eyx; try done.
    + by rewrite (stringLe_antisym x y).
    + apply stringLe_total in Exy. congruence.
  - destruct (stringLe y z) eqn:Eyz, (stringLe x z) eqn:Exz; cbn;
      rewrite ?Eyz, ?Exz.
    + destruct (stringLe x y) eqn:Exy, (stringLe y x) eqn:Eyx; try done.
      * by rewrite (stringLe_antisym x y).
      * apply stringLe_total in Exy. congruence.
    + destruct (stringLe x y) eqn:Exy; [|done].
      by rewrite (stringLe_trans x y z) in Exz.
    + destruct (stringLe y x) eqn:Eyx; [|done].
      by rewrite (stringLe_trans y x z) in Eyz.
    + by rewrite IH.
Qed.

Lemma sortStrings_Permutation l l' : l ≡ₚ l' → sortStrings l = sortStrings l'.
Proof.
  unfold sortStrings. induction 1 as [|x l l' _ IH|x y l|l1 l2 l3 _ IH1 _ IH2]; cbn.
  - done.
  - by rewrite IH.
  - apply insertSorted_comm.
  - by rewrite IH1.
Qed.

(** X21: the fingerprint of the edges depends neither on their order nor
    on how they are drawn: edge lists that are rearrangements of each other,
    and an edge list and its restyling by the highlight, have the same
    fingerprint, so that neither makes the adjacency index be computed
    again. *)
Theorem fingerprint_ignores_order_and_style (es es' : list Edge)
    (sel : option jsstring) :
  es ≡ₚ es' →
  topologyFingerprintOf es = topologyFingerprintOf es'
  ∧ topologyFingerprintOf (highlightEdge sel <$> es') = topologyFingerprintOf es
  ∧ adjacencyOf es = adjacencyOf es'.
Proof.
  intros Hp.
  assert (Hfp : topologyFingerprintOf es = topologyFingerprintOf es').
  { unfold topologyFingerprintOf. f_equal. apply sortStrings_Permutation.
    by apply fmap_Permutation. }
  split; [done|]. split; [by rewrite fingerprint_highlightEdge|].
  apply adjacencyOf_same_ends.
  - intros e He. exists e. by rewrite <- Hp.
  - intros e He. exists e. by rewrite Hp.
Qed.

Lemma fingerprint_ignores_order_and_style_witness :
  topologyFingerprintOf (edges diagramE) = topologyFingerprintOf (reverse (edges diagramE)).
Proof.
  destruct (fingerprint_ignores_order_and_style
              (edges diagramE) (reverse (edges diagramE)) None) as [H _].
  - exact (Permutation_sym (reverse_Permutation (edges diagramE))).
  - exact H.
Defined.
